(** * Malaysia Energy Generator: the browser bootstrap script [static/js/main.js]

    A shallow embedding of the script's managers (Logger, EventManager,
    StateManager, LoadingManager, ApiManager, NotificationManager) and of the
    application object (MalaysiaGeneratorApp), followed by the properties of
    the specification that they satisfy.

    Modelling conventions.
    - The singletons of the script are the fields of one record, [World];
      every method is a computation in a state-and-exception monad [M] over
      it.  A thrown exception leaves the mutations made so far in place, as in
      JavaScript.
    - Everything the script does to the outside (console output, listener and
      subscriber invocations, fetch, timers used as delays, toasts appended to
      the page, script tags) is appended to the [trace] of the world.
    - What the outside answers (what a listener does, what the network
      returns, whether a script loads, what the page contains, the methods
      that other scripts attach to the application object) is read from an
      [Environment].
    - Listeners and subscribers are observers: invoking one records the call
      and either returns or throws; it does not call back into the managers.
      The walk of EventManager.emit is also given without that convention
      ([emit_live]): there a listener may call on and off while emit iterates,
      and [emit] is shown to be that walk when the listeners are observers.
    - A page element that the script dereferences without a test may be
      missing: an overlay may come without its .loading-message, and
      startLoading then throws where the script does.
    - A number is an integer that a Number can hold ([VNum]): the numbers of
      the script are statuses, counts, sizes and delays.  The fractions of
      the progress bar are left to the [Environment].
    - async functions are run to completion, one at a time: the script has no
      other interleaving than the one of its awaits. *)

From stdpp Require Import gmap strings list fin_maps pretty.

Local Open Scope Z_scope.

(** ** JavaScript values *)

#[warnings="-register-all"]
Inductive value :=
| VUndefined
| VNull
| VBool (b : bool)
| VNum (n : Z)
| VStr (s : string)
| VError (message : string)
| VObj (o : gmap string value).

(** ToBoolean. *)
Definition to_boolean (v : value) : bool :=
  match v with
  | VUndefined | VNull => false
  | VBool b => b
  | VNum n => negb (n =? 0)
  | VStr s => negb (String.eqb s "")
  | VError _ | VObj _ => true
  end.

(** An exception: [new Error(message)], or what fetch and the DOM throw. *)
Inductive JsError := Error (message : string).

Definition message (e : JsError) : string := match e with Error m => m end.
Definition error_value (e : JsError) : value := VError (message e).

(** Number::toString for a number that is an integer.  A Number is a double:
    its text is the shortest decimal that rounds to it, followed by zeros up
    to 1e21 and with an exponent from there (2 ** 60 reads
    1152921504606847000, and 2 ** 70 reads 1.1805916207174113e+21).  It is
    the decimal expansion of the integer up to 2 ** 53. *)
Definition decimal_digits (n : Z) : Z := Z.of_nat (String.length (pretty n)).

(** The doubles next to the double [n] are [2 ^ ulp_exponent n] away from it
    (half of that below a power of two). *)
Definition ulp_exponent (n : Z) : Z := Z.max 0 (Z.log2 n - 52).

(** The integer [v] rounds to the double [n]: it is nearer to [n] than to the
    doubles next to it, or half-way and the significand of [n] is even. *)
Definition rounds_to (n v : Z) : bool :=
  let e := ulp_exponent n in
  let above := 2 ^ e in
  let below := if (n =? 2 ^ Z.log2 n) && (0 <? e) then 2 ^ (e - 1) else 2 ^ e in
  if Z.even (n / 2 ^ e)
  then (2 * n - below <=? 2 * v) && (2 * v <=? 2 * n + above)
  else (2 * n - below <? 2 * v) && (2 * v <? 2 * n + above).

(** The decimal of [k] significant digits nearest to [n], when it rounds to
    [n]. *)
Definition shortest_candidate (n k : Z) : option Z :=
  let p := 10 ^ (decimal_digits n - k) in
  let down := n / p * p in
  let up := down + p in
  let down_first :=
    (n - down <? up - n) || ((n - down =? up - n) && Z.even (n / p)) in
  List.find (rounds_to n) (if down_first then [down; up] else [up; down]).

Definition shortest_decimal (n : Z) : Z :=
  default n (head (omap (shortest_candidate n)
                     (Z.of_nat <$> seq 1 (Z.to_nat (Z.min 17 (decimal_digits n)))))).

Fixpoint strip_zeros (s : string) : string :=
  match s with
  | EmptyString => EmptyString
  | String c rest =>
      match strip_zeros rest with
      | EmptyString => if String.eqb (String c EmptyString) "0" then EmptyString
                       else String c EmptyString
      | rest' => String c rest'
      end
  end.

Definition Number_toString (n : Z) : string :=
  let v := shortest_decimal (Z.abs n) in
  let text :=
    if v <? 10 ^ 21 then pretty v
    else
      match strip_zeros (pretty v) with
      | String d rest =>
          String d (match rest with EmptyString => EmptyString | _ => "." +:+ rest end)
          +:+ "e+" +:+ pretty (decimal_digits v - 1)
      | EmptyString => EmptyString
      end in
  if n <? 0 then "-" +:+ text else text.

(** ToString, as template literals apply it. *)
Definition to_string (v : value) : string :=
  match v with
  | VUndefined => "undefined"
  | VNull => "null"
  | VBool b => if b then "true" else "false"
  | VNum n => Number_toString n
  | VStr s => s
  | VError m => "Error: " +:+ m
  | VObj _ => "[object Object]"
  end.

(** [v.key]: reading a property of null or undefined throws a TypeError. *)
Definition get_property (v : value) (key : string) : JsError + value :=
  match v with
  | VUndefined | VNull =>
      inl (Error ("Cannot read properties of " +:+ to_string v +:+ " (reading '" +:+ key +:+ "')"))
  | VObj o => inr (default VUndefined (o !! key))
  | VError m => inr (if String.eqb key "message" then VStr m else VUndefined)
  | _ => inr VUndefined
  end.

(** [a || b]. *)
Definition js_or (a b : value) : value := if to_boolean a then a else b.

(** A parameter declared with a default, [f(x = d)]: the default is taken
    when the argument is undefined, or left out. *)
Definition default_parameter (d v : value) : value :=
  match v with VUndefined => d | _ => v end.

(** ** Configuration: [APP_CONFIG] and [APP_STATE] *)

Module APP_CONFIG.
Definition name : string := "Malaysia Energy Generator".
Definition version : string := "3.0".
Module api.
Definition baseUrl : string := "".
Definition timeout : Z := 300000.
Definition retryAttempts : nat := 3.
End api.
Module ui.
Definition loadingDelay : Z := 300.
Definition animationDuration : Z := 250.
Definition debounceDelay : Z := 500.
End ui.
Module validation.
Definition realTime : bool := true.
Definition showWarnings : bool := true.
End validation.
Module debug.
Definition logLevel : string := "info".
End debug.
End APP_CONFIG.

Definition APP_STATE : gmap string value :=
  {[ "initialized" := VBool false;
     "loading" := VBool false;
     "currentGeneration" := VNull;
     "lastGenerationTime" := VNull;
     "errors" := VObj ∅;
     "warnings" := VObj ∅;
     "currentView" := VStr "form";
     "modules" := VObj ∅ ]}.

(** ** The trace of effects *)

Inductive Level := LDebug | LInfo | LWarn | LError.

(** [Logger.levels]. *)
Definition levels (l : Level) : nat :=
  match l with LDebug => 0 | LInfo => 1 | LWarn => 2 | LError => 3 end%nat.

(** Functions are compared by identity ([===]); a callback is its identity. *)
Definition Callback := nat.

(** What [icons[type] || icons.info] puts in the template of a notification:
    the text of one of the four icons, or, when [type] is the name of a member
    that the object of icons inherits from Object.prototype, that member (a
    function, or the prototype itself), which is truthy and which the
    template turns into text. *)
Inductive Icon :=
| IconText (text : string)
| IconInherited (member : string).

(** A notification element: its id, the type of its class name
    [notification notification-${type}], its icon and its message. *)
Record Toast := {
  toastId : string;
  toastType : string;
  toastIcon : Icon;
  toastMessage : string
}.

(** A registration of the event manager: the record [{callback, context}]
    that on pushes. *)
Record Listener := {
  callback : Callback;
  context : value
}.

(** What a listener is called on, its [this]: the context of its
    registration when emit calls [listener.callback.call(listener.context,
    data)], and the registration record itself when it calls
    [listener.callback(data)]. *)
Inductive Receiver :=
| ThisContext (context : value)
| ThisRegistration (listener : Listener).

(** What a timer of the notification manager will do when it fires. *)
Inductive TimerAction :=
| AnimateToast (id : string)    (* add the class notification-show *)
| CloseToast (id : string)      (* this.close(id) *)
| RemoveToast (id : string).    (* detach the element, forget the id *)

Inductive Event :=
| EConsole (level : Level) (text : string) (args : list value)
| ECall (callback : Callback) (this : Receiver) (data : value)
| ESubscriber (callback : Callback) (newState previousState : gmap string value)
| EFetch (url : string) (options : gmap string value)
| EDelay (ms : Z)
| EToast (toast : Toast) (duration : Z)
| ETimeout (action : TimerAction) (ms : Z)
| EScript (path : string).

(** ** The page and the outside world *)

(** The loading overlay.  The one that the script builds has a
    .loading-message descendant; the one of a page may have none. *)
Record Overlay := {
  display : string;                 (* overlay.style.display *)
  loadingMessage : option string    (* textContent of its .loading-message, if it has one *)
}.

Record ProgressBar := {
  barDisplay : string;       (* progressBar.style.display *)
  barWidth : string          (* progressBar.style.width *)
}.

(** The elements of the HTML document that the script looks up. *)
Record Document := {
  doc_loadingOverlay : option Overlay;
  doc_loadingProgressBar : option ProgressBar;
  doc_loadingStatus : option string;
  doc_notificationContainer : option (list Toast);
  doc_generationForm : option (list string);   (* its inputs, selects and textareas *)
  doc_buttons : list string;                   (* the ids of the buttons present *)
  doc_tooltips : list string;                  (* the elements with data-tooltip *)
  doc_maxWidth768 : bool                       (* matchMedia('(max-width: 768px)').matches *)
}.

(** What a settled fetch gives. *)
Inductive FetchOutcome :=
| FetchRejected (e : JsError)
    (* network failure, or abort by the timeout's AbortController *)
| FetchResponse (status : Z) (statusText : string) (json : JsError + value).
    (* a response; [json] is what response.json() settles to *)

(** response.ok *)
Definition response_ok (status : Z) : bool := (200 <=? status) && (status <=? 299).

(** What appending a script tag gives. *)
Inductive ScriptOutcome :=
| ScriptError                       (* onerror *)
| ScriptLoaded (registered : value). (* onload; the value of window[name] *)

Record Environment := {
  (* what a listener does when called with [this] and the data, after the
     trace so far: return (None) or throw *)
  run_callback : Callback → Receiver → value → list Event → option JsError;
  (* what a state subscriber does when called with the new and old state *)
  run_subscriber : Callback → gmap string value → gmap string value → list Event → option JsError;
  (* the outcome of the n-th fetch of the session *)
  fetch_outcome : nat → string → gmap string value → FetchOutcome;
  (* the outcome of loading the script at a path *)
  script_outcome : string → ScriptOutcome;
  (* the two methods startGeneration calls on the application object; the
     class does not define them, another script has to attach them *)
  getFormData : option (JsError + value);
  validateForm : option (value → JsError + value);
  (* JSON.stringify *)
  JSON_stringify : value → value;
  (* the n-th `${Date.now()}_${Math.random().toString(36).substr(2, 9)}` *)
  random_id : nat → string;
  (* the floating-point number ((i + 1) / n) * 100, and
     `${Math.min(100, Math.max(0, progress))}%` for such a number *)
  progress_of : nat → nat → value;
  percent : value → string;
  (* the page *)
  document : Document
}.

(** ** The state of the script *)

Record LoadingManager := {
  activeLoads : gset string;
  overlay : option Overlay;
  progressBar : option ProgressBar;
  statusElement : option string
}.

Record NotificationManager := {
  container : option (list Toast);       (* null, or the element and its children *)
  notifications : gmap string Toast
}.

Record MalaysiaGeneratorApp := {
  modules : gmap string value;
  initialized : bool
}.

(** The closures that the bootstrap attaches to the page. *)
Inductive Handler :=
| HGlobalError | HUnhandledRejection | HKeydown | HVisibilityChange
| HFormSubmit | HFieldBlur (input : string) | HButtonClick (button : string)
| HTooltipEnter (element : string) | HTooltipLeave (element : string)
| HResponsive.

Record World := {
  currentLevel : nat;                          (* logger.currentLevel *)
  listeners : gmap string (list Listener);     (* eventManager.listeners *)
  state : gmap string value;                   (* stateManager.state *)
  subscribers : list Callback;                 (* stateManager.subscribers *)
  loadingManager : LoadingManager;
  notificationManager : NotificationManager;
  app : MalaysiaGeneratorApp;
  domListeners : list (string * string * Handler);  (* target, event, handler *)
  ids : nat;                                   (* identifiers drawn so far *)
  fetches : nat;                               (* fetches issued so far *)
  trace : list Event
}.

Definition set_listeners (f : gmap string (list Listener) → gmap string (list Listener)) (w : World) : World :=
  {| currentLevel := currentLevel w; listeners := f (listeners w); state := state w;
     subscribers := subscribers w; loadingManager := loadingManager w;
     notificationManager := notificationManager w; app := app w;
     domListeners := domListeners w; ids := ids w; fetches := fetches w; trace := trace w |}.

Definition set_state (f : gmap string value → gmap string value) (w : World) : World :=
  {| currentLevel := currentLevel w; listeners := listeners w; state := f (state w);
     subscribers := subscribers w; loadingManager := loadingManager w;
     notificationManager := notificationManager w; app := app w;
     domListeners := domListeners w; ids := ids w; fetches := fetches w; trace := trace w |}.

Definition set_subscribers (f : list Callback → list Callback) (w : World) : World :=
  {| currentLevel := currentLevel w; listeners := listeners w; state := state w;
     subscribers := f (subscribers w); loadingManager := loadingManager w;
     notificationManager := notificationManager w; app := app w;
     domListeners := domListeners w; ids := ids w; fetches := fetches w; trace := trace w |}.

Definition set_loadingManager (f : LoadingManager → LoadingManager) (w : World) : World :=
  {| currentLevel := currentLevel w; listeners := listeners w; state := state w;
     subscribers := subscribers w; loadingManager := f (loadingManager w);
     notificationManager := notificationManager w; app := app w;
     domListeners := domListeners w; ids := ids w; fetches := fetches w; trace := trace w |}.

Definition set_notificationManager (f : NotificationManager → NotificationManager) (w : World) : World :=
  {| currentLevel := currentLevel w; listeners := listeners w; state := state w;
     subscribers := subscribers w; loadingManager := loadingManager w;
     notificationManager := f (notificationManager w); app := app w;
     domListeners := domListeners w; ids := ids w; fetches := fetches w; trace := trace w |}.

Definition set_app (f : MalaysiaGeneratorApp → MalaysiaGeneratorApp) (w : World) : World :=
  {| currentLevel := currentLevel w; listeners := listeners w; state := state w;
     subscribers := subscribers w; loadingManager := loadingManager w;
     notificationManager := notificationManager w; app := f (app w);
     domListeners := domListeners w; ids := ids w; fetches := fetches w; trace := trace w |}.

Definition set_domListeners (f : list (string * string * Handler) → list (string * string * Handler)) (w : World) : World :=
  {| currentLevel := currentLevel w; listeners := listeners w; state := state w;
     subscribers := subscribers w; loadingManager := loadingManager w;
     notificationManager := notificationManager w; app := app w;
     domListeners := f (domListeners w); ids := ids w; fetches := fetches w; trace := trace w |}.

Definition set_ids (f : nat → nat) (w : World) : World :=
  {| currentLevel := currentLevel w; listeners := listeners w; state := state w;
     subscribers := subscribers w; loadingManager := loadingManager w;
     notificationManager := notificationManager w; app := app w;
     domListeners := domListeners w; ids := f (ids w); fetches := fetches w; trace := trace w |}.

Definition set_fetches (f : nat → nat) (w : World) : World :=
  {| currentLevel := currentLevel w; listeners := listeners w; state := state w;
     subscribers := subscribers w; loadingManager := loadingManager w;
     notificationManager := notificationManager w; app := app w;
     domListeners := domListeners w; ids := ids w; fetches := f (fetches w); trace := trace w |}.

Definition set_trace (f : list Event → list Event) (w : World) : World :=
  {| currentLevel := currentLevel w; listeners := listeners w; state := state w;
     subscribers := subscribers w; loadingManager := loadingManager w;
     notificationManager := notificationManager w; app := app w;
     domListeners := domListeners w; ids := ids w; fetches := fetches w; trace := f (trace w) |}.

Definition set_currentLevel (f : nat → nat) (w : World) : World :=
  {| currentLevel := f (currentLevel w); listeners := listeners w; state := state w;
     subscribers := subscribers w; loadingManager := loadingManager w;
     notificationManager := notificationManager w; app := app w;
     domListeners := domListeners w; ids := ids w; fetches := fetches w; trace := trace w |}.

(** The script as loaded, before DOMContentLoaded: the constructors have run. *)
Definition initial_world : World :=
  {| currentLevel := 1;   (* levels['info'] || 1 *)
     listeners := ∅;
     state := APP_STATE;
     subscribers := [];
     loadingManager := {| activeLoads := ∅; overlay := None; progressBar := None; statusElement := None |};
     notificationManager := {| container := None; notifications := ∅ |};
     app := {| modules := ∅; initialized := false |};
     domListeners := [];
     ids := 0;
     fetches := 0;
     trace := [] |}.

(** ** The monad of the script: state and exceptions *)

Inductive Completion (A : Type) :=
| Normal (a : A)
| Throw (e : JsError).
Arguments Normal {A} a.
Arguments Throw {A} e.

Definition M (A : Type) : Type := World → Completion A * World.

Definition ret {A} (a : A) : M A := λ w, (Normal a, w).

Definition bind {A B} (m : M A) (k : A → M B) : M B :=
  λ w, match m w with
       | (Normal a, w') => k a w'
       | (Throw e, w') => (Throw e, w')
       end.

Definition throw {A} (e : JsError) : M A := λ w, (Throw e, w).

(** try { m } catch (error) { handler error } *)
Definition try_catch {A} (m : M A) (handler : JsError → M A) : M A :=
  λ w, match m w with
       | (Normal a, w') => (Normal a, w')
       | (Throw e, w') => handler e w'
       end.

(** try { m } finally { cleanup }: the cleanup runs on both exits, and its own
    exception, if any, replaces the completion of [m]. *)
Definition try_finally {A} (m : M A) (cleanup : M unit) : M A :=
  λ w, match m w with
       | (c, w') =>
           match cleanup w' with
           | (Normal _, w'') => (c, w'')
           | (Throw e, w'') => (Throw e, w'')
           end
       end.

Definition get : M World := λ w, (Normal w, w).
Definition modify (f : World → World) : M unit := λ w, (Normal tt, f w).

(** Adding events to the trace. *)
Definition append (evs : list Event) (w : World) : World := set_trace (λ t, t ++ evs) w.

Lemma append_nil w : append [] w = w.
Proof. destruct w. unfold append, set_trace. simpl. by rewrite app_nil_r. Qed.

Lemma append_append a b w : append b (append a w) = append (a ++ b) w.
Proof. unfold append, set_trace. simpl. by rewrite app_assoc. Qed.

Definition effect (e : Event) : M unit := modify (append [e]).

(** A value that may be an exception, lifted. *)
Definition lift {A} (r : JsError + A) : M A :=
  match r with inl e => throw e | inr a => ret a end.

Notation "x <- m ;; k" := (bind m (λ x, k))
  (at level 100, m at next level, right associativity, only parsing).
Notation "m ;;; k" := (bind m (λ _, k))
  (at level 100, right associativity, only parsing).

(** array.forEach(f) *)
Fixpoint forEach {A} (l : list A) (f : A → M unit) : M unit :=
  match l with
  | [] => ret tt
  | x :: l' => f x ;;; forEach l' f
  end.

Definition exec {A} (m : M A) (w : World) : World := snd (m w).
Definition completion {A} (m : M A) (w : World) : Completion A := fst (m w).

(** The events a computation adds to a trace. *)
Definition added (before after : World) : list Event :=
  drop (length (trace before)) (trace after).

(** ** Reading a trace *)

(** The notifications appended to the page. *)
Definition shown (evs : list Event) : list Toast :=
  omap (λ e, match e with EToast t _ => Some t | _ => None end) evs.

(** The requests sent, each with its url and options. *)
Definition fetched (evs : list Event) : list (string * gmap string value) :=
  omap (λ e, match e with EFetch url options => Some (url, options) | _ => None end) evs.

(** The requests and the delays, in their order. *)
Definition network (evs : list Event) : list Event :=
  List.filter (λ e, match e with EFetch _ _ | EDelay _ => true | _ => false end) evs.

(** The script tags appended. *)
Definition scripts (evs : list Event) : list string :=
  omap (λ e, match e with EScript path => Some path | _ => None end) evs.

(** The warnings printed. *)
Definition warnings (evs : list Event) : list Event :=
  List.filter (λ e, match e with EConsole LWarn _ _ => true | _ => false end) evs.

(** The calls made to listeners. *)
Definition is_call (e : Event) : bool :=
  match e with ECall _ _ _ => true | _ => false end.

Definition calls_to (cb : Callback) (evs : list Event) : list Event :=
  List.filter (λ e, match e with ECall cb' _ _ => Nat.eqb cb' cb | _ => false end) evs.

(** Events that are none of the above but calls: what the bookkeeping of the
    managers leaves in a trace (listener and subscriber calls, console output
    other than warnings). *)
Definition silent_event (e : Event) : bool :=
  match e with
  | ECall _ _ _ | ESubscriber _ _ _ => true
  | EConsole level _ _ => match level with LWarn => false | _ => true end
  | _ => false
  end.

Definition silent (evs : list Event) : Prop := forallb silent_event evs = true.

(** ** Weakest preconditions *)

(** [wp m w Q]: running [m] from [w] ends in a completion and a world that
    satisfy [Q].  Every computation of [M] is total, so this is a statement of
    total correctness. *)
Definition wp {A} (m : M A) (w : World) (Q : Completion A → World → Prop) : Prop :=
  Q (completion m w) (exec m w).

Section Script.

Variable env : Environment.

(** ** Logger *)

Definition debug_prefix : string := "🔧 [DEBUG] ".
Definition info_prefix : string := "ℹ️ [INFO] ".
Definition warn_prefix : string := "⚠️ [WARN] ".
Definition error_prefix : string := "❌ [ERROR] ".

Definition log (level : Level) (prefix message : string) (args : list value) : M unit :=
  w <- get ;;
  if (currentLevel w <=? levels level)%nat
  then effect (EConsole level (prefix +:+ message) args)
  else ret tt.

Definition logger_debug := log LDebug debug_prefix.
Definition logger_info := log LInfo info_prefix.
Definition logger_warn := log LWarn warn_prefix.
Definition logger_error := log LError error_prefix.

(** The names that every object inherits from Object.prototype. *)
Definition Object_prototype : list string :=
  ["constructor"; "hasOwnProperty"; "isPrototypeOf"; "propertyIsEnumerable";
   "toLocaleString"; "toString"; "valueOf"; "__proto__";
   "__defineGetter__"; "__defineSetter__"; "__lookupGetter__"; "__lookupSetter__"].

(** [this.levels[name]]: the number of one of the four levels, a function (or
    an object) for an inherited name, undefined otherwise. *)
Inductive LevelProperty :=
| LevelNumber (n : nat)
| LevelInherited
| LevelUndefined.

Definition Logger_levels (name : string) : LevelProperty :=
  if String.eqb name "debug" then LevelNumber (levels LDebug)
  else if String.eqb name "info" then LevelNumber (levels LInfo)
  else if String.eqb name "warn" then LevelNumber (levels LWarn)
  else if String.eqb name "error" then LevelNumber (levels LError)
  else if bool_decide (name ∈ Object_prototype) then LevelInherited
  else LevelUndefined.

(** The constructor of Logger: [this.currentLevel = this.levels[level] || 1].
    [None] stands for a level that is not a number (an inherited name, which
    is truthy). *)
Definition Logger_constructor (level : string) : option nat :=
  match Logger_levels level with
  | LevelNumber n => Some (if Nat.eqb n 0 then 1%nat else n)
  | LevelInherited => None
  | LevelUndefined => Some 1%nat
  end.

(** ** EventManager *)

(** EventManager.on: [on(eventType, callback, context = null)]. *)
Definition on (eventType : string) (callback : Callback) (context : value) : M unit :=
  let context := default_parameter VNull context in
  modify (set_listeners (λ m,
    let m' := if bool_decide (is_Some (m !! eventType)) then m else <[eventType := []]> m in
    <[eventType := default [] (m' !! eventType) ++ [ {| callback := callback; context := context |} ]]> m')) ;;;
  logger_debug ("Écouteur enregistré pour '" +:+ eventType +:+ "'") [].

(** Calling a listener: the call is recorded, the environment says whether it
    returns or throws. *)
Definition invoke (cb : Callback) (this : Receiver) (data : value) : M unit :=
  w <- get ;;
  effect (ECall cb this data) ;;;
  match run_callback env cb this data (trace w) with
  | None => ret tt
  | Some e => throw e
  end.

(** The body of the forEach in EventManager.emit. *)
Definition emit_listener (eventType : string) (data : value) (listener : Listener) : M unit :=
  try_catch
    (if to_boolean (context listener)
     then invoke (callback listener) (ThisContext (context listener)) data
     else invoke (callback listener) (ThisRegistration listener) data)
    (λ error,
      logger_error ("Erreur dans l'écouteur pour '" +:+ eventType +:+ "':") [error_value error]).

(** EventManager.emit: [emit(eventType, data = null)].  The listeners are
    observers: none of them touches the registry, so the array that forEach
    walks is the one read here. *)
Definition emit (eventType : string) (data : value) : M unit :=
  let data := default_parameter VNull data in
  logger_debug ("Émission de l'événement '" +:+ eventType +:+ "'") [data] ;;;
  w <- get ;;
  match listeners w !! eventType with
  | Some ls => forEach ls (emit_listener eventType data)
  | None => ret tt
  end.

(** array.findIndex(p) *)
Fixpoint findIndex {A} (p : A → bool) (l : list A) : option nat :=
  match l with
  | [] => None
  | x :: l' => if p x then Some 0%nat else S <$> findIndex p l'
  end.

(** EventManager.off *)
Definition off (eventType : string) (cb : Callback) : M unit :=
  w <- get ;;
  match listeners w !! eventType with
  | Some ls =>
      match findIndex (λ l, Nat.eqb (callback l) cb) ls with
      | Some index =>
          modify (set_listeners (<[eventType := delete index ls]>)) ;;;
          logger_debug ("Écouteur supprimé pour '" +:+ eventType +:+ "'") []
      | None => ret tt
      end
  | None => ret tt
  end.

(** *** emit when listeners call back into the event manager *)

(** A call that a listener makes to the event manager while it runs. *)
Inductive RegistryCall :=
| CallOn (eventType : string) (callback : Callback) (context : value)
| CallOff (eventType : string) (callback : Callback).

Definition registry_call (c : RegistryCall) : M unit :=
  match c with
  | CallOn eventType cb ctx => on eventType cb ctx
  | CallOff eventType cb => off eventType cb
  end.

(** What a listener does when it is called with [this] and the data, after
    the trace so far: the calls it makes to the event manager, and then
    whether it returns or throws. *)
Definition Reactions : Type :=
  Callback → Receiver → value → list Event → list RegistryCall * option JsError.

(** [array.forEach(f)] on an array that [f] may change.  The length is read
    once, before the first call; the element at an index is read when its
    turn comes; an index that the array has no more is skipped. *)
Fixpoint forEach_from {A} (array : World → list A) (f : A → M unit) (remaining k : nat) : M unit :=
  match remaining with
  | O => ret tt
  | S remaining' =>
      w <- get ;;
      match array w !! k with
      | Some x => f x
      | None => ret tt
      end ;;;
      forEach_from array f remaining' (S k)
  end.

Definition forEach_live {A} (array : World → list A) (f : A → M unit) : M unit :=
  w <- get ;;
  forEach_from array f (length (array w)) 0.

(** Calling a listener that may call back. *)
Definition invoke_live (react : Reactions) (cb : Callback) (this : Receiver) (data : value) : M unit :=
  w <- get ;;
  effect (ECall cb this data) ;;;
  forEach (react cb this data (trace w)).1 registry_call ;;;
  match (react cb this data (trace w)).2 with
  | None => ret tt
  | Some e => throw e
  end.

Definition emit_listener_live (react : Reactions) (eventType : string) (data : value)
    (listener : Listener) : M unit :=
  try_catch
    (if to_boolean (context listener)
     then invoke_live react (callback listener) (ThisContext (context listener)) data
     else invoke_live react (callback listener) (ThisRegistration listener) data)
    (λ error,
      logger_error ("Erreur dans l'écouteur pour '" +:+ eventType +:+ "':") [error_value error]).

(** EventManager.emit, walking the array of the event type as on and off
    leave it at each step: on pushes to that array and off splices it. *)
Definition emit_live (react : Reactions) (eventType : string) (data : value) : M unit :=
  let data := default_parameter VNull data in
  logger_debug ("Émission de l'événement '" +:+ eventType +:+ "'") [data] ;;;
  w <- get ;;
  match listeners w !! eventType with
  | Some _ =>
      forEach_live (λ w, default [] (listeners w !! eventType))
        (emit_listener_live react eventType data)
  | None => ret tt
  end.

(** ** StateManager *)

(** The argument of the 'stateChanged' event. *)
Definition stateChanged_data (newState previousState updates : gmap string value) : value :=
  VObj {[ "newState" := VObj newState;
          "previousState" := VObj previousState;
          "updates" := VObj updates ]}.

(** Calling a subscriber, as [invoke] calls a listener. *)
Definition invoke_subscriber (cb : Callback) (newState previousState : gmap string value) : M unit :=
  w <- get ;;
  effect (ESubscriber cb newState previousState) ;;;
  match run_subscriber env cb newState previousState (trace w) with
  | None => ret tt
  | Some e => throw e
  end.

Definition notify_subscriber (previousState : gmap string value) (subscriber : Callback) : M unit :=
  try_catch
    (w <- get ;; invoke_subscriber subscriber (state w) previousState)
    (λ error, logger_error "Erreur dans un abonné d'état:" [error_value error]).

(** StateManager.setState: [{ ...this.state, ...updates }] is the union that
    prefers the updates. *)
Definition setState (updates : gmap string value) : M unit :=
  w <- get ;;
  let previousState := state w in
  modify (set_state (λ st, updates ∪ st)) ;;;
  logger_debug "État mis à jour:" [VObj updates] ;;;
  w <- get ;;
  forEach (subscribers w) (notify_subscriber previousState) ;;;
  w <- get ;;
  emit "stateChanged" (stateChanged_data (state w) previousState updates).

(** StateManager.getState *)
Definition getState : M (gmap string value) :=
  w <- get ;; ret (state w).

(** StateManager.subscribe: the subscribers are a Set. *)
Definition subscribe (cb : Callback) : M unit :=
  modify (set_subscribers (λ l, if bool_decide (cb ∈ l) then l else l ++ [cb])).

(** The function that subscribe returns. *)
Definition unsubscribe (cb : Callback) : M unit :=
  modify (set_subscribers (List.filter (λ c, negb (Nat.eqb c cb)))).

(** ** LoadingManager *)

(** [document.getElementById(id)] for an element that a manager keeps in a
    field.  The element that the field holds is in the page under that id (it
    was found there, or the manager appended it to the body), and is found
    again as the script left it; when the field is empty the page gives what
    it came with, if anything. *)
Definition getElementById {A} (held page : option A) : option A :=
  match held with
  | Some element => Some element
  | None => page
  end.

(** LoadingManager.createLoadingElements.  The overlay it builds has a
    .loading-message and contains a progress bar and a status element;
    getElementById finds those, or the ones the page already had. *)
Definition createLoadingElements : M unit :=
  modify (set_loadingManager (λ lm,
    {| activeLoads := activeLoads lm;
       overlay := Some {| display := ""; loadingMessage := Some "Chargement en cours..." |};
       progressBar :=
         Some (default {| barDisplay := ""; barWidth := "" |}
                 (getElementById (progressBar lm) (doc_loadingProgressBar (document env))));
       statusElement :=
         Some (default "" (getElementById (statusElement lm) (doc_loadingStatus (document env)))) |})).

(** LoadingManager.initialize *)
Definition LoadingManager_initialize : M unit :=
  modify (set_loadingManager (λ lm,
    {| activeLoads := activeLoads lm;
       overlay := getElementById (overlay lm) (doc_loadingOverlay (document env));
       progressBar := getElementById (progressBar lm) (doc_loadingProgressBar (document env));
       statusElement := getElementById (statusElement lm) (doc_loadingStatus (document env)) |})) ;;;
  w <- get ;;
  (if overlay (loadingManager w) is None then createLoadingElements else ret tt) ;;;
  logger_debug "Gestionnaire de chargement initialisé" [].

Definition add_load (loadId : string) (lm : LoadingManager) : LoadingManager :=
  {| activeLoads := {[ loadId ]} ∪ activeLoads lm;
     overlay := overlay lm; progressBar := progressBar lm; statusElement := statusElement lm |}.

Definition set_overlay (o : Overlay) (lm : LoadingManager) : LoadingManager :=
  {| activeLoads := activeLoads lm;
     overlay := Some o; progressBar := progressBar lm; statusElement := statusElement lm |}.

(** [this.progressBar.style.display = 'block'] and [.width = '0%'], under
    the test of [this.progressBar]. *)
Definition reset_progress (lm : LoadingManager) : LoadingManager :=
  {| activeLoads := activeLoads lm;
     overlay := overlay lm;
     progressBar :=
       match progressBar lm with
       | Some _ => Some {| barDisplay := "block"; barWidth := "0%" |}
       | None => None
       end;
     statusElement := statusElement lm |}.

(** The TypeError of [overlay.querySelector('.loading-message').textContent =
    message] on an overlay that has no such element. *)
Definition no_message_element : JsError :=
  Error "Cannot set properties of null (setting 'textContent')".

(** LoadingManager.startLoading.  The message is written without a test of
    what querySelector returns: on an overlay without a .loading-message the
    call throws once the load is added and the overlay displayed. *)
Definition startLoading (loadId message : string) (showProgress : bool) : M unit :=
  modify (set_loadingManager (add_load loadId)) ;;;
  w <- get ;;
  match overlay (loadingManager w) with
  | Some o =>
      modify (set_loadingManager
                (set_overlay {| display := "flex"; loadingMessage := loadingMessage o |})) ;;;
      match loadingMessage o with
      | Some _ =>
          modify (set_loadingManager
                    (set_overlay {| display := "flex"; loadingMessage := Some message |}))
      | None => throw no_message_element
      end ;;;
      if showProgress then modify (set_loadingManager reset_progress) else ret tt
  | None => ret tt
  end ;;;
  setState {[ "loading" := VBool true ]} ;;;
  logger_debug ("Chargement démarré: " +:+ loadId) [] ;;;
  emit "loadingStarted" (VObj {[ "loadId" := VStr loadId; "message" := VStr message ]}).

Definition set_progress (width : string) (status : string) (lm : LoadingManager) : LoadingManager :=
  {| activeLoads := activeLoads lm;
     overlay := overlay lm;
     progressBar :=
       match progressBar lm with
       | Some bar => Some {| barDisplay := barDisplay bar; barWidth := width |}
       | None => None
       end;
     statusElement :=
       match statusElement lm with
       | Some text => Some (if String.eqb status "" then text else status)
       | None => None
       end |}.

(** LoadingManager.updateProgress *)
Definition updateProgress (loadId : string) (progress : value) (status : string) : M unit :=
  w <- get ;;
  if bool_decide (loadId ∈ activeLoads (loadingManager w)) then
    modify (set_loadingManager (set_progress (percent env progress) status)) ;;;
    emit "loadingProgress"
      (VObj {[ "loadId" := VStr loadId; "progress" := progress; "status" := VStr status ]})
  else ret tt.

Definition remove_load (loadId : string) (lm : LoadingManager) : LoadingManager :=
  {| activeLoads := activeLoads lm ∖ {[ loadId ]};
     overlay := overlay lm; progressBar := progressBar lm; statusElement := statusElement lm |}.

Definition hide_overlay (lm : LoadingManager) : LoadingManager :=
  {| activeLoads := activeLoads lm;
     overlay :=
       match overlay lm with
       | Some o => Some {| display := "none"; loadingMessage := loadingMessage o |}
       | None => None
       end;
     progressBar := progressBar lm; statusElement := statusElement lm |}.

(** LoadingManager.stopLoading *)
Definition stopLoading (loadId : string) : M unit :=
  modify (set_loadingManager (remove_load loadId)) ;;;
  w <- get ;;
  (if bool_decide (size (activeLoads (loadingManager w)) = 0%nat) then
     modify (set_loadingManager hide_overlay) ;;;
     setState {[ "loading" := VBool false ]}
   else ret tt) ;;;
  logger_debug ("Chargement terminé: " +:+ loadId) [] ;;;
  emit "loadingStopped" (VObj {[ "loadId" := VStr loadId ]}).

Definition clear_loads (lm : LoadingManager) : LoadingManager :=
  {| activeLoads := ∅;
     overlay := overlay lm; progressBar := progressBar lm; statusElement := statusElement lm |}.

(** LoadingManager.stopAllLoading *)
Definition stopAllLoading : M unit :=
  modify (set_loadingManager clear_loads) ;;;
  modify (set_loadingManager hide_overlay) ;;;
  setState {[ "loading" := VBool false ]} ;;;
  logger_debug "Tous les chargements arrêtés" [] ;;;
  emit "allLoadingStopped" VUndefined.

(** ** ApiManager *)

(** A fresh `${Date.now()}_${Math.random()...}` suffix. *)
Definition fresh_id : M string :=
  w <- get ;;
  modify (set_ids S) ;;;
  ret (random_id env (ids w)).

Definition defaultOptions : gmap string value :=
  {[ "method" := VStr "GET";
     "headers" := VObj {[ "Content-Type" := VStr "application/json";
                          "Accept" := VStr "application/json" ]};
     "timeout" := VNum APP_CONFIG.api.timeout ]}.

(** The options handed to fetch: the final options and the abort signal. *)
Definition fetch_options (finalOptions : gmap string value) : gmap string value :=
  <["signal" := VObj ∅]> finalOptions.

(** [await fetch(url, ...)]: the call is recorded, the environment settles it.
    The abort timer of the attempt is what makes a fetch that hangs settle,
    as a rejection. *)
Definition fetch (url : string) (options : gmap string value) : M FetchOutcome :=
  w <- get ;;
  effect (EFetch url options) ;;;
  modify (set_fetches S) ;;;
  ret (fetch_outcome env (fetches w) url options).

(** ApiManager.delay *)
Definition delay (ms : Z) : M unit := effect (EDelay ms).

(** The try block of one attempt of request. *)
Definition request_try (endpoint url requestId : string) (finalOptions : gmap string value) : M value :=
  response <- fetch url (fetch_options finalOptions) ;;
  match response with
  | FetchRejected e => throw e
  | FetchResponse status statusText json =>
      if negb (response_ok status)
      then throw (Error ("HTTP " +:+ pretty status +:+ ": " +:+ statusText))
      else
        data <- lift json ;;
        logger_debug ("Requête API réussie: " +:+ url) [] ;;;
        emit "apiSuccess"
          (VObj {[ "endpoint" := VStr endpoint; "data" := data; "requestId" := VStr requestId ]}) ;;;
        ret data
  end.

(** The catch block of one attempt: [None] stands for going round the loop. *)
Definition request_catch (retryAttempts attempt : nat) (endpoint url requestId : string)
    (error : JsError) : M (option value) :=
  logger_warn ("Tentative " +:+ pretty attempt +:+ "/" +:+ pretty retryAttempts
               +:+ " échouée pour " +:+ url +:+ ":") [VStr (message error)] ;;;
  if Nat.eqb attempt retryAttempts then
    logger_error ("Échec final de la requête API: " +:+ url) [] ;;;
    emit "apiError"
      (VObj {[ "endpoint" := VStr endpoint; "error" := error_value error;
               "requestId" := VStr requestId ]}) ;;;
    throw error
  else
    delay (2 ^ (Z.of_nat attempt - 1) * 1000) ;;;
    ret None.

(** The loop [for (attempt = 1; attempt <= retryAttempts; attempt++)], by the
    number of rounds that remain.  Falling out of the loop returns undefined. *)
Fixpoint request_loop (remaining : nat) (retryAttempts attempt : nat)
    (endpoint url requestId : string) (finalOptions : gmap string value) : M value :=
  match remaining with
  | O => ret VUndefined
  | S remaining' =>
      r <- try_catch
             (data <- request_try endpoint url requestId finalOptions ;; ret (Some data))
             (request_catch retryAttempts attempt endpoint url requestId) ;;
      match r with
      | Some data => ret data
      | None => request_loop remaining' retryAttempts (S attempt) endpoint url requestId finalOptions
      end
  end.

(** ApiManager.request *)
Definition request (endpoint : string) (options : gmap string value) : M value :=
  let url := APP_CONFIG.api.baseUrl +:+ endpoint in
  suffix <- fresh_id ;;
  let requestId := "api_" +:+ suffix in
  let finalOptions := options ∪ defaultOptions in
  logger_debug ("Requête API: " +:+ to_string (default VUndefined (finalOptions !! "method"))
                +:+ " " +:+ url) [] ;;;
  request_loop APP_CONFIG.api.retryAttempts APP_CONFIG.api.retryAttempts 1
    endpoint url requestId finalOptions.

(** The options that [post(endpoint, data = {})] passes to request: the body
    is the JSON text of the data, and of an empty object when the data is
    undefined. *)
Definition post_options (data : value) : gmap string value :=
  let data := default_parameter (VObj ∅) data in
  {[ "method" := VStr "POST"; "body" := JSON_stringify env data ]}.

(** ApiManager.post *)
Definition post (endpoint : string) (data : value) : M value :=
  request endpoint (post_options data).

(** ApiManager.get.  [URLSearchParams params] stands for
    [new URLSearchParams(params).toString()]; request is called with the url
    alone, so with its default options. *)
Definition ApiManager_get (URLSearchParams : value → string) (endpoint : string)
    (params : value) : M value :=
  let queryString := URLSearchParams params in
  let url := if to_boolean (VStr queryString)
             then endpoint +:+ "?" +:+ queryString
             else endpoint in
  request url ∅.

(** ** NotificationManager *)

(** NotificationManager.createContainer *)
Definition createContainer : M unit :=
  modify (set_notificationManager (λ nm,
    {| container := Some []; notifications := notifications nm |})).

(** NotificationManager.initialize *)
Definition NotificationManager_initialize : M unit :=
  modify (set_notificationManager (λ nm,
    {| container := getElementById (container nm) (doc_notificationContainer (document env));
       notifications := notifications nm |})) ;;;
  w <- get ;;
  (if container (notificationManager w) is None then createContainer else ret tt) ;;;
  logger_debug "Gestionnaire de notifications initialisé" [].

(** NotificationManager.getIcon: [icons[type] || icons.info].  The object of
    icons has the four types as its own properties and inherits the members
    of Object.prototype, all of which are truthy. *)
Definition getIcon (type : string) : Icon :=
  if String.eqb type "success" then IconText "✅"
  else if String.eqb type "error" then IconText "❌"
  else if String.eqb type "warning" then IconText "⚠️"
  else if String.eqb type "info" then IconText "ℹ️"
  else if bool_decide (type ∈ Object_prototype) then IconInherited type
  else IconText "ℹ️".

(** NotificationManager.show.  Appending to a container that is still null
    throws. *)
Definition show (message type : string) (duration : Z) : M string :=
  suffix <- fresh_id ;;
  let notificationId := "notif_" +:+ suffix in
  let notification :=
    {| toastId := notificationId; toastType := type;
       toastIcon := getIcon type; toastMessage := message |} in
  w <- get ;;
  match container (notificationManager w) with
  | None => throw (Error "Cannot read properties of null (reading 'appendChild')")
  | Some children =>
      modify (set_notificationManager (λ nm,
        {| container := Some (children ++ [notification]);
           notifications := <[notificationId := notification]> (notifications nm) |})) ;;;
      effect (EToast notification duration) ;;;
      effect (ETimeout (AnimateToast notificationId) 10) ;;;
      (if 0 <? duration then effect (ETimeout (CloseToast notificationId) duration) else ret tt) ;;;
      logger_debug ("Notification affichée: " +:+ type +:+ " - " +:+ message) [] ;;;
      emit "notificationShown"
        (VObj {[ "id" := VStr notificationId; "message" := VStr message; "type" := VStr type ]}) ;;;
      ret notificationId
  end.

(** NotificationManager.close *)
Definition close (notificationId : string) : M unit :=
  w <- get ;;
  match notifications (notificationManager w) !! notificationId with
  | Some _ =>
      effect (ETimeout (RemoveToast notificationId) APP_CONFIG.ui.animationDuration) ;;;
      logger_debug ("Notification fermée: " +:+ notificationId) [] ;;;
      emit "notificationClosed" (VObj {[ "id" := VStr notificationId ]})
  | None => ret tt
  end.

(** NotificationManager.success, error, warning and info, with their default
    durations. *)
Definition NotificationManager_success (message : string) : M string := show message "success" 5000.
Definition NotificationManager_error (message : string) : M string := show message "error" 8000.
Definition NotificationManager_warning (message : string) : M string := show message "warning" 6000.
Definition NotificationManager_info (message : string) : M string := show message "info" 5000.

(** ** MalaysiaGeneratorApp *)

(** MalaysiaGeneratorApp.loadModule: the promise settles on the load or the
    error event of the script tag.  Its try block only guards the creation of
    the tag; a rejection of the promise it returns passes through it. *)
Definition loadModule (name path : string) : M value :=
  effect (EScript path) ;;;
  match script_outcome env path with
  | ScriptLoaded registered =>
      if to_boolean registered then
        modify (set_app (λ a,
          {| modules := <[name := registered]> (modules a); initialized := initialized a |})) ;;;
        ret registered
      else throw (Error ("Module " +:+ name +:+ " non trouvé après chargement"))
  | ScriptError => throw (Error ("Erreur lors du chargement de " +:+ path))
  end.

Definition modulesToLoad : list (string * string) :=
  [ ("formValidator", "/static/js/components/form-validator.js");
    ("mapController", "/static/js/components/map-controller.js");
    ("dataVisualizer", "/static/js/components/data-visualizer.js");
    ("osmIntegration", "/static/js/modules/osm-integration.js");
    ("exportManager", "/static/js/modules/export-manager.js") ].

(** One round of the loop of loadModules, for the module at index [i] of a
    list of [n]. *)
Definition loadModules_round (moduleLoadingId : string) (n i : nat) (module : string * string) : M unit :=
  let progress := progress_of env (i + 1) n in
  updateProgress moduleLoadingId progress ("Chargement de " +:+ module.1 +:+ "...") ;;;
  try_catch
    (loadModule module.1 module.2 ;;;
     logger_debug ("Module chargé: " +:+ module.1) [])
    (λ error,
      logger_warn ("Impossible de charger le module " +:+ module.1 +:+ ":") [error_value error]).

(** The loop [for (i = 0; i < modulesToLoad.length; i++)] over what remains of
    the list from index [i]. *)
Fixpoint loadModules_loop (moduleLoadingId : string) (n i : nat) (rest : list (string * string)) : M unit :=
  match rest with
  | [] => ret tt
  | module :: rest' =>
      loadModules_round moduleLoadingId n i module ;;;
      loadModules_loop moduleLoadingId n (S i) rest'
  end.

(** MalaysiaGeneratorApp.loadModules *)
Definition loadModules : M unit :=
  logger_info "📦 Chargement des modules..." [] ;;;
  let moduleLoadingId := "modules_loading" in
  startLoading moduleLoadingId "Chargement des modules..." true ;;;
  try_finally
    (loadModules_loop moduleLoadingId (length modulesToLoad) 0 modulesToLoad ;;;
     w <- get ;;
     logger_info ("✅ " +:+ pretty (size (modules (app w))) +:+ " modules chargés") [])
    (stopLoading moduleLoadingId).

Definition addEventListener (target event : string) (handler : Handler) : M unit :=
  modify (set_domListeners (λ l, l ++ [(target, event, handler)])).

(** MalaysiaGeneratorApp.setupGlobalEventListeners *)
Definition setupGlobalEventListeners : M unit :=
  addEventListener "window" "error" HGlobalError ;;;
  addEventListener "window" "unhandledrejection" HUnhandledRejection ;;;
  addEventListener "document" "keydown" HKeydown ;;;
  addEventListener "document" "visibilitychange" HVisibilityChange ;;;
  logger_debug "Écouteurs d'événements globaux configurés" [].

(** MalaysiaGeneratorApp.setupForms *)
Definition setupForms : M unit :=
  match doc_generationForm (document env) with
  | Some inputs =>
      addEventListener "generationForm" "submit" HFormSubmit ;;;
      if APP_CONFIG.validation.realTime
      then forEach inputs (λ input, addEventListener input "blur" (HFieldBlur input))
      else ret tt
  | None => ret tt
  end.

(** MalaysiaGeneratorApp.setupMainButtons *)
Definition setupMainButtons : M unit :=
  forEach ["generateBtn"; "previewBtn"; "sampleBtn"; "resetBtn"] (λ buttonId,
    if bool_decide (buttonId ∈ doc_buttons (document env))
    then addEventListener buttonId "click" (HButtonClick buttonId)
    else ret tt).

(** MalaysiaGeneratorApp.setupTooltips *)
Definition setupTooltips : M unit :=
  forEach (doc_tooltips (document env)) (λ element,
    addEventListener element "mouseenter" (HTooltipEnter element) ;;;
    addEventListener element "mouseleave" (HTooltipLeave element)).

(** The closure handleResponsive of setupResponsive. *)
Definition handleResponsive (matches : bool) : M unit :=
  setState {[ "isMobile" := VBool matches ]} ;;;
  emit "viewportChanged" (VObj {[ "isMobile" := VBool matches ]}).

(** MalaysiaGeneratorApp.setupResponsive *)
Definition setupResponsive : M unit :=
  addEventListener "(max-width: 768px)" "change" HResponsive ;;;
  handleResponsive (doc_maxWidth768 (document env)).

(** MalaysiaGeneratorApp.initializeUI *)
Definition initializeUI : M unit :=
  logger_info "🎨 Initialisation de l'interface utilisateur" [] ;;;
  setupForms ;;;
  setupMainButtons ;;;
  setupTooltips ;;;
  setupResponsive ;;;
  logger_debug "Interface utilisateur initialisée" [].

(** MalaysiaGeneratorApp.initialize *)
Definition initialize : M unit :=
  logger_info "🚀 Initialisation de l'application Malaysia Generator" [] ;;;
  try_catch
    (LoadingManager_initialize ;;;
     NotificationManager_initialize ;;;
     loadModules ;;;
     setupGlobalEventListeners ;;;
     initializeUI ;;;
     modify (set_app (λ a, {| modules := modules a; initialized := true |})) ;;;
     setState {[ "initialized" := VBool true ]} ;;;
     logger_info "✅ Application initialisée avec succès" [] ;;;
     NotificationManager_success "Application chargée avec succès" ;;;
     emit "appInitialized" VUndefined)
    (λ error,
      logger_error "❌ Échec de l'initialisation de l'application:" [error_value error] ;;;
      NotificationManager_error "Erreur lors du chargement de l'application" ;;;
      throw error).

(** Calling a method of the application object that may not be there. *)
Definition call_method {A} (name : string) (method : option A) : M A :=
  match method with
  | Some f => ret f
  | None => throw (Error ("this." +:+ name +:+ " is not a function"))
  end.

(** The try block of startGeneration.  Its [return] after the validation
    error is the end of the block: nothing follows the try statement. *)
Definition startGeneration_try : M unit :=
  getFormData_result <- call_method "getFormData" (getFormData env) ;;
  formData <- lift getFormData_result ;;
  validateForm_method <- call_method "validateForm" (validateForm env) ;;
  validation <- lift (validateForm_method formData) ;;
  valid <- lift (get_property validation "valid") ;;
  if negb (to_boolean valid) then
    NotificationManager_error "Veuillez corriger les erreurs du formulaire" ;;;
    ret tt
  else
    let generationId := "main_generation" in
    startLoading generationId "Génération en cours..." true ;;;
    result <- post "/generate/" formData ;;
    success <- lift (get_property result "success") ;;
    if to_boolean success then
      NotificationManager_success "Génération terminée avec succès" ;;;
      setState {[ "currentGeneration" := result ]} ;;;
      emit "generationCompleted" result
    else
      error <- lift (get_property result "error") ;;
      throw (Error (to_string (js_or error (VStr "Erreur de génération")))).

(** MalaysiaGeneratorApp.startGeneration *)
Definition startGeneration : M unit :=
  logger_info "🏗️ Démarrage de la génération" [] ;;;
  try_finally
    (try_catch
       startGeneration_try
       (λ error,
         logger_error "Erreur lors de la génération:" [error_value error] ;;;
         NotificationManager_error ("Erreur: " +:+ message error) ;;;
         ret tt))
    (stopLoading "main_generation").

(** MalaysiaGeneratorApp.getModule and isInitialized *)
Definition getModule (name : string) : M value :=
  w <- get ;; ret (default VUndefined (modules (app w) !! name)).

Definition isInitialized : M bool :=
  w <- get ;; ret (initialized (app w)).

(** What the debug mode keeps outside the managers: the flag
    [APP_CONFIG.debug.enabled] and whether the body of the page has the class
    debug-mode.  They are passed explicitly, so that what has been assigned
    before an exception is kept. *)
Record DebugMode := {
  debugEnabled : bool;
  debugClass : bool
}.

(** MalaysiaGeneratorApp.toggleDebugMode *)
Definition toggleDebugMode (d : DebugMode) (w : World) : Completion unit * World * DebugMode :=
  let enabled := negb (debugEnabled d) in
  let w1 := set_currentLevel (λ _, if enabled then levels LDebug else levels LInfo) w in
  match NotificationManager_info
          (if enabled then "Mode debug activé" else "Mode debug désactivé") w1 with
  | (Throw e, w2) => (Throw e, w2, {| debugEnabled := enabled; debugClass := debugClass d |})
  | (Normal _, w2) =>
      match logger_info ("Mode debug: " +:+ (if enabled then "ON" else "OFF")) [] w2 with
      | (c, w3) => (c, w3, {| debugEnabled := enabled; debugClass := enabled |})
      end
  end.

(** The fields of a keydown event that the script reads. *)
Record KeyboardEvent := {
  ctrlKey : bool;
  metaKey : bool;
  key : string
}.

(** What a call of handleGlobalKeyboard leaves: how it completes, the world,
    the debug mode, and whether it has called event.preventDefault(). *)
Record KeyboardResult := {
  keyboard_completion : Completion unit;
  keyboard_world : World;
  keyboard_debug : DebugMode;
  defaultPrevented : bool
}.

(** MalaysiaGeneratorApp.handleGlobalKeyboard: its three tests, in order. *)
Definition handleGlobalKeyboard (event : KeyboardEvent) (d : DebugMode) (w : World) :
    KeyboardResult :=
  let debugKey := (ctrlKey event || metaKey event) && String.eqb (key event) "d" in
  match (if debugKey then toggleDebugMode d w else (Normal tt, w, d)) with
  | (Throw e, w1, d1) =>
      {| keyboard_completion := Throw e; keyboard_world := w1; keyboard_debug := d1;
         defaultPrevented := debugKey |}
  | (Normal _, w1, d1) =>
      match (if String.eqb (key event) "Escape" then emit "escapePressed" VUndefined w1
             else (Normal tt, w1)) with
      | (Throw e, w2) =>
          {| keyboard_completion := Throw e; keyboard_world := w2; keyboard_debug := d1;
             defaultPrevented := debugKey |}
      | (Normal _, w2) =>
          if (String.eqb (key event) "F5" || (ctrlKey event && String.eqb (key event) "r"))
             && to_boolean (default VUndefined (state w2 !! "loading"))
          then
            match NotificationManager_warning "Génération en cours - rechargement bloqué" w2 with
            | (Throw e, w3) =>
                {| keyboard_completion := Throw e; keyboard_world := w3; keyboard_debug := d1;
                   defaultPrevented := true |}
            | (Normal _, w3) =>
                {| keyboard_completion := Normal tt; keyboard_world := w3; keyboard_debug := d1;
                   defaultPrevented := true |}
            end
          else
            {| keyboard_completion := Normal tt; keyboard_world := w2; keyboard_debug := d1;
               defaultPrevented := debugKey |}
      end
  end.

(** * Properties *)

(** ** The monad *)

Lemma wp_ret {A} (a : A) w Q : Q (Normal a) w → wp (ret a) w Q.
Proof. done. Qed.

Lemma wp_throw {A} e w (Q : Completion A → World → Prop) : Q (Throw e) w → wp (throw e) w Q.
Proof. done. Qed.

Lemma wp_get w Q : Q (Normal w) w → wp get w Q.
Proof. done. Qed.

Lemma wp_modify f w Q : Q (Normal tt) (f w) → wp (modify f) w Q.
Proof. done. Qed.

Lemma wp_effect e w Q : Q (Normal tt) (append [e] w) → wp (effect e) w Q.
Proof. done. Qed.

Lemma wp_lift {A} (r : JsError + A) w Q :
  match r with inl e => Q (Throw e) w | inr a => Q (Normal a) w end → wp (lift r) w Q.
Proof. by destruct r. Qed.

Lemma wp_bind {A B} (m : M A) (k : A → M B) w Q :
  wp m w (λ c w', match c with Normal a => wp (k a) w' Q | Throw e => Q (Throw e) w' end) →
  wp (bind m k) w Q.
Proof. unfold wp, completion, exec, bind. by destruct (m w) as [[a|e] w']. Qed.

Lemma wp_try_catch {A} (m : M A) handler w Q :
  wp m w (λ c w', match c with Normal a => Q (Normal a) w' | Throw e => wp (handler e) w' Q end) →
  wp (try_catch m handler) w Q.
Proof. unfold wp, completion, exec, try_catch. by destruct (m w) as [[a|e] w']. Qed.

Lemma wp_try_finally {A} (m : M A) cleanup w Q :
  wp m w (λ c w',
    wp cleanup w' (λ c' w'', match c' with Normal _ => Q c w'' | Throw e => Q (Throw e) w'' end)) →
  wp (try_finally m cleanup) w Q.
Proof.
  unfold wp, completion, exec, try_finally.
  destruct (m w) as [c w']. simpl. by destruct (cleanup w') as [[u|e] w''].
Qed.

Lemma wp_exec {A} (m : M A) w (P : World → Prop) :
  wp m w (λ _ w', P w') → P (exec m w).
Proof. done. Qed.

Lemma wp_run {A} (m : M A) w (Q : Completion A → World → Prop) :
  wp m w Q → Q (completion m w) (exec m w).
Proof. done. Qed.

(** A goal about the world, or the completion and the world, that a
    computation leaves, as a weakest precondition. *)
Ltac wp_of_exec :=
  match goal with
  | |- context [completion ?m ?w] =>
      pattern (completion m w), (exec m w); apply (wp_run m w)
  | |- context [exec ?m ?w] =>
      pattern (exec m w); apply (wp_exec m w)
  end.

(** ** Traces *)

Lemma silent_app a b : silent a → silent b → silent (a ++ b).
Proof. unfold silent. rewrite forallb_app. by intros -> ->. Qed.

Lemma silent_cons e evs : silent_event e = true → silent evs → silent (e :: evs).
Proof. unfold silent. simpl. by intros -> ->. Qed.

Lemma shown_app a b : shown (a ++ b) = shown a ++ shown b.
Proof. apply omap_app. Qed.

Lemma fetched_app a b : fetched (a ++ b) = fetched a ++ fetched b.
Proof. apply omap_app. Qed.

Lemma scripts_app a b : scripts (a ++ b) = scripts a ++ scripts b.
Proof. apply omap_app. Qed.

Lemma network_app a b : network (a ++ b) = network a ++ network b.
Proof. apply List.filter_app. Qed.

Lemma warnings_app a b : warnings (a ++ b) = warnings a ++ warnings b.
Proof. apply List.filter_app. Qed.

Lemma calls_to_app cb a b : calls_to cb (a ++ b) = calls_to cb a ++ calls_to cb b.
Proof. apply List.filter_app. Qed.

Lemma silent_shown evs : silent evs → shown evs = [].
Proof.
  unfold silent. induction evs as [|e evs IH]; [done|]. simpl.
  intros [He Hevs]%andb_prop. rewrite <- (IH Hevs). by destruct e.
Qed.

Lemma silent_fetched evs : silent evs → fetched evs = [].
Proof.
  unfold silent. induction evs as [|e evs IH]; [done|]. simpl.
  intros [He Hevs]%andb_prop. rewrite <- (IH Hevs). by destruct e.
Qed.

Lemma silent_scripts evs : silent evs → scripts evs = [].
Proof.
  unfold silent. induction evs as [|e evs IH]; [done|]. simpl.
  intros [He Hevs]%andb_prop. rewrite <- (IH Hevs). by destruct e.
Qed.

Lemma silent_network evs : silent evs → network evs = [].
Proof.
  unfold silent. induction evs as [|e evs IH]; [done|]. simpl.
  intros [He Hevs]%andb_prop. rewrite <- (IH Hevs). by destruct e.
Qed.

Lemma silent_warnings evs : silent evs → warnings evs = [].
Proof.
  unfold silent. induction evs as [|e evs IH]; [done|]. simpl.
  intros [He Hevs]%andb_prop. rewrite <- (IH Hevs). by destruct e as [[] ? ?| | | | | | |].
Qed.

Lemma added_append evs w : added w (append evs w) = evs.
Proof. unfold added. simpl. by rewrite drop_app_length. Qed.

Lemma added_trace w w' evs : trace w' = trace w ++ evs → added w w' = evs.
Proof. unfold added. intros ->. by rewrite drop_app_length. Qed.

(** Reading a field of a world that setters have built. *)
Ltac world_simpl :=
  cbn [currentLevel listeners state subscribers loadingManager notificationManager app
       domListeners ids fetches trace append set_trace set_listeners set_state
       set_subscribers set_loadingManager set_notificationManager set_app
       set_domListeners set_ids set_fetches].


Lemma trace_append evs w : trace (append evs w) = trace w ++ evs.
Proof. done. Qed.

Lemma state_append evs w : state (append evs w) = state w.
Proof. done. Qed.

(** The setters of the other fields commute with the trace. *)
Lemma set_fetches_append f evs w :
  set_fetches f (append evs w) = append evs (set_fetches f w).
Proof. done. Qed.

Lemma set_ids_append f evs w :
  set_ids f (append evs w) = append evs (set_ids f w).
Proof. done. Qed.

Lemma set_state_append f evs w :
  set_state f (append evs w) = append evs (set_state f w).
Proof. done. Qed.

Lemma set_notificationManager_append f evs w :
  set_notificationManager f (append evs w) = append evs (set_notificationManager f w).
Proof. done. Qed.

Lemma set_domListeners_append f evs w :
  set_domListeners f (append evs w) = append evs (set_domListeners f w).
Proof. done. Qed.

(** ** The logger *)

(** What a call to the logger prints. *)
Definition log_events (current : nat) (level : Level) (prefix message : string)
    (args : list value) : list Event :=
  if (current <=? levels level)%nat then [EConsole level (prefix +:+ message) args] else [].

Lemma log_spec level prefix message args w :
  log level prefix message args w
  = (Normal tt, append (log_events (currentLevel w) level prefix message args) w).
Proof.
  unfold log, log_events, bind, get, effect, modify, ret.
  destruct (currentLevel w <=? levels level)%nat; [done|].
  by rewrite append_nil.
Qed.

Lemma log_events_silent current level prefix message args :
  level ≠ LWarn → silent (log_events current level prefix message args).
Proof. unfold log_events. intros ?. destruct (_ <=? _)%nat; [|done]. by destruct level. Qed.

Lemma wp_log level prefix message args w Q :
  Q (Normal tt) (append (log_events (currentLevel w) level prefix message args) w) →
  wp (log level prefix message args) w Q.
Proof. unfold wp, completion, exec. by rewrite log_spec. Qed.

Lemma wp_log_silent level prefix message args w Q :
  level ≠ LWarn →
  (∀ evs, silent evs → Q (Normal tt) (append evs w)) →
  wp (log level prefix message args) w Q.
Proof. intros Hl HQ. apply wp_log, HQ. by apply log_events_silent. Qed.

(** ** The event manager *)

(** What emit calls a listener on. *)
Definition receiver (l : Listener) : Receiver :=
  if to_boolean (context l) then ThisContext (context l) else ThisRegistration l.

(** The call that emit makes to a listener. *)
Definition call_of (data : value) (l : Listener) : Event :=
  ECall (callback l) (receiver l) data.

(** What the catch clause of emit prints for an exception. *)
Definition listener_error_events (current : nat) (eventType : string) (e : JsError) : list Event :=
  log_events current LError error_prefix
    ("Erreur dans l'écouteur pour '" +:+ eventType +:+ "':") [error_value e].

(** What one round of the forEach of emit adds to the trace [tr]. *)
Definition listener_events (current : nat) (eventType : string) (data : value)
    (l : Listener) (tr : list Event) : list Event :=
  call_of data l ::
  match run_callback env (callback l) (receiver l) data tr with
  | None => []
  | Some e => listener_error_events current eventType e
  end.

Lemma emit_listener_spec eventType data l w :
  emit_listener eventType data l w
  = (Normal tt, append (listener_events (currentLevel w) eventType data l (trace w)) w).
Proof.
  unfold emit_listener, listener_events, call_of, receiver, try_catch.
  destruct (to_boolean (context l));
    unfold invoke, bind, get, effect, modify;
    (destruct (run_callback env _ _ _ (trace w)) as [e|]; simpl;
     [ unfold logger_error; rewrite log_spec; simpl;
       unfold listener_error_events; by rewrite append_append
     | done ]).
Qed.

(** The trace of the forEach of emit, listener by listener, from the trace
    [tr]: every listener is called; one that throws has its exception printed,
    and the next one is called all the same. *)
Inductive emitted (current : nat) (eventType : string) (data : value) :
    list Event → list Listener → list Event → Prop :=
| emitted_done tr :
    emitted current eventType data tr [] []
| emitted_returns tr l ls evs :
    run_callback env (callback l) (receiver l) data tr = None →
    emitted current eventType data (tr ++ [call_of data l]) ls evs →
    emitted current eventType data tr (l :: ls) (call_of data l :: evs)
| emitted_throws tr l ls evs e :
    run_callback env (callback l) (receiver l) data tr = Some e →
    emitted current eventType data
      (tr ++ call_of data l :: listener_error_events current eventType e) ls evs →
    emitted current eventType data tr (l :: ls)
      (call_of data l :: listener_error_events current eventType e ++ evs).

Lemma forEach_emit_listener eventType data ls : ∀ w,
  ∃ evs, forEach ls (emit_listener eventType data) w = (Normal tt, append evs w)
       ∧ emitted (currentLevel w) eventType data (trace w) ls evs.
Proof.
  induction ls as [|l ls IH]; intros w; simpl.
  - exists []. rewrite append_nil. split; [done | constructor].
  - unfold bind. rewrite emit_listener_spec.
    destruct (IH (append (listener_events (currentLevel w) eventType data l (trace w)) w))
      as (evs & Hrun & Hev).
    rewrite Hrun, append_append. simpl in Hev.
    unfold listener_events in *.
    destruct (run_callback env (callback l) _ data (trace w)) as [e|] eqn:Hcb.
    + eexists. split; [reflexivity|]. by eapply emitted_throws.
    + eexists. split; [reflexivity|]. by eapply emitted_returns.
Qed.

Lemma filter_is_call_log current level prefix message args :
  List.filter is_call (log_events current level prefix message args) = [].
Proof. unfold log_events. by destruct (_ <=? _)%nat. Qed.

Lemma emitted_calls current eventType data tr ls evs :
  emitted current eventType data tr ls evs →
  List.filter is_call evs = map (call_of data) ls.
Proof.
  induction 1 as [| tr l ls evs Hcb _ IH | tr l ls evs e Hcb _ IH]; simpl.
  - done.
  - by rewrite IH.
  - rewrite List.filter_app. unfold listener_error_events.
    by rewrite filter_is_call_log, IH.
Qed.

Lemma emitted_silent current eventType data tr ls evs :
  emitted current eventType data tr ls evs → silent evs.
Proof.
  induction 1 as [| tr l ls evs Hcb _ IH | tr l ls evs e Hcb _ IH].
  - done.
  - by apply silent_cons.
  - apply silent_cons; [done|]. apply silent_app; [|done].
    by apply log_events_silent.
Qed.

(** The line that emit prints first, at the debug level. *)
Definition emit_debug_events (current : nat) (eventType : string) (data : value) : list Event :=
  log_events current LDebug debug_prefix ("Émission de l'événement '" +:+ eventType +:+ "'") [data].

(** emit changes nothing but the trace, and returns.  The listeners receive
    the data, and null when the data is undefined. *)
Lemma emit_spec eventType data w :
  ∃ evs,
    emit eventType data w
    = (Normal tt,
       append (emit_debug_events (currentLevel w) eventType (default_parameter VNull data) ++ evs) w)
    ∧ emitted (currentLevel w) eventType (default_parameter VNull data)
        (trace w ++ emit_debug_events (currentLevel w) eventType (default_parameter VNull data))
        (default [] (listeners w !! eventType)) evs.
Proof.
  unfold emit. cbv zeta. generalize (default_parameter VNull data). clear data. intros data.
  unfold bind, logger_debug, emit_debug_events. rewrite log_spec. unfold get. simpl.
  destruct (listeners w !! eventType) as [ls|]; simpl.
  - destruct (forEach_emit_listener eventType data ls
                (append (log_events (currentLevel w) LDebug debug_prefix
                  ("Émission de l'événement '" +:+ eventType +:+ "'") [data]) w))
      as (evs & Hrun & Hev).
    exists evs. by rewrite Hrun, append_append.
  - exists []. rewrite app_nil_r. split; [done | constructor].
Qed.

Lemma wp_emit eventType data w Q :
  (∀ evs, silent evs → Q (Normal tt) (append evs w)) →
  wp (emit eventType data) w Q.
Proof.
  intros HQ. destruct (emit_spec eventType data w) as (evs & Hrun & Hev).
  unfold wp, completion, exec. rewrite Hrun. apply HQ.
  apply silent_app; [by apply log_events_silent | by eapply emitted_silent].
Qed.

(** *** on and off *)

(** The registrations of an event type; none when the type has no entry. *)
Definition registered (eventType : string) (w : World) : list Listener :=
  default [] (listeners w !! eventType).

Definition registers (cb : Callback) (l : Listener) : bool := Nat.eqb (callback l) cb.

Lemma findIndex_first {A} (p : A → bool) before x after :
  Forall (λ y, p y = false) before → p x = true →
  findIndex p (before ++ x :: after) = Some (length before).
Proof.
  intros Hb Hx. induction Hb as [|y before Hy _ IH]; simpl.
  - by rewrite Hx.
  - by rewrite Hy, IH.
Qed.

Lemma findIndex_none {A} (p : A → bool) l :
  Forall (λ y, p y = false) l → findIndex p l = None.
Proof.
  induction 1 as [|y l Hy _ IH]; simpl; [done|]. by rewrite Hy, IH.
Qed.

Lemma findIndex_delete_filter {A} (p : A → bool) l i :
  findIndex p l = Some i →
  S (length (List.filter p (delete i l))) = length (List.filter p l).
Proof.
  revert i. induction l as [|x l IH]; intros i; simpl; [done|].
  destruct (p x) eqn:Hx.
  - intros [= <-]. simpl. done.
  - destruct (findIndex p l) as [j|] eqn:Hj; simpl; [|done].
    intros [= <-]. simpl. rewrite Hx. by apply IH.
Qed.

Lemma delete_middle {A} (before : list A) x after :
  delete (length before) (before ++ x :: after) = before ++ after.
Proof. induction before as [|y before IH]; simpl; [done|]. by rewrite IH. Qed.

Definition on_events (current : nat) (eventType : string) : list Event :=
  log_events current LDebug debug_prefix ("Écouteur enregistré pour '" +:+ eventType +:+ "'") [].

Definition off_events (current : nat) (eventType : string) : list Event :=
  log_events current LDebug debug_prefix ("Écouteur supprimé pour '" +:+ eventType +:+ "'") [].

(** on appends the registration to the list of its event type. *)
Lemma on_spec eventType cb ctx w :
  on eventType cb ctx w
  = (Normal tt,
     append (on_events (currentLevel w) eventType)
       (set_listeners (λ m,
          <[eventType := default [] (m !! eventType)
                         ++ [ {| callback := cb; context := default_parameter VNull ctx |} ]]> m) w)).
Proof.
  unfold on. cbv zeta. unfold bind, modify, logger_debug. rewrite log_spec. simpl.
  unfold on_events. f_equal. f_equal. unfold set_listeners. simpl. f_equal.
  case_bool_decide as Hl.
  - done.
  - rewrite lookup_insert_eq, insert_insert_eq. simpl.
    destruct (listeners w !! eventType) eqn:E; [by destruct Hl|done].
Qed.

(** off removes the registration that findIndex finds, and nothing when it
    finds none. *)
Lemma off_spec eventType cb w :
  off eventType cb w
  = (Normal tt,
     match listeners w !! eventType with
     | Some ls =>
         match findIndex (registers cb) ls with
         | Some index =>
             append (off_events (currentLevel w) eventType)
               (set_listeners (<[eventType := delete index ls]>) w)
         | None => w
         end
     | None => w
     end).
Proof.
  unfold off, bind, get, registers.
  destruct (listeners w !! eventType) as [ls|]; [|done].
  destruct (findIndex _ ls) as [index|]; [|done].
  unfold modify, logger_debug. by rewrite log_spec.
Qed.

Lemma calls_to_log cb current level prefix message args :
  calls_to cb (log_events current level prefix message args) = [].
Proof. unfold log_events. by destruct (_ <=? _)%nat. Qed.

Lemma emitted_calls_to cb current eventType data tr ls evs :
  emitted current eventType data tr ls evs →
  calls_to cb evs = map (call_of data) (List.filter (registers cb) ls).
Proof.
  induction 1 as [| tr l ls evs Hcb _ IH | tr l ls evs e Hcb _ IH]; simpl.
  - done.
  - change (registers cb l) with (callback l =? cb)%nat.
    destruct (callback l =? cb)%nat; simpl; by rewrite IH.
  - rewrite calls_to_app. unfold listener_error_events. rewrite calls_to_log, IH.
    change (registers cb l) with (callback l =? cb)%nat.
    by destruct (callback l =? cb)%nat.
Qed.

(** The number of calls that one emit makes to a callback is the number of
    its registrations for the event type. *)
Lemma emit_calls_to cb eventType data w :
  length (calls_to cb (added w (exec (emit eventType data) w)))
  = length (List.filter (registers cb) (default [] (listeners w !! eventType))).
Proof.
  destruct (emit_spec eventType data w) as (evs & Hrun & Hev).
  unfold exec. rewrite Hrun. simpl. rewrite added_append, calls_to_app.
  unfold emit_debug_events. rewrite calls_to_log. simpl.
  erewrite emitted_calls_to by done. by rewrite length_map.
Qed.

(** C10. EventManager.off removes the first registration of the callback for
    the event type and no other: (1) when the list is [before ++ l :: after]
    with [l] the first registration of the callback, it becomes
    [before ++ after]; (2) after the callback has been registered twice more
    with on, one off leaves one more registration than there was before the
    two, so a callback that was not registered before is called exactly once
    by every emit; (3) off with a callback that has no registration for the
    event type changes nothing at all. *)
Theorem off_removes_first_registration (eventType : string) (cb : Callback) (w : World) :
  (∀ before l after,
     listeners w !! eventType = Some (before ++ l :: after) →
     callback l = cb →
     Forall (λ x, callback x ≠ cb) before →
     listeners (exec (off eventType cb) w) = <[eventType := before ++ after]> (listeners w))
  ∧ (∀ ctx1 ctx2 data,
       let w2 := exec (on eventType cb ctx1 ;;; on eventType cb ctx2 ;;; off eventType cb) w in
       length (calls_to cb (added w2 (exec (emit eventType data) w2)))
       = S (length (List.filter (registers cb) (default [] (listeners w !! eventType)))))
  ∧ (Forall (λ x, callback x ≠ cb) (default [] (listeners w !! eventType)) →
     exec (off eventType cb) w = w).
Proof.
  split; [|split].
  - intros before l after Hls Hl Hbefore.
    unfold exec. rewrite off_spec, Hls. simpl.
    rewrite findIndex_first.
    + simpl. by rewrite delete_middle.
    + eapply Forall_impl; [exact Hbefore|]. intros x Hx. unfold registers.
      by apply Nat.eqb_neq.
    + unfold registers. by apply Nat.eqb_eq.
  - intros ctx1 ctx2 data w2. rewrite emit_calls_to. subst w2.
    unfold exec, bind. rewrite on_spec, on_spec, off_spec. simpl.
    rewrite !lookup_insert_eq. simpl.
    set (ls := default [] (listeners w !! eventType)).
    set (l1 := {| callback := cb; context := default_parameter VNull ctx1 |}).
    set (l2 := {| callback := cb; context := default_parameter VNull ctx2 |}).
    assert (Hl2 : registers cb l2 = true) by (unfold registers; simpl; apply Nat.eqb_refl).
    assert (Hl1 : registers cb l1 = true) by (unfold registers; simpl; apply Nat.eqb_refl).
    destruct (findIndex (registers cb) ((ls ++ [l1]) ++ [l2])) as [index|] eqn:Hfind.
    + simpl. rewrite lookup_insert_eq. simpl.
      apply findIndex_delete_filter in Hfind.
      rewrite !List.filter_app in Hfind. simpl in Hfind. rewrite Hl1, Hl2 in Hfind.
      rewrite !length_app in Hfind. simpl in Hfind. lia.
    + exfalso. revert Hfind. rewrite <- app_assoc. simpl.
      clear -Hl1. induction ls as [|x ls IH]; simpl.
      * by rewrite Hl1.
      * destruct (registers cb x); [done|]. by destruct (findIndex _ _).
  - intros Hnone. unfold exec. rewrite off_spec.
    destruct (listeners w !! eventType) as [ls|]; [|done]. simpl in *.
    rewrite findIndex_none; [done|].
    eapply Forall_impl; [exact Hnone|]. intros x Hx. unfold registers.
    by apply Nat.eqb_neq.
Qed.

(** *** emit, walking an array that the listeners may change *)


(** The listeners of the convention: they call nothing back. *)
Definition observers : Reactions :=
  λ cb this data tr, ([], run_callback env cb this data tr).



(** A world reached by adding events that are not calls to listeners. *)
Definition no_call (w w' : World) : Prop :=
  ∃ evs, trace w' = trace w ++ evs ∧ List.filter is_call evs = [].



Lemma no_call_log current level prefix message args w :
  no_call w (append (log_events current level prefix message args) w).
Proof. eexists. split; [done|]. apply filter_is_call_log. Qed.








(** With observers, the walk is the forEach over the array read at the
    start: [emit] is [emit_live] under the convention of this development. *)
Lemma emit_listener_live_observers eventType data l w :
  emit_listener_live observers eventType data l w = emit_listener eventType data l w.
Proof.
  unfold emit_listener_live, emit_listener, invoke_live, invoke, observers, try_catch, bind,
    get, effect, modify.
  by destruct (to_boolean (context l)).
Qed.

Lemma forEach_from_observers eventType data : ∀ rest before w,
  registered eventType w = before ++ rest →
  forEach_from (registered eventType) (emit_listener_live observers eventType data)
    (length rest) (length before) w
  = forEach rest (emit_listener eventType data) w.
Proof.
  induction rest as [|l rest IH]; intros before w Hw; [done|].
  cbn [forEach_from forEach length]. unfold bind, get.
  rewrite Hw, list_lookup_middle by done.
  rewrite emit_listener_live_observers, emit_listener_spec.
  replace (S (length before)) with (length (before ++ [l]))
    by (rewrite length_app; simpl; lia).
  apply IH. unfold registered in *. world_simpl. by rewrite Hw, <- app_assoc.
Qed.

Lemma emit_live_observers eventType data w :
  emit_live observers eventType data w = emit eventType data w.
Proof.
  unfold emit_live, emit. cbv zeta. unfold bind, logger_debug. rewrite !log_spec.
  unfold get, forEach_live, bind, get. cbv beta.
  destruct (listeners _ !! eventType) as [ls|] eqn:Hls; [|done].
  change (λ w1 : World, default [] (listeners w1 !! eventType)) with (registered eventType).
  rewrite Hls. cbn [default].
  apply (forEach_from_observers eventType _ ls []).
  unfold registered. by rewrite Hls.
Qed.


(** ** Bookkeeping *)

(** A computation is bookkeeping when it returns normally and leaves the world
    as it was but for silent events added to the trace. *)
Definition bookkeeping (m : M unit) : Prop :=
  ∀ w Q, (∀ evs, silent evs → Q (Normal tt) (append evs w)) → wp m w Q.

Lemma bookkeeping_ret : bookkeeping (ret tt).
Proof. intros w Q HQ. apply wp_ret. rewrite <- (append_nil w). by apply HQ. Qed.

Lemma bookkeeping_bind m k : bookkeeping m → bookkeeping k → bookkeeping (m ;;; k).
Proof.
  intros Hm Hk w Q HQ. apply wp_bind, Hm. intros evs1 H1. simpl.
  apply Hk. intros evs2 H2. rewrite append_append. apply HQ. by apply silent_app.
Qed.

Lemma bookkeeping_log level prefix message args :
  level ≠ LWarn → bookkeeping (log level prefix message args).
Proof. intros Hl w Q HQ. by apply wp_log_silent. Qed.

Lemma bookkeeping_emit eventType data : bookkeeping (emit eventType data).
Proof. intros w Q HQ. by apply wp_emit. Qed.

Lemma bookkeeping_forEach {A} (l : list A) (f : A → M unit) :
  (∀ x, bookkeeping (f x)) → bookkeeping (forEach l f).
Proof.
  intros Hf. induction l as [|x l IH]; simpl.
  - apply bookkeeping_ret.
  - by apply bookkeeping_bind.
Qed.

Lemma bookkeeping_get (k : World → M unit) :
  (∀ w, bookkeeping (k w)) → bookkeeping (w <- get ;; k w).
Proof. intros Hk w Q HQ. apply wp_bind, wp_get. simpl. by apply Hk. Qed.

(** ** The state manager *)

Lemma bookkeeping_notify_subscriber previousState subscriber :
  bookkeeping (notify_subscriber previousState subscriber).
Proof.
  intros w Q HQ. unfold notify_subscriber, invoke_subscriber.
  apply wp_try_catch, wp_bind, wp_get. simpl.
  apply wp_bind, wp_get. simpl.
  apply wp_bind, wp_effect. simpl.
  destruct (run_subscriber env subscriber (state w) previousState (trace w)) as [e|].
  - apply wp_throw. apply wp_log_silent; [done|].
    intros evs Hevs. rewrite append_append. apply HQ. by apply silent_cons.
  - apply wp_ret. by apply HQ.
Qed.

(** setState replaces the state by the union that prefers the updates; what
    follows the assignment is bookkeeping. *)
Lemma wp_setState updates w Q :
  (∀ evs, silent evs → Q (Normal tt) (append evs (set_state (λ st, updates ∪ st) w))) →
  wp (setState updates) w Q.
Proof.
  intros HQ. unfold setState.
  apply wp_bind, wp_get. simpl. apply wp_bind, wp_modify. simpl.
  assert (Hrest : bookkeeping
    (logger_debug "État mis à jour:" [VObj updates] ;;;
     w0 <- get ;;
     forEach (subscribers w0) (notify_subscriber (state w)) ;;;
     w1 <- get ;;
     emit "stateChanged" (stateChanged_data (state w1) (state w) updates))).
  { apply bookkeeping_bind; [by apply bookkeeping_log|].
    apply bookkeeping_get. intros w0.
    apply bookkeeping_bind.
    - apply bookkeeping_forEach. intros x. apply bookkeeping_notify_subscriber.
    - apply bookkeeping_get. intros w1. apply bookkeeping_emit. }
  apply Hrest. exact HQ.
Qed.

(** C4. StateManager.setState returns normally and leaves as state the
    shallow merge of the old state and the update: a key of the update has
    the value the update gives it, whole (a nested object is replaced, not
    merged), and every other key has the value it had. *)
Theorem setState_shallow_merge (updates : gmap string value) (w : World) :
  let w' := exec (setState updates) w in
  completion (setState updates) w = Normal tt
  ∧ state w' = updates ∪ state w
  ∧ (∀ key v, updates !! key = Some v → state w' !! key = Some v)
  ∧ (∀ key, updates !! key = None → state w' !! key = state w !! key).
Proof.
  intros w'. subst w'.
  assert (H : completion (setState updates) w = Normal tt
              ∧ state (exec (setState updates) w) = updates ∪ state w).
  { apply (wp_setState updates w (λ c w', c = Normal tt ∧ state w' = updates ∪ state w)).
    intros evs _. by split. }
  destruct H as [Hc Hs]. rewrite Hs.
  split; [done|]. split; [done|]. split.
  - intros key v Hkey. by apply lookup_union_Some_l.
  - intros key Hkey. by apply lookup_union_r.
Qed.

(** ** The loading manager *)

Lemma set_loadingManager_compose f g w :
  set_loadingManager g (set_loadingManager f w) = set_loadingManager (λ lm, g (f lm)) w.
Proof. done. Qed.

Lemma set_loadingManager_ext f g w :
  f (loadingManager w) = g (loadingManager w) →
  set_loadingManager f w = set_loadingManager g w.
Proof. intros H. unfold set_loadingManager. by rewrite H. Qed.

(** The overlay that the manager holds, if it holds one, has the
    .loading-message that startLoading writes to. *)
Definition message_element (w : World) : Prop :=
  match overlay (loadingManager w) with
  | Some o => is_Some (loadingMessage o)
  | None => True
  end.

(** What startLoading does to the manager and its elements when it
    returns. *)
Definition show_overlay (message : string) (showProgress : bool) (lm : LoadingManager) : LoadingManager :=
  match overlay lm with
  | Some _ =>
      {| activeLoads := activeLoads lm;
         overlay := Some {| display := "flex"; loadingMessage := Some message |};
         progressBar :=
           match progressBar lm with
           | Some bar => Some (if showProgress then {| barDisplay := "block"; barWidth := "0%" |} else bar)
           | None => None
           end;
         statusElement := statusElement lm |}
  | None => lm
  end.

(** What it has done when it throws: the load is added and the overlay
    displayed. *)
Definition show_overlay_only (lm : LoadingManager) : LoadingManager :=
  set_overlay {| display := "flex"; loadingMessage := None |} lm.

(** What follows the update of the elements in startLoading. *)
Lemma wp_startLoading_state loadId message w Q :
  (∀ evs, silent evs →
     Q (Normal tt) (append evs (set_state (λ st, {[ "loading" := VBool true ]} ∪ st) w))) →
  wp (setState {[ "loading" := VBool true ]} ;;;
      logger_debug ("Chargement démarré: " +:+ loadId) [] ;;;
      emit "loadingStarted" (VObj {[ "loadId" := VStr loadId; "message" := VStr message ]})) w Q.
Proof.
  intros HQ.
  apply wp_bind, wp_setState. intros evs1 H1. simpl.
  apply wp_bind, wp_log_silent; [done|]. intros evs2 H2. simpl.
  apply wp_emit. intros evs3 H3.
  rewrite !append_append. apply HQ. by repeat apply silent_app.
Qed.

(** startLoading: it returns when the overlay has its .loading-message, or
    when the manager has no overlay; it throws on an overlay without it. *)
Lemma wp_startLoading loadId message showProgress w Q :
  (message_element w →
   ∀ evs, silent evs →
     Q (Normal tt)
       (append evs
          (set_state (λ st, {[ "loading" := VBool true ]} ∪ st)
             (set_loadingManager (show_overlay message showProgress)
                (set_loadingManager (add_load loadId) w))))) →
  (∀ o, overlay (loadingManager w) = Some o → loadingMessage o = None →
     Q (Throw no_message_element)
       (set_loadingManager show_overlay_only (set_loadingManager (add_load loadId) w))) →
  wp (startLoading loadId message showProgress) w Q.
Proof.
  intros Hready Hthrow. unfold startLoading.
  apply wp_bind, wp_modify. cbv beta iota. apply wp_bind, wp_get. cbv beta iota.
  apply wp_bind. world_simpl. cbn [overlay add_load].
  destruct (overlay (loadingManager w)) as [o|] eqn:Ho.
  - apply wp_bind, wp_modify. cbv beta iota. apply wp_bind.
    destruct (loadingMessage o) as [text|] eqn:Htext.
    + assert (Hw : message_element w)
        by (unfold message_element; rewrite Ho, Htext; by eexists).
      apply wp_modify. cbv beta iota.
      assert (Hshown : ∀ f,
        f = (if showProgress then reset_progress else λ lm, lm) →
        wp (setState {[ "loading" := VBool true ]} ;;;
            logger_debug ("Chargement démarré: " +:+ loadId) [] ;;;
            emit "loadingStarted"
              (VObj {[ "loadId" := VStr loadId; "message" := VStr message ]}))
          (set_loadingManager f
             (set_loadingManager
                (set_overlay {| display := "flex"; loadingMessage := Some message |})
                (set_loadingManager
                   (set_overlay {| display := "flex"; loadingMessage := Some text |})
                   (set_loadingManager (add_load loadId) w)))) Q).
      { intros f ->. apply wp_startLoading_state. intros evs Hevs.
        rewrite !set_loadingManager_compose.
        rewrite (set_loadingManager_ext _ (λ lm, show_overlay message showProgress (add_load loadId lm))).
        - rewrite <- set_loadingManager_compose. by apply Hready.
        - unfold show_overlay, set_overlay, reset_progress, add_load. cbn. rewrite Ho.
          destruct showProgress; cbn; [done|]. by destruct (progressBar (loadingManager w)). }
      destruct showProgress.
      * apply wp_modify. cbv beta iota. by apply Hshown.
      * apply wp_ret. cbv beta iota.
        match goal with
        | |- wp _ ?W _ => replace W with (set_loadingManager (λ lm, lm) W) by (by destruct w)
        end.
        by apply Hshown.
    + apply wp_throw. by apply (Hthrow o).
  - apply wp_ret. cbv beta iota. apply wp_startLoading_state. intros evs Hevs.
    assert (Hw : message_element w) by (unfold message_element; by rewrite Ho).
    specialize (Hready Hw evs Hevs).
    rewrite set_loadingManager_compose in Hready.
    rewrite (set_loadingManager_ext _ (add_load loadId)) in Hready; [done|].
    unfold show_overlay, add_load. cbn. by rewrite Ho.
Qed.

Lemma wp_startLoading_ready loadId message showProgress w Q :
  message_element w →
  (∀ evs, silent evs →
     Q (Normal tt)
       (append evs
          (set_state (λ st, {[ "loading" := VBool true ]} ∪ st)
             (set_loadingManager (show_overlay message showProgress)
                (set_loadingManager (add_load loadId) w))))) →
  wp (startLoading loadId message showProgress) w Q.
Proof.
  intros Hw HQ. apply wp_startLoading; [by intros _|].
  intros o Ho Hnone. unfold message_element in Hw. rewrite Ho, Hnone in Hw.
  by destruct Hw.
Qed.

(** The world that stopLoading leaves, but for the trace: the id is
    forgotten, and when it was the last one the overlay is hidden and the
    loading flag cleared. *)
Definition stopped (loadId : string) (w : World) : World :=
  let last := bool_decide (size (activeLoads (loadingManager w) ∖ {[ loadId ]}) = 0%nat) in
  set_state (λ st, if last then {[ "loading" := VBool false ]} ∪ st else st)
    (set_loadingManager (λ lm,
       if last then hide_overlay (remove_load loadId lm) else remove_load loadId lm) w).

Lemma set_state_same w : set_state (λ st, st) w = w.
Proof. by destruct w. Qed.

Lemma wp_stopLoading loadId w Q :
  (∀ evs, silent evs → Q (Normal tt) (append evs (stopped loadId w))) →
  wp (stopLoading loadId) w Q.
Proof.
  intros HQ. unfold stopLoading. unfold stopped in HQ.
  apply wp_bind, wp_modify. cbv beta iota. apply wp_bind, wp_get. cbv beta iota.
  apply wp_bind. cbn [loadingManager set_loadingManager activeLoads remove_load].
  revert HQ. case_bool_decide as Hsize; intros HQ.
  - apply wp_bind, wp_modify. cbv beta iota. apply wp_setState. intros evs1 H1. cbv beta iota.
    apply wp_bind, wp_log_silent; [done|]. intros evs2 H2. cbv beta iota.
    apply wp_emit. intros evs3 H3.
    rewrite !append_append. apply HQ. by repeat apply silent_app.
  - apply wp_ret. cbv beta iota.
    apply wp_bind, wp_log_silent; [done|]. intros evs2 H2. cbv beta iota.
    apply wp_emit. intros evs3 H3.
    rewrite !append_append. rewrite set_state_same in HQ. apply HQ. by apply silent_app.
Qed.

(** What updateProgress does to the manager. *)
Definition progress_update (loadId width status : string) (lm : LoadingManager) : LoadingManager :=
  if bool_decide (loadId ∈ activeLoads lm) then set_progress width status lm else lm.

Lemma wp_updateProgress loadId progress status w Q :
  (∀ evs, silent evs →
     Q (Normal tt)
       (append evs
          (set_loadingManager (progress_update loadId (percent env progress) status) w))) →
  wp (updateProgress loadId progress status) w Q.
Proof.
  intros HQ. unfold updateProgress. apply wp_bind, wp_get. cbv beta iota.
  assert (Hw : set_loadingManager (progress_update loadId (percent env progress) status) w
               = if bool_decide (loadId ∈ activeLoads (loadingManager w))
                 then set_loadingManager (set_progress (percent env progress) status) w
                 else w).
  { unfold progress_update, set_loadingManager. case_bool_decide; [done|]. by destruct w. }
  rewrite Hw in HQ. case_bool_decide as Hin.
  - apply wp_bind, wp_modify. cbv beta iota. by apply wp_emit.
  - apply wp_ret. rewrite <- (append_nil w). by apply HQ.
Qed.

Lemma wp_stopAllLoading w Q :
  (∀ evs, silent evs →
     Q (Normal tt)
       (append evs
          (set_state (λ st, {[ "loading" := VBool false ]} ∪ st)
             (set_loadingManager hide_overlay (set_loadingManager clear_loads w))))) →
  wp stopAllLoading w Q.
Proof.
  intros HQ. unfold stopAllLoading.
  apply wp_bind, wp_modify. simpl. apply wp_bind, wp_modify. simpl.
  apply wp_bind, wp_setState. intros evs1 H1. simpl.
  apply wp_bind, wp_log_silent; [done|]. intros evs2 H2. simpl.
  apply wp_emit. intros evs3 H3.
  rewrite !append_append. apply HQ. by repeat apply silent_app.
Qed.

(** The loading manager that LoadingManager.initialize leaves: the elements
    that the manager holds or that the page has, and those that it builds
    when there is no overlay. *)
Definition initialized_loadingManager (lm : LoadingManager) : LoadingManager :=
  let bar := getElementById (progressBar lm) (doc_loadingProgressBar (document env)) in
  let status := getElementById (statusElement lm) (doc_loadingStatus (document env)) in
  match getElementById (overlay lm) (doc_loadingOverlay (document env)) with
  | Some o =>
      {| activeLoads := activeLoads lm; overlay := Some o;
         progressBar := bar; statusElement := status |}
  | None =>
      {| activeLoads := activeLoads lm;
         overlay := Some {| display := ""; loadingMessage := Some "Chargement en cours..." |};
         progressBar := Some (default {| barDisplay := ""; barWidth := "" |} bar);
         statusElement := Some (default "" status) |}
  end.

Definition initialize_events (current : nat) : list Event :=
  log_events current LDebug debug_prefix "Gestionnaire de chargement initialisé" [].

Lemma getElementById_idemp {A} (held page : option A) :
  getElementById (getElementById held page) page = getElementById held page.
Proof. destruct held; [done|]. by destruct page. Qed.

Lemma LoadingManager_initialize_run w :
  LoadingManager_initialize w
  = (Normal tt,
     append (initialize_events (currentLevel w))
       (set_loadingManager initialized_loadingManager w)).
Proof.
  unfold LoadingManager_initialize, bind, modify, get.
  cbn [loadingManager set_loadingManager overlay].
  destruct (getElementById (overlay (loadingManager w)) (doc_loadingOverlay (document env)))
    as [o|] eqn:Ho.
  - unfold ret. cbv beta iota. unfold logger_debug. rewrite log_spec.
    unfold initialize_events. f_equal. f_equal. apply set_loadingManager_ext.
    unfold initialized_loadingManager. cbv zeta. by rewrite Ho.
  - unfold createLoadingElements, modify. cbv beta iota.
    unfold logger_debug. rewrite log_spec.
    unfold initialize_events. f_equal. f_equal.
    rewrite set_loadingManager_compose. apply set_loadingManager_ext.
    unfold initialized_loadingManager. cbv zeta. rewrite Ho.
    cbn [activeLoads progressBar statusElement]. by rewrite !getElementById_idemp.
Qed.

Lemma LoadingManager_initialize_spec w :
  completion LoadingManager_initialize w = Normal tt
  ∧ loadingManager (exec LoadingManager_initialize w)
    = initialized_loadingManager (loadingManager w).
Proof. unfold completion, exec. by rewrite LoadingManager_initialize_run. Qed.

(** The overlay that LoadingManager.initialize finds, the one that the
    manager holds or the one of the page, has its .loading-message if there
    is such an overlay. *)
Definition page_message_element (w : World) : Prop :=
  match getElementById (overlay (loadingManager w)) (doc_loadingOverlay (document env)) with
  | Some o => is_Some (loadingMessage o)
  | None => True
  end.

Lemma initialized_message_element evs f w :
  page_message_element w →
  message_element
    (append evs (set_notificationManager f (set_loadingManager initialized_loadingManager w))).
Proof.
  unfold page_message_element, message_element, initialized_loadingManager. world_simpl.
  cbv zeta.
  destruct (getElementById (overlay (loadingManager w)) (doc_loadingOverlay (document env)))
    as [o|]; cbn [overlay]; [done|]. intros _. by eexists.
Qed.

(** The overlay, when there is one, has the given [style.display]. *)
Definition overlay_display (d : string) (w : World) : Prop :=
  ∀ o, overlay (loadingManager w) = Some o → display o = d.

(** The loading flag of the global state. *)
Definition loading_flag (b : bool) (w : World) : Prop :=
  state w !! "loading" = Some (VBool b).

(** The invariant of the loading manager: with no active load the overlay is
    hidden and the flag is false; with one or more it is shown and the flag
    is true. *)
Definition loading_invariant (w : World) : Prop :=
  if decide (activeLoads (loadingManager w) = ∅)
  then overlay_display "none" w ∧ loading_flag false w
  else overlay_display "flex" w ∧ loading_flag true w.

(** The manager holds an overlay: LoadingManager.initialize has run. *)
Definition has_overlay (w : World) : Prop := is_Some (overlay (loadingManager w)).

Lemma lookup_merged (key : string) (v : value) (st : gmap string value) :
  ({[ key := v ]} ∪ st) !! key = Some v.
Proof. apply lookup_union_Some_l, lookup_singleton_eq. Qed.

Lemma show_overlay_activeLoads message showProgress lm :
  activeLoads (show_overlay message showProgress lm) = activeLoads lm.
Proof. unfold show_overlay. by destruct (overlay lm). Qed.

Lemma show_overlay_display message showProgress lm o :
  overlay (show_overlay message showProgress lm) = Some o → display o = "flex".
Proof.
  unfold show_overlay. destruct (overlay lm) eqn:E; simpl.
  - by intros [= <-].
  - by rewrite E.
Qed.

Lemma hide_overlay_display lm o :
  overlay (hide_overlay lm) = Some o → display o = "none".
Proof. unfold hide_overlay. simpl. destruct (overlay lm); [by intros [= <-] | done]. Qed.

Lemma loading_invariant_append evs w :
  loading_invariant (append evs w) ↔ loading_invariant w.
Proof. done. Qed.

Lemma started_invariant loadId message showProgress w :
  loading_invariant
    (set_state (λ st, {[ "loading" := VBool true ]} ∪ st)
       (set_loadingManager (show_overlay message showProgress)
          (set_loadingManager (add_load loadId) w))).
Proof.
  unfold loading_invariant, overlay_display, loading_flag. simpl.
  rewrite show_overlay_activeLoads. simpl.
  destruct (decide (_ = ∅)) as [Hempty|_]; [set_solver|].
  split; [apply show_overlay_display | apply lookup_merged].
Qed.

Lemma stopped_invariant loadId w :
  loading_invariant w → loading_invariant (stopped loadId w).
Proof.
  unfold stopped. case_bool_decide as Hsize.
  - intros _. apply size_empty_iff, leibniz_equiv in Hsize.
    unfold loading_invariant, overlay_display, loading_flag. simpl.
    rewrite decide_True by done.
    split; [apply hide_overlay_display | apply lookup_merged].
  - assert (Hrest : activeLoads (loadingManager w) ∖ {[loadId]} ≠ ∅).
    { intros Heq. apply Hsize. by rewrite Heq. }
    unfold loading_invariant, overlay_display, loading_flag. simpl.
    rewrite (decide_False (P := _ ∖ _ = ∅)) by done.
    destruct (decide (activeLoads (loadingManager w) = ∅)) as [Hempty|_]; [|done].
    exfalso. apply Hrest. rewrite Hempty. apply leibniz_equiv, difference_disjoint. set_solver.
Qed.

Lemma stopped_all_invariant w :
  loading_invariant
    (set_state (λ st, {[ "loading" := VBool false ]} ∪ st)
       (set_loadingManager hide_overlay (set_loadingManager clear_loads w))).
Proof.
  unfold loading_invariant, overlay_display, loading_flag. simpl.
  rewrite decide_True by done.
  split; [apply hide_overlay_display | apply lookup_merged].
Qed.

(** The script starts in a world that satisfies the invariant. *)
Lemma initial_world_invariant : loading_invariant initial_world.
Proof. unfold loading_invariant, overlay_display, loading_flag. by simpl. Qed.

(** *** What keeps the .loading-message of the overlay *)

Lemma message_element_append evs w : message_element (append evs w) ↔ message_element w.
Proof. done. Qed.

Lemma started_message_element loadId message showProgress w :
  message_element
    (set_state (λ st, {[ "loading" := VBool true ]} ∪ st)
       (set_loadingManager (show_overlay message showProgress)
          (set_loadingManager (add_load loadId) w))).
Proof.
  unfold message_element, show_overlay. world_simpl. cbn [overlay add_load].
  destruct (overlay (loadingManager w)) as [o|] eqn:Ho; cbn [overlay add_load]; [by eexists|].
  by rewrite Ho.
Qed.

Lemma stopped_message_element loadId w :
  message_element w → message_element (stopped loadId w).
Proof.
  unfold stopped, message_element. world_simpl.
  case_bool_decide; cbn [overlay hide_overlay remove_load]; [|done].
  by destruct (overlay (loadingManager w)).
Qed.

Lemma stopped_has_overlay loadId w : has_overlay w → has_overlay (stopped loadId w).
Proof.
  unfold stopped, has_overlay. world_simpl. intros [o Ho].
  case_bool_decide; cbn [overlay hide_overlay remove_load]; rewrite Ho; by eexists.
Qed.

(** The operations of the loading manager. *)
Inductive LoadingCall :=
| CallInitialize
| CallStart (loadId message : string) (showProgress : bool)
| CallUpdate (loadId : string) (progress : value) (status : string)
| CallStop (loadId : string)
| CallStopAll.

Definition loading_call (c : LoadingCall) : M unit :=
  match c with
  | CallInitialize => LoadingManager_initialize
  | CallStart loadId message showProgress => startLoading loadId message showProgress
  | CallUpdate loadId progress status => updateProgress loadId progress status
  | CallStop loadId => stopLoading loadId
  | CallStopAll => stopAllLoading
  end.

(** A call other than initialize, on an overlay that has its
    .loading-message, returns and keeps the invariant, the element and the
    overlay. *)
Lemma loading_call_invariant c w :
  c ≠ CallInitialize →
  message_element w →
  loading_invariant w →
  completion (loading_call c) w = Normal tt
  ∧ loading_invariant (exec (loading_call c) w)
  ∧ message_element (exec (loading_call c) w)
  ∧ (has_overlay w → has_overlay (exec (loading_call c) w)).
Proof.
  intros Hc Hready Hinv.
  destruct c as [|loadId message showProgress|loadId progress status|loadId|]; [done|..];
    cbn [loading_call]; wp_of_exec.
  - apply wp_startLoading_ready; [done|]. intros evs _.
    split; [done|]. split; [apply loading_invariant_append, started_invariant|].
    split; [apply message_element_append, started_message_element|].
    unfold has_overlay, show_overlay. world_simpl. cbn [overlay add_load].
    intros [o Ho]. rewrite Ho. by eexists.
  - apply wp_updateProgress. intros evs _. split; [done|].
    unfold loading_invariant, overlay_display, loading_flag, message_element, has_overlay,
      progress_update in *.
    world_simpl. by case_bool_decide.
  - apply wp_stopLoading. intros evs _. split; [done|].
    split; [by apply loading_invariant_append, stopped_invariant|].
    split; [by apply message_element_append, stopped_message_element|].
    apply stopped_has_overlay.
  - apply wp_stopAllLoading. intros evs _. split; [done|].
    split; [apply loading_invariant_append, stopped_all_invariant|].
    unfold message_element, has_overlay in *. world_simpl. cbn [overlay hide_overlay clear_loads].
    destruct (overlay (loadingManager w)) as [o|]; [|done].
    split; [done|]. intros _. by eexists.
Qed.

(** initialize on a manager that holds an overlay finds that overlay
    again. *)
Lemma initialize_invariant_again w :
  has_overlay w →
  message_element w →
  loading_invariant w →
  completion LoadingManager_initialize w = Normal tt
  ∧ loading_invariant (exec LoadingManager_initialize w)
  ∧ message_element (exec LoadingManager_initialize w)
  ∧ has_overlay (exec LoadingManager_initialize w).
Proof.
  intros [o Ho] Hready Hinv. unfold completion, exec.
  rewrite LoadingManager_initialize_run. cbn [fst snd]. split; [done|].
  unfold loading_invariant, overlay_display, loading_flag, message_element, has_overlay,
    initialized_loadingManager in *.
  world_simpl. rewrite Ho in *. cbn [getElementById overlay activeLoads].
  split; [done|]. split; [done|]. by eexists.
Qed.

Lemma loading_calls_invariant calls : ∀ w,
  has_overlay w ∨ CallInitialize ∉ calls →
  message_element w →
  loading_invariant w →
  completion (forEach calls loading_call) w = Normal tt
  ∧ loading_invariant (exec (forEach calls loading_call) w).
Proof.
  induction calls as [|c calls IH]; intros w Hcalls Hready Hinv; [done|].
  assert (Hstep : completion (loading_call c) w = Normal tt
                  ∧ loading_invariant (exec (loading_call c) w)
                  ∧ message_element (exec (loading_call c) w)
                  ∧ (has_overlay w → has_overlay (exec (loading_call c) w))).
  { assert (c = CallInitialize ∨ c ≠ CallInitialize) as [->|Hc]
      by (destruct c; [by left | by right..]).
    - destruct Hcalls as [Hoverlay|Hnot]; [|exfalso; apply Hnot; by left].
      destruct (initialize_invariant_again w Hoverlay Hready Hinv) as (?&?&?&?). done.
    - by apply loading_call_invariant. }
  destruct Hstep as (Hc & Hinv' & Hready' & Hoverlay').
  assert (Hcalls' : has_overlay (exec (loading_call c) w) ∨ CallInitialize ∉ calls).
  { destruct Hcalls as [Hoverlay|Hnot]; [left; by apply Hoverlay'|].
    right. intros Hin. apply Hnot. by right. }
  destruct (IH _ Hcalls' Hready' Hinv') as [Hc'' Hinv''].
  cbn [forEach]. unfold completion, exec, bind in *.
  destruct (loading_call c w) as [c0 w1]. cbn [fst snd] in *. by subst c0.
Qed.

(** A load started twice under one id and stopped once. *)
Lemma started_twice_stopped loadId message1 message2 showProgress1 showProgress2 w :
  message_element w →
  let m := startLoading loadId message1 showProgress1 ;;;
           startLoading loadId message2 showProgress2 ;;;
           stopLoading loadId in
  completion m w = Normal tt
  ∧ activeLoads (loadingManager (exec m w)) = activeLoads (loadingManager w) ∖ {[ loadId ]}
  ∧ (activeLoads (loadingManager w) ⊆ {[ loadId ]} →
     overlay_display "none" (exec m w) ∧ loading_flag false (exec m w)).
Proof.
  intros Hready m. subst m.
  wp_of_exec.
  apply wp_bind, wp_startLoading_ready; [done|]. intros evs1 _. cbv beta iota.
  apply wp_bind, wp_startLoading_ready;
    [apply message_element_append, started_message_element|].
  intros evs2 _. cbv beta iota.
  apply wp_stopLoading. intros evs3 _.
  unfold stopped, overlay_display, loading_flag. world_simpl.
  cbn [activeLoads remove_load add_load].
  repeat (rewrite show_overlay_activeLoads; cbn [activeLoads add_load]).
  assert (Hset : ({[loadId]} ∪ ({[loadId]} ∪ activeLoads (loadingManager w))) ∖ {[loadId]}
                 = activeLoads (loadingManager w) ∖ {[loadId]}).
  { apply set_eq. intros x. rewrite !elem_of_difference, !elem_of_union. tauto. }
  rewrite Hset. split; [done|]. split.
  - case_bool_decide; cbn [activeLoads hide_overlay remove_load];
      repeat (rewrite show_overlay_activeLoads; cbn [activeLoads add_load]); exact Hset.
  - intros Hsub.
    assert (Hempty : activeLoads (loadingManager w) ∖ {[loadId]} = ∅).
    { apply set_eq. intros x. rewrite elem_of_difference, elem_of_empty.
      split; [|done]. intros [Hx Hne]. apply Hne, Hsub, Hx. }
    rewrite Hempty, bool_decide_true by done.
    split; [apply hide_overlay_display | apply lookup_merged].
Qed.

(** C8, as the code has it.  The overlay of the manager is taken to have the
    .loading-message that startLoading writes to.  (1) The invariant says
    that the overlay is hidden and the loading flag false exactly when no
    load id is active.  (2) startLoading returns and establishes it.  (3)
    Every sequence of calls to startLoading, updateProgress, stopLoading and
    stopAllLoading returns and preserves it, and so does a sequence with calls
    to initialize once the manager holds its overlay.  (4) stopLoading with
    another id still active only forgets its id: overlay and state are
    untouched; (5) stopLoading of the last active id hides the overlay and
    clears the flag.  (6) With two nested loads under different ids, stopping
    the first leaves the overlay shown and the flag set.  (7) The ids are a
    set and the loads are not counted: two loads started under one id are
    ended by one stopLoading, which hides the overlay and clears the flag
    when no other id is active. *)
Theorem loading_invariant_maintained (w : World) :
  message_element w →
  (loading_invariant w →
     (overlay_display "none" w ∧ loading_flag false w ↔ activeLoads (loadingManager w) = ∅))
  ∧ (∀ loadId message showProgress,
       completion (startLoading loadId message showProgress) w = Normal tt
       ∧ loading_invariant (exec (startLoading loadId message showProgress) w))
  ∧ (∀ calls,
       has_overlay w ∨ CallInitialize ∉ calls →
       loading_invariant w →
       completion (forEach calls loading_call) w = Normal tt
       ∧ loading_invariant (exec (forEach calls loading_call) w))
  ∧ (∀ loadId,
       activeLoads (loadingManager w) ∖ {[ loadId ]} ≠ ∅ →
       let w' := exec (stopLoading loadId) w in
       activeLoads (loadingManager w') = activeLoads (loadingManager w) ∖ {[ loadId ]}
       ∧ overlay (loadingManager w') = overlay (loadingManager w)
       ∧ state w' = state w)
  ∧ (∀ loadId,
       activeLoads (loadingManager w) ∖ {[ loadId ]} = ∅ →
       let w' := exec (stopLoading loadId) w in
       activeLoads (loadingManager w') = ∅
       ∧ overlay_display "none" w' ∧ loading_flag false w')
  ∧ (∀ first second message1 message2 showProgress1 showProgress2,
       first ≠ second →
       let w' := exec (startLoading first message1 showProgress1 ;;;
                       startLoading second message2 showProgress2 ;;;
                       stopLoading first) w in
       second ∈ activeLoads (loadingManager w')
       ∧ overlay_display "flex" w' ∧ loading_flag true w')
  ∧ (∀ loadId message1 message2 showProgress1 showProgress2,
       let w' := exec (startLoading loadId message1 showProgress1 ;;;
                       startLoading loadId message2 showProgress2 ;;;
                       stopLoading loadId) w in
       (loadId ∉ activeLoads (loadingManager w'))
       ∧ (activeLoads (loadingManager w) ⊆ {[ loadId ]} →
          overlay_display "none" w' ∧ loading_flag false w')).
Proof.
  intros Hready.
  split; [|split; [|split; [|split; [|split; [|split]]]]].
  - unfold loading_invariant, loading_flag.
    destruct (decide (activeLoads (loadingManager w) = ∅)) as [Hempty|Hsome].
    + intros [Hd Hf]. by split.
    + intros [Hd Hf]. split; [|done]. intros [_ Hf']. rewrite Hf in Hf'. done.
  - intros loadId message showProgress. wp_of_exec.
    apply wp_startLoading_ready; [done|].
    intros evs _. split; [done|]. apply loading_invariant_append, started_invariant.
  - intros calls Hcalls Hinv. by apply loading_calls_invariant.
  - intros loadId Hrest w'. subst w'.
    apply (wp_stopLoading loadId w (λ _ w',
      activeLoads (loadingManager w') = activeLoads (loadingManager w) ∖ {[ loadId ]}
      ∧ overlay (loadingManager w') = overlay (loadingManager w) ∧ state w' = state w)).
    intros evs _. unfold stopped. case_bool_decide as Hsize; [|done].
    apply size_empty_iff, leibniz_equiv in Hsize. done.
  - intros loadId Hrest w'. subst w'.
    apply (wp_stopLoading loadId w (λ _ w',
      activeLoads (loadingManager w') = ∅ ∧ overlay_display "none" w' ∧ loading_flag false w')).
    intros evs _. unfold stopped, overlay_display, loading_flag.
    rewrite Hrest. rewrite bool_decide_true by done. simpl.
    split; [done|]. split; [apply hide_overlay_display | apply lookup_merged].
  - intros first second message1 message2 showProgress1 showProgress2 Hne w'. subst w'.
    wp_of_exec.
    apply wp_bind, wp_startLoading_ready; [done|]. intros evs1 _. simpl.
    apply wp_bind, wp_startLoading_ready;
      [apply message_element_append, started_message_element|].
    intros evs2 _. simpl.
    apply wp_stopLoading. intros evs3 _.
    unfold stopped, overlay_display, loading_flag. simpl.
    repeat (rewrite show_overlay_activeLoads; simpl).
    assert (Hin : second ∈ ({[second]} ∪ ({[first]} ∪ activeLoads (loadingManager w))) ∖ {[first]})
      by set_solver.
    rewrite bool_decide_false.
    + simpl. repeat (rewrite show_overlay_activeLoads; simpl).
      split; [done|]. split; [apply show_overlay_display | apply lookup_merged].
    + intros Hsize. apply size_empty_iff, leibniz_equiv in Hsize.
      rewrite Hsize in Hin. set_solver.
  - intros loadId message1 message2 showProgress1 showProgress2 w'. subst w'.
    destruct (started_twice_stopped loadId message1 message2 showProgress1 showProgress2 w Hready)
      as (_ & Hloads & Hhidden).
    split; [|exact Hhidden].
    rewrite Hloads, elem_of_difference, elem_of_singleton. tauto.
Qed.

(** ** The API manager *)

(** What an attempt of request makes of a settled fetch: the parsed body of a
    response that is ok, and an exception otherwise. *)
Definition settle (o : FetchOutcome) : JsError + value :=
  match o with
  | FetchRejected e => inl e
  | FetchResponse status statusText json =>
      if response_ok status then json
      else inl (Error ("HTTP " +:+ pretty status +:+ ": " +:+ statusText))
  end.

Lemma wp_request_try endpoint url requestId finalOptions w Q :
  (∀ evs, silent evs →
     Q (match settle (fetch_outcome env (fetches w) url (fetch_options finalOptions)) with
        | inl e => Throw e
        | inr data => Normal data
        end)
       (append (EFetch url (fetch_options finalOptions) :: evs) (set_fetches S w))) →
  wp (request_try endpoint url requestId finalOptions) w Q.
Proof.
  intros HQ. unfold request_try, fetch.
  apply wp_bind, wp_bind, wp_get. simpl.
  apply wp_bind, wp_effect. simpl. apply wp_bind, wp_modify. simpl.
  apply wp_ret. rewrite set_fetches_append.
  destruct (fetch_outcome env (fetches w) url (fetch_options finalOptions))
    as [e|status statusText json]; simpl in *.
  - apply wp_throw. apply (HQ []). done.
  - destruct (response_ok status); simpl.
    + apply wp_bind, wp_lift. destruct json as [e|data].
      * apply (HQ []). done.
      * apply wp_bind, wp_log_silent; [done|]. intros evs1 H1. simpl.
        apply wp_bind, wp_emit. intros evs2 H2. simpl. apply wp_ret.
        rewrite !append_append. apply (HQ (evs1 ++ evs2)). by apply silent_app.
    + apply wp_throw. apply (HQ []). done.
Qed.

(** The warning that the catch block of attempt [attempt] prints. *)
Definition retry_warning (current retryAttempts attempt : nat) (url : string) (error : JsError) :
    list Event :=
  log_events current LWarn warn_prefix
    ("Tentative " +:+ pretty attempt +:+ "/" +:+ pretty retryAttempts
     +:+ " échouée pour " +:+ url +:+ ":") [VStr (message error)].

(** The delay before the attempt that follows attempt [attempt]. *)
Definition backoff (attempt : nat) : Z := 2 ^ (Z.of_nat attempt - 1) * 1000.

Lemma wp_request_catch retryAttempts attempt endpoint url requestId error w Q :
  (if Nat.eqb attempt retryAttempts
   then ∀ evs, silent evs →
          Q (Throw error)
            (append (retry_warning (currentLevel w) retryAttempts attempt url error ++ evs) w)
   else Q (Normal None)
          (append (retry_warning (currentLevel w) retryAttempts attempt url error
                   ++ [EDelay (backoff attempt)]) w)) →
  wp (request_catch retryAttempts attempt endpoint url requestId error) w Q.
Proof.
  intros HQ. unfold request_catch.
  apply wp_bind, wp_log. simpl. fold (retry_warning (currentLevel w) retryAttempts attempt url error).
  destruct (Nat.eqb attempt retryAttempts).
  - apply wp_bind, wp_log_silent; [done|]. intros evs1 H1. simpl.
    apply wp_bind, wp_emit. intros evs2 H2. simpl. apply wp_throw.
    rewrite !append_append. apply HQ. by apply silent_app.
  - apply wp_bind, wp_effect. simpl. apply wp_ret.
    by rewrite append_append.
Qed.

(** The loop of request, read off the outcomes of the fetches: [f] is the
    number of fetches issued before the round. *)
Section Loop.

Variables (retryAttempts : nat) (url : string) (options : gmap string value).

Definition attempt_outcome (f : nat) : JsError + value :=
  settle (fetch_outcome env f url options).

(** How the loop completes. *)
Fixpoint loop_completion (remaining f : nat) : Completion value :=
  match remaining with
  | O => Normal VUndefined
  | S remaining' =>
      match attempt_outcome f with
      | inr data => Normal data
      | inl e =>
          match remaining' with
          | O => Throw e
          | S _ => loop_completion remaining' (S f)
          end
      end
  end.

(** The number of fetches issued when it completes. *)
Fixpoint loop_end (remaining f : nat) : nat :=
  match remaining with
  | O => f
  | S remaining' =>
      match attempt_outcome f with
      | inr _ => S f
      | inl _ => loop_end remaining' (S f)
      end
  end.

(** Its fetches and delays. *)
Fixpoint loop_schedule (remaining attempt f : nat) : list Event :=
  match remaining with
  | O => []
  | S remaining' =>
      EFetch url options ::
      match attempt_outcome f with
      | inr _ => []
      | inl _ =>
          match remaining' with
          | O => []
          | S _ => EDelay (backoff attempt) :: loop_schedule remaining' (S attempt) (S f)
          end
      end
  end.

(** Its warnings. *)
Fixpoint loop_warnings (current remaining attempt f : nat) : list Event :=
  match remaining with
  | O => []
  | S remaining' =>
      match attempt_outcome f with
      | inr _ => []
      | inl e =>
          retry_warning current retryAttempts attempt url e
          ++ loop_warnings current remaining' (S attempt) (S f)
      end
  end.

End Loop.

(** What a request leaves in the trace: a schedule of fetches and delays, its
    warnings, and nothing else that is not silent. *)
Definition request_events (evs schedule warns : list Event) : Prop :=
  network evs = schedule ∧ warnings evs = warns ∧ shown evs = [] ∧ scripts evs = [].

(** What showing a notification leaves in the trace. *)
Definition toast_events (evs : list Event) (toast : Toast) : Prop :=
  network evs = [] ∧ warnings evs = [] ∧ shown evs = [toast] ∧ scripts evs = [].

Lemma request_events_nil : request_events [] [] [].
Proof. done. Qed.

Lemma request_events_warning current retryAttempts attempt url error :
  request_events (retry_warning current retryAttempts attempt url error) []
    (retry_warning current retryAttempts attempt url error).
Proof. unfold retry_warning, log_events. by destruct (_ <=? _)%nat. Qed.

Lemma set_fetches_same w : set_fetches (λ _, fetches w) w = w.
Proof. by destruct w. Qed.

(** Resolving what the readers of a trace give on a concatenation of silent
    stretches, request stretches and explicit events. *)
Ltac trace_facts :=
  repeat match goal with
  | H : silent ?evs |- _ =>
      pose proof (silent_network _ H); pose proof (silent_warnings _ H);
      pose proof (silent_shown _ H); pose proof (silent_scripts _ H);
      pose proof (silent_fetched _ H); clear H
  | H : request_events _ _ _ |- _ => destruct H as (?&?&?&?)
  | H : toast_events _ _ |- _ => destruct H as (?&?&?&?)
  end.

Ltac trace_cbn :=
  simpl network; simpl warnings; simpl shown; simpl scripts; simpl fetched; cbn [app].

Ltac trace_rewrite :=
  repeat (rewrite ?network_app, ?warnings_app, ?shown_app, ?scripts_app, ?fetched_app; trace_cbn);
  repeat match goal with
  | H : network _ = _ |- _ => rewrite H
  | H : warnings _ = _ |- _ => rewrite H
  | H : shown _ = _ |- _ => rewrite H
  | H : scripts _ = _ |- _ => rewrite H
  | H : fetched _ = _ |- _ => rewrite H
  end;
  trace_cbn; rewrite ?app_nil_r.

Lemma wp_request_loop retryAttempts endpoint url requestId finalOptions remaining :
  ∀ attempt w Q,
  (attempt + remaining = retryAttempts + 1)%nat →
  (∀ evs,
     request_events evs
       (loop_schedule url (fetch_options finalOptions) remaining attempt (fetches w))
       (loop_warnings retryAttempts url (fetch_options finalOptions) (currentLevel w)
          remaining attempt (fetches w)) →
     Q (loop_completion url (fetch_options finalOptions) remaining (fetches w))
       (append evs
          (set_fetches (λ _, loop_end url (fetch_options finalOptions) remaining (fetches w)) w))) →
  wp (request_loop remaining retryAttempts attempt endpoint url requestId finalOptions) w Q.
Proof.
  induction remaining as [|remaining IH]; intros attempt w Q Hround HQ; simpl.
  - apply wp_ret. specialize (HQ [] request_events_nil). simpl in HQ.
    by rewrite append_nil, set_fetches_same in HQ.
  - simpl in HQ. unfold attempt_outcome in HQ.
    apply wp_bind, wp_try_catch, wp_bind, wp_request_try. intros evs1 H1.
    destruct (settle (fetch_outcome env (fetches w) url (fetch_options finalOptions)))
      as [e|data].
    + apply wp_request_catch.
      pose proof (request_events_warning (currentLevel w) retryAttempts attempt url e) as Hwarn.
      destruct (Nat.eqb attempt retryAttempts) eqn:Hlast.
      * apply Nat.eqb_eq in Hlast. assert (remaining = 0%nat) as -> by lia.
        intros evs2 H2. simpl. rewrite append_append.
        apply HQ. trace_facts. unfold request_events. by trace_rewrite.
      * apply Nat.eqb_neq in Hlast. destruct remaining as [|remaining']; [lia|].
        cbv beta iota. rewrite append_append.
        apply IH; [lia|]. world_simpl. intros evs3 H3.
        rewrite set_fetches_append, append_append.
        apply HQ. trace_facts. unfold request_events. by trace_rewrite.
    + apply wp_ret. simpl. apply wp_ret.
      apply HQ. trace_facts. unfold request_events. by trace_rewrite.
Qed.

Lemma wp_fresh_id w Q :
  Q (Normal (random_id env (ids w))) (set_ids S w) → wp fresh_id w Q.
Proof. done. Qed.

(** The url that request fetches, and the options it hands to fetch. *)
Definition request_url (endpoint : string) : string := APP_CONFIG.api.baseUrl +:+ endpoint.

Definition request_options (options : gmap string value) : gmap string value :=
  fetch_options (options ∪ defaultOptions).

Lemma wp_request endpoint options w Q :
  (∀ evs,
     request_events evs
       (loop_schedule (request_url endpoint) (request_options options)
          APP_CONFIG.api.retryAttempts 1 (fetches w))
       (loop_warnings APP_CONFIG.api.retryAttempts (request_url endpoint) (request_options options)
          (currentLevel w) APP_CONFIG.api.retryAttempts 1 (fetches w)) →
     Q (loop_completion (request_url endpoint) (request_options options)
          APP_CONFIG.api.retryAttempts (fetches w))
       (append evs
          (set_fetches
             (λ _, loop_end (request_url endpoint) (request_options options)
                     APP_CONFIG.api.retryAttempts (fetches w))
             (set_ids S w)))) →
  wp (request endpoint options) w Q.
Proof.
  intros HQ. unfold request.
  apply wp_bind, wp_fresh_id. cbv beta iota.
  apply wp_bind, wp_log_silent; [done|]. intros evs1 H1. cbv beta iota.
  apply wp_request_loop; [done|]. world_simpl. intros evs2 H2.
  rewrite set_fetches_append, append_append. apply HQ.
  fold (request_url endpoint) (request_options options) in H2.
  trace_facts. unfold request_events. by trace_rewrite.
Qed.

Lemma backoff_first : backoff 1 = 1000.
Proof. reflexivity. Qed.

Lemma backoff_doubles attempt : (1 ≤ attempt)%nat → backoff (S attempt) = 2 * backoff attempt.
Proof.
  intros H. unfold backoff.
  replace (Z.of_nat (S attempt) - 1) with (Z.succ (Z.of_nat attempt - 1)) by lia.
  rewrite Z.pow_succ_r by lia. lia.
Qed.

(** C2. ApiManager.request makes at most three attempts.  An attempt fails
    when fetch rejects, when the response is not ok, or when its body does not
    parse.  After a failed first attempt it waits 2^0 * 1000 ms and after a
    failed second one 2^1 * 1000 ms before trying again; the data of the first
    attempt that succeeds is returned, and no attempt follows it.  When the
    third attempt fails as well, nothing is waited for and its error is
    thrown to the caller. *)
Theorem request_retries_with_backoff (endpoint : string) (options : gmap string value) (w : World) :
  let url := request_url endpoint in
  let sent := request_options options in
  let outcome (k : nat) := settle (fetch_outcome env (k + fetches w) url sent) in
  let c := completion (request endpoint options) w in
  let evs := added w (exec (request endpoint options) w) in
  (∀ e1 e2 e3,
     outcome 0%nat = inl e1 → outcome 1%nat = inl e2 → outcome 2%nat = inl e3 →
     c = Throw e3
     ∧ network evs = [EFetch url sent; EDelay (2 ^ (1 - 1) * 1000);
                      EFetch url sent; EDelay (2 ^ (2 - 1) * 1000);
                      EFetch url sent])
  ∧ (∀ data,
       outcome 0%nat = inr data →
       c = Normal data ∧ network evs = [EFetch url sent])
  ∧ (∀ e1 data,
       outcome 0%nat = inl e1 → outcome 1%nat = inr data →
       c = Normal data
       ∧ network evs = [EFetch url sent; EDelay (2 ^ (1 - 1) * 1000); EFetch url sent])
  ∧ (∀ e1 e2 data,
       outcome 0%nat = inl e1 → outcome 1%nat = inl e2 → outcome 2%nat = inr data →
       c = Normal data
       ∧ network evs = [EFetch url sent; EDelay (2 ^ (1 - 1) * 1000);
                        EFetch url sent; EDelay (2 ^ (2 - 1) * 1000);
                        EFetch url sent])
  ∧ (length (fetched evs) ≤ APP_CONFIG.api.retryAttempts)%nat.
Proof.
  intros url sent outcome c evs. subst c evs.
  wp_of_exec. apply wp_request. fold url sent. intros evs (Hn & Hw & Hs & Hc).
  rewrite (added_trace w _ evs) by done. rewrite Hn.
  subst outcome. simpl. unfold attempt_outcome.
  split; [|split; [|split; [|split]]].
  - intros e1 e2 e3 -> -> ->. done.
  - intros data ->. done.
  - intros e1 data -> ->. done.
  - intros e1 e2 data -> -> ->. done.
  - assert (Hf : fetched evs = fetched (network evs)).
    { clear. induction evs as [|[] evs IH]; simpl; congruence. }
    rewrite Hf, Hn. simpl. unfold attempt_outcome.
    unfold APP_CONFIG.api.retryAttempts.
    repeat (destruct (settle _); simpl; try lia).
Qed.

(** ** The notification manager *)

(** The notification that show builds when [n] identifiers have been drawn. *)
Definition new_toast (n : nat) (message type : string) : Toast :=
  {| toastId := "notif_" +:+ random_id env n; toastType := type;
     toastIcon := getIcon type; toastMessage := message |}.

(** show, once the container exists, appends the notification and returns its
    id. *)
Lemma wp_show message type duration children w Q :
  container (notificationManager w) = Some children →
  (∀ evs,
     toast_events evs (new_toast (ids w) message type) →
     Q (Normal (toastId (new_toast (ids w) message type)))
       (append evs
          (set_notificationManager (λ nm,
             {| container := Some (children ++ [new_toast (ids w) message type]);
                notifications :=
                  <[toastId (new_toast (ids w) message type) := new_toast (ids w) message type]>
                    (notifications nm) |})
             (set_ids S w)))) →
  wp (show message type duration) w Q.
Proof.
  intros Hcontainer HQ. unfold show.
  apply wp_bind, wp_fresh_id. cbv beta iota.
  apply wp_bind, wp_get. world_simpl. rewrite Hcontainer.
  fold (new_toast (ids w) message type).
  apply wp_bind, wp_modify. cbv beta iota.
  apply wp_bind, wp_effect. cbv beta iota.
  apply wp_bind, wp_effect. cbv beta iota.
  apply wp_bind.
  assert (Htimer : ∀ Q' w',
    (∀ evs, Forall (λ e, ∃ a ms, e = ETimeout a ms) evs → Q' (Normal tt) (append evs w')) →
    wp (if 0 <? duration
        then effect (ETimeout (CloseToast (toastId (new_toast (ids w) message type))) duration)
        else ret tt) w' Q').
  { intros Q' w' HQ'. destruct (0 <? duration).
    - apply wp_effect, HQ'. constructor; [by eexists _, _ | constructor].
    - apply wp_ret. rewrite <- (append_nil w'). apply HQ'. constructor. }
  apply Htimer. intros evs0 H0. cbv beta iota.
  apply wp_bind, wp_log_silent; [done|]. intros evs1 H1. cbv beta iota.
  apply wp_bind, wp_emit. intros evs2 H2. cbv beta iota.
  apply wp_ret. rewrite !append_append. apply HQ.
  assert (Hquiet : network evs0 = [] ∧ warnings evs0 = [] ∧ shown evs0 = [] ∧ scripts evs0 = []).
  { clear -H0. induction H0 as [|e evs (a & ms & ->) _ IH]; [done|]. simpl. exact IH. }
  destruct Hquiet as (?&?&?&?).
  trace_facts. unfold toast_events. by trace_rewrite.
Qed.

(** ** Starting a generation *)

#[local] Arguments fetch_options : simpl never.
#[local] Arguments post_options : simpl never.
#[local] Arguments defaultOptions : simpl never.
#[local] Arguments request_options : simpl never.
#[local] Arguments request_url : simpl never.

Lemma stopped_trace loadId w : trace (stopped loadId w) = trace w.
Proof. done. Qed.

Lemma stopped_state loadId w key :
  key ≠ "loading" → state (stopped loadId w) !! key = state w !! key.
Proof.
  intros Hkey. unfold stopped. simpl. case_bool_decide; [|done].
  apply lookup_union_r. by apply lookup_singleton_ne.
Qed.

(** The url and the options of the POST of startGeneration. *)
Definition generation_url : string := request_url "/generate/".

Definition generation_options (formData : value) : gmap string value :=
  request_options (post_options formData).

(** The type and the message of the notification that startGeneration ends
    with, from the completion of the POST. *)
Definition generation_report (posted : Completion value) : string * string :=
  match posted with
  | Normal result =>
      match get_property result "success" with
      | inr success =>
          if to_boolean success
          then ("success", "Génération terminée avec succès")
          else ("error",
                "Erreur: " +:+
                to_string (js_or (match get_property result "error" with
                                  | inr error => error
                                  | inl _ => VUndefined
                                  end) (VStr "Erreur de génération")))
      | inl e => ("error", "Erreur: " +:+ message e)
      end
  | Throw e => ("error", "Erreur: " +:+ message e)
  end.

(** The response that startGeneration stores as the current generation. *)
Definition generation_stored (posted : Completion value) : option value :=
  match posted with
  | Normal result =>
      match get_property result "success" with
      | inr success => if to_boolean success then Some result else None
      | inl _ => None
      end
  | Throw _ => None
  end.

(** The catch block of startGeneration. *)
Lemma wp_generation_failed error children w Q :
  container (notificationManager w) = Some children →
  (∀ evs,
     toast_events evs (new_toast (ids w) ("Erreur: " +:+ message error) "error") →
     Q (Normal tt)
       (append evs
          (set_notificationManager (λ nm,
             {| container :=
                  Some (children ++ [new_toast (ids w) ("Erreur: " +:+ message error) "error"]);
                notifications :=
                  <[toastId (new_toast (ids w) ("Erreur: " +:+ message error) "error") :=
                      new_toast (ids w) ("Erreur: " +:+ message error) "error"]>
                    (notifications nm) |})
             (set_ids S w)))) →
  wp (logger_error "Erreur lors de la génération:" [error_value error] ;;;
      NotificationManager_error ("Erreur: " +:+ message error) ;;;
      ret tt) w Q.
Proof.
  intros Hcontainer HQ.
  apply wp_bind, wp_log_silent; [done|]. intros evs1 H1. cbv beta iota.
  apply wp_bind. unfold NotificationManager_error.
  eapply wp_show; [exact Hcontainer|]. world_simpl. intros evs2 H2. cbv beta iota.
  apply wp_ret. rewrite set_ids_append, set_notificationManager_append, append_append.
  apply HQ. trace_facts. unfold toast_events. by trace_rewrite.
Qed.

Lemma get_property_defined v key1 key2 x :
  get_property v key1 = inr x → ∃ y, get_property v key2 = inr y.
Proof. destruct v; simpl; intros H; try done; by eexists. Qed.

(** What startGeneration does with a form that passes validation. *)
Definition valid_form (formData : value) : Prop :=
  getFormData env = Some (inr formData)
  ∧ ∃ validate validation valid,
      validateForm env = Some validate
      ∧ validate formData = inr validation
      ∧ get_property validation "valid" = inr valid
      ∧ to_boolean valid = true.

(** What it does with one that fails validation. *)
Definition invalid_form (formData : value) : Prop :=
  getFormData env = Some (inr formData)
  ∧ ∃ validate validation valid,
      validateForm env = Some validate
      ∧ validate formData = inr validation
      ∧ get_property validation "valid" = inr valid
      ∧ to_boolean valid = false.

(** The notification manager has been initialized. *)
Definition notifications_ready (w : World) : Prop :=
  is_Some (container (notificationManager w)).

(** What startGeneration leaves, from a world [w], when the form is valid:
    the trace of the POST, one notification, and the response stored if it
    reports success. *)
Definition generated (formData : value) (w w' : World) : Prop :=
  let posted :=
    loop_completion generation_url (generation_options formData)
      APP_CONFIG.api.retryAttempts (fetches w) in
  ∃ evs toast,
    trace w' = trace w ++ evs
    ∧ network evs
      = loop_schedule generation_url (generation_options formData)
          APP_CONFIG.api.retryAttempts 1 (fetches w)
    ∧ warnings evs
      = loop_warnings APP_CONFIG.api.retryAttempts generation_url
          (generation_options formData) (currentLevel w)
          APP_CONFIG.api.retryAttempts 1 (fetches w)
    ∧ scripts evs = []
    ∧ shown evs = [toast]
    ∧ (toastType toast, toastMessage toast) = generation_report posted
    ∧ state w' !! "currentGeneration"
      = match generation_stored posted with
        | Some result => Some result
        | None => state w !! "currentGeneration"
        end.

Lemma generated_intro formData w w' evs toast :
  trace w' = trace w ++ evs →
  network evs
  = loop_schedule generation_url (generation_options formData)
      APP_CONFIG.api.retryAttempts 1 (fetches w) →
  warnings evs
  = loop_warnings APP_CONFIG.api.retryAttempts generation_url
      (generation_options formData) (currentLevel w)
      APP_CONFIG.api.retryAttempts 1 (fetches w) →
  scripts evs = [] →
  shown evs = [toast] →
  (toastType toast, toastMessage toast)
  = generation_report
      (loop_completion generation_url (generation_options formData)
         APP_CONFIG.api.retryAttempts (fetches w)) →
  state w' !! "currentGeneration"
  = match generation_stored
            (loop_completion generation_url (generation_options formData)
               APP_CONFIG.api.retryAttempts (fetches w)) with
    | Some result => Some result
    | None => state w !! "currentGeneration"
    end →
  generated formData w w'.
Proof. intros. unfold generated. by eexists _, _. Qed.

Lemma wp_startGeneration_valid formData w Q :
  valid_form formData →
  notifications_ready w →
  message_element w →
  (∀ w', generated formData w w' → Q (Normal tt) w') →
  wp startGeneration w Q.
Proof.
  intros (Hget & validate & validation & valid & Hvalidate & Hvalidation & Hvalid & Htrue)
    [children Hcontainer] Hmessage HQ.
  unfold startGeneration.
  apply wp_bind, wp_log_silent; [done|]. intros evs0 H0. cbv beta iota.
  apply wp_try_finally, wp_try_catch. unfold startGeneration_try.
  rewrite Hget, Hvalidate. unfold call_method.
  apply wp_bind, wp_ret. cbv beta iota. apply wp_bind, wp_ret. cbv beta iota.
  apply wp_bind, wp_ret. cbv beta iota. rewrite Hvalidation.
  apply wp_bind, wp_ret. cbv beta iota. rewrite Hvalid.
  apply wp_bind, wp_ret. cbv beta iota. rewrite Htrue. cbn [negb].
  apply wp_bind, wp_startLoading_ready; [done|]. intros evs1 H1. cbv beta iota.
  unfold post. apply wp_bind, wp_request. world_simpl.
  fold generation_url (generation_options formData). intros evs2 H2.
  set (posted := loop_completion generation_url (generation_options formData)
                   APP_CONFIG.api.retryAttempts (fetches w)) in *.
  assert (Hfailed : ∀ error,
    generation_report posted = ("error", "Erreur: " +:+ message error) →
    generation_stored posted = None →
    wp (logger_error "Erreur lors de la génération:" [error_value error] ;;;
        NotificationManager_error ("Erreur: " +:+ message error) ;;;
        ret tt)
      (append evs2
         (set_fetches
            (λ _, loop_end generation_url (generation_options formData)
                    APP_CONFIG.api.retryAttempts (fetches w))
            (set_ids S
               (append evs1
                  (set_state (λ st, {["loading" := VBool true]} ∪ st)
                     (set_loadingManager (show_overlay "Génération en cours..." true)
                        (set_loadingManager (add_load "main_generation")
                           (append evs0 w))))))))
      (λ c w',
        wp (stopLoading "main_generation") w' (λ c' w'',
          match c' with
          | Normal _ => Q c w''
          | Throw e => Q (Throw e) w''
          end))).
  { intros error Hreport Hstored.
    eapply wp_generation_failed; [world_simpl; exact Hcontainer|]. world_simpl.
    intros evs3 H3. apply wp_stopLoading. intros evs4 H4.
    apply HQ.
    eapply (generated_intro formData w _ (evs0 ++ evs1 ++ evs2 ++ evs3 ++ evs4)).
    - rewrite trace_append, stopped_trace. world_simpl. by rewrite <- !app_assoc.
    - trace_facts. by trace_rewrite.
    - trace_facts. by trace_rewrite.
    - trace_facts. by trace_rewrite.
    - trace_facts. by trace_rewrite.
    - fold posted. by rewrite Hreport.
    - fold posted. rewrite Hstored, state_append, stopped_state by done.
      world_simpl. apply lookup_union_r. by apply lookup_singleton_ne. }
  destruct posted as [result|error] eqn:Hposted.
  - apply wp_bind, wp_lift.
    destruct (get_property result "success") as [e|success] eqn:Hsuccess.
    + apply Hfailed; unfold generation_report, generation_stored; by rewrite Hsuccess.
    + destruct (to_boolean success) eqn:Htruthy.
      * apply wp_bind. unfold NotificationManager_success.
        eapply wp_show; [world_simpl; exact Hcontainer|]. world_simpl.
        intros evs3 H3. cbv beta iota.
        apply wp_bind, wp_setState. intros evs4 H4. cbv beta iota.
        apply wp_emit. intros evs5 H5.
        apply wp_stopLoading. intros evs6 H6.
        apply HQ.
        eapply (generated_intro formData w _
                  (evs0 ++ evs1 ++ evs2 ++ evs3 ++ evs4 ++ evs5 ++ evs6)).
        -- rewrite trace_append, stopped_trace. world_simpl. by rewrite <- !app_assoc.
        -- trace_facts. by trace_rewrite.
        -- trace_facts. by trace_rewrite.
        -- trace_facts. by trace_rewrite.
        -- trace_facts. by trace_rewrite.
        -- fold posted. rewrite Hposted. unfold generation_report.
           by rewrite Hsuccess, Htruthy.
        -- fold posted. rewrite Hposted. unfold generation_stored.
           rewrite Hsuccess, Htruthy, state_append, stopped_state by done.
           world_simpl. apply lookup_merged.
      * destruct (get_property_defined result "success" "error" success Hsuccess)
          as [error Herror].
        rewrite Herror. apply wp_bind, wp_ret. cbv beta iota. apply wp_throw.
        apply (Hfailed (Error (to_string (js_or error (VStr "Erreur de génération")))));
          unfold generation_report, generation_stored; by rewrite Hsuccess, Htruthy, ?Herror.
  - by apply Hfailed.
Qed.

Lemma fetched_network evs : fetched (network evs) = fetched evs.
Proof. induction evs as [|[] evs IH]; simpl; congruence. Qed.

(** Every fetch of the loop is the same request. *)
Lemma fetched_loop_schedule url options remaining : ∀ attempt f,
  Forall (λ r, r = (url, options)) (fetched (loop_schedule url options remaining attempt f)).
Proof.
  induction remaining as [|remaining IH]; intros attempt f; simpl; [constructor|].
  constructor; [done|].
  destruct (attempt_outcome url options f); [|constructor].
  destruct remaining; [constructor|]. simpl. apply (IH (S attempt) (S f)).
Qed.

Lemma generation_options_method formData :
  generation_options formData !! "method" = Some (VStr "POST").
Proof.
  unfold generation_options, request_options, fetch_options, post_options. cbv zeta.
  rewrite lookup_insert_ne by done. apply lookup_union_Some_l.
  apply lookup_insert_eq.
Qed.

Lemma generation_options_body formData :
  generation_options formData !! "body"
  = Some (JSON_stringify env (default_parameter (VObj ∅) formData)).
Proof.
  unfold generation_options, request_options, fetch_options, post_options. cbv zeta.
  rewrite lookup_insert_ne by done. apply lookup_union_Some_l.
  rewrite lookup_insert_ne by done. apply lookup_singleton_eq.
Qed.

(** The POST returns [result]: one of the three attempts gets it, and the
    attempts before that one fail. *)
Definition returned (formData : value) (w : World) (result : value) : Prop :=
  let outcome (k : nat) :=
    settle (fetch_outcome env (k + fetches w) generation_url (generation_options formData)) in
  outcome 0%nat = inr result
  ∨ (∃ e1, outcome 0%nat = inl e1 ∧ outcome 1%nat = inr result)
  ∨ (∃ e1 e2, outcome 0%nat = inl e1 ∧ outcome 1%nat = inl e2 ∧ outcome 2%nat = inr result).

Lemma returned_completion formData w result :
  returned formData w result →
  loop_completion generation_url (generation_options formData)
    APP_CONFIG.api.retryAttempts (fetches w) = Normal result.
Proof.
  unfold returned. simpl. unfold attempt_outcome.
  intros [H0 | [(e1 & H0 & H1) | (e1 & e2 & H0 & H1 & H2)]].
  - by rewrite H0.
  - by rewrite H0, H1.
  - by rewrite H0, H1, H2.
Qed.

(** The three attempts of the POST fail, the last one with [e3]. *)
Definition exhausted (formData : value) (w : World) (e3 : JsError) : Prop :=
  let outcome (k : nat) :=
    settle (fetch_outcome env (k + fetches w) generation_url (generation_options formData)) in
  ∃ e1 e2, outcome 0%nat = inl e1 ∧ outcome 1%nat = inl e2 ∧ outcome 2%nat = inl e3.

Lemma exhausted_completion formData w e3 :
  exhausted formData w e3 →
  loop_completion generation_url (generation_options formData)
    APP_CONFIG.api.retryAttempts (fetches w) = Throw e3.
Proof.
  unfold exhausted. simpl. unfold attempt_outcome.
  intros (e1 & e2 & H0 & H1 & H2). by rewrite H0, H1, H2.
Qed.

(** The request ends in one of the two ways. *)
Lemma returned_or_exhausted formData w :
  (∃ result, returned formData w result) ∨ (∃ e3, exhausted formData w e3).
Proof.
  unfold returned, exhausted. cbv zeta.
  destruct (settle (fetch_outcome env (0 + fetches w) _ _)) as [e1|result]; [|left; eauto].
  destruct (settle (fetch_outcome env (1 + fetches w) _ _)) as [e2|result];
    [|left; exists result; right; left; eauto].
  destruct (settle (fetch_outcome env (2 + fetches w) _ _)) as [e3|result];
    [right; eauto 10|left; exists result; right; right; eauto].
Qed.

(** C1.  When the form passes validation (the notification manager being
    initialized and the overlay having its .loading-message, as they are once
    the bootstrap has run on a page that is well formed), startGeneration
    returns normally; it sends a POST to '/generate/' whose body is the JSON
    text of the form data (of an empty object when the form data is
    undefined), and the retries of the API manager repeat that same request;
    and it shows exactly one notification, which
    tells the outcome: the success notification exactly when the request
    returns a response whose [success] is truthy, and an error notification
    when that field is falsy, when the response has no properties, and when
    the three attempts fail, then with the message of the last error.  The
    request ends in one of these ways. *)
Theorem startGeneration_posts_and_reports (formData : value) (w : World) :
  valid_form formData →
  notifications_ready w →
  message_element w →
  let evs := added w (exec startGeneration w) in
  let sent := generation_options formData in
  completion startGeneration w = Normal tt
  ∧ generation_url = "/generate/"
  ∧ sent !! "method" = Some (VStr "POST")
  ∧ sent !! "body" = Some (JSON_stringify env (default_parameter (VObj ∅) formData))
  ∧ (∃ retries,
       fetched evs = (generation_url, sent) :: retries
       ∧ Forall (λ r, r = (generation_url, sent)) retries)
  ∧ (∃ toast,
       shown evs = [toast]
       ∧ (∀ result success,
            returned formData w result →
            get_property result "success" = inr success →
            if to_boolean success
            then toastType toast = "success"
                 ∧ toastMessage toast = "Génération terminée avec succès"
            else toastType toast = "error")
       ∧ (∀ result e,
            returned formData w result →
            get_property result "success" = inl e →
            toastType toast = "error" ∧ toastMessage toast = "Erreur: " +:+ message e)
       ∧ (∀ e3,
            exhausted formData w e3 →
            toastType toast = "error" ∧ toastMessage toast = "Erreur: " +:+ message e3))
  ∧ ((∃ result, returned formData w result) ∨ (∃ e3, exhausted formData w e3)).
Proof.
  intros Hvalid Hready Hmessage evs sent. subst evs sent.
  split; [|split; [done|]; split; [apply generation_options_method|];
           split; [apply generation_options_body|]].
  { wp_of_exec. apply (wp_startGeneration_valid formData); [done..|]. by intros w' _. }
  split; [|split; [|apply returned_or_exhausted]].
  - wp_of_exec. apply (wp_startGeneration_valid formData); [done..|].
    intros w' (evs & toast & Htrace & Hnet & _).
    rewrite (added_trace w w' evs Htrace), <- fetched_network, Hnet.
    pose proof (fetched_loop_schedule generation_url (generation_options formData)
                  APP_CONFIG.api.retryAttempts 1 (fetches w)) as Hall.
    cbn [loop_schedule APP_CONFIG.api.retryAttempts] in *.
    cbn [fetched omap list_omap] in *. apply Forall_cons in Hall as [_ Hall].
    by eexists.
  - wp_of_exec. apply (wp_startGeneration_valid formData); [done..|].
    intros w' (evs & toast & Htrace & _ & _ & _ & Hshown & Hreport & _).
    rewrite (added_trace w w' evs Htrace).
    exists toast. split; [done|]. split; [|split].
    + intros result success Hreturned Hsuccess.
      rewrite (returned_completion formData w result Hreturned) in Hreport.
      unfold generation_report in Hreport. rewrite Hsuccess in Hreport.
      destruct (to_boolean success); [split|]; congruence.
    + intros result e Hreturned Hsuccess.
      rewrite (returned_completion formData w result Hreturned) in Hreport.
      unfold generation_report in Hreport. rewrite Hsuccess in Hreport.
      split; congruence.
    + intros e3 Hfailed.
      rewrite (exhausted_completion formData w e3 Hfailed) in Hreport.
      unfold generation_report in Hreport. split; congruence.
Qed.

(** The three attempts of the POST get responses whose status is not ok, the
    last one with [status] and [statusText]: the bodies are not read. *)
Definition refused (formData : value) (w : World) (status : Z) (statusText : string) : Prop :=
  let response (k : nat) :=
    fetch_outcome env (k + fetches w) generation_url (generation_options formData) in
  ∃ status1 statusText1 body1 status2 statusText2 body2 body3,
    response 0%nat = FetchResponse status1 statusText1 body1 ∧ response_ok status1 = false
    ∧ response 1%nat = FetchResponse status2 statusText2 body2 ∧ response_ok status2 = false
    ∧ response 2%nat = FetchResponse status statusText body3 ∧ response_ok status = false.

Lemma refused_exhausted formData w status statusText :
  refused formData w status statusText →
  exhausted formData w (Error ("HTTP " +:+ pretty status +:+ ": " +:+ statusText)).
Proof.
  unfold refused, exhausted. cbv zeta.
  intros (s1 & t1 & b1 & s2 & t2 & b2 & b3 & H1 & Hok1 & H2 & Hok2 & H3 & Hok3).
  rewrite H1, H2, H3. cbn [settle]. rewrite Hok1, Hok2, Hok3. by eexists _, _.
Qed.

(** C3, as the code has it.  The form is valid, the notification manager
    initialized and the overlay has its .loading-message.  When the POST
    returns a response (the first of the three attempts to get an ok status
    and a body that parses): if its [success] is true (or any truthy value),
    startGeneration shows the success notification and stores the response as
    the current generation; if [success] is false (or falsy), it shows one
    error notification and stores nothing: the text is 'Erreur: ' followed by
    the [error] string of the response when that string is not empty, and by
    the default 'Erreur de génération' when [error] is empty or absent.  A
    response whose status is not ok is a failed attempt, whatever its body
    says: when the three attempts get such responses, the one notification
    is the error 'Erreur: HTTP ' with the status and the status text of the
    last, three requests have been sent and nothing is stored. *)
Theorem startGeneration_reports_response (formData : value) (w : World) :
  valid_form formData →
  notifications_ready w →
  message_element w →
  let w' := exec startGeneration w in
  let evs := added w w' in
  completion startGeneration w = Normal tt
  ∧ (∀ result success,
       returned formData w result →
       get_property result "success" = inr success → to_boolean success = true →
       (∃ toast, shown evs = [toast] ∧ toastType toast = "success"
                 ∧ toastMessage toast = "Génération terminée avec succès")
       ∧ state w' !! "currentGeneration" = Some result)
  ∧ (∀ result success error,
       returned formData w result →
       get_property result "success" = inr success → to_boolean success = false →
       get_property result "error" = inr error →
       (∃ toast, shown evs = [toast] ∧ toastType toast = "error"
                 ∧ (∀ e, error = VStr e → e ≠ "" → toastMessage toast = "Erreur: " +:+ e)
                 ∧ (to_boolean error = false →
                    toastMessage toast = "Erreur: Erreur de génération"))
       ∧ state w' !! "currentGeneration" = state w !! "currentGeneration")
  ∧ (∀ status statusText,
       refused formData w status statusText →
       (∃ toast, shown evs = [toast] ∧ toastType toast = "error"
                 ∧ toastMessage toast
                   = "Erreur: HTTP " +:+ pretty status +:+ ": " +:+ statusText)
       ∧ length (fetched evs) = 3%nat
       ∧ state w' !! "currentGeneration" = state w !! "currentGeneration").
Proof.
  intros Hvalid Hready Hmessage w' evs. subst evs w'.
  wp_of_exec. apply (wp_startGeneration_valid formData); [done..|].
  intros w' (evs & toast & Htrace & Hnet & Hwarn & Hscripts & Hshown & Hreport & Hstate).
  rewrite (added_trace w w' evs Htrace).
  split; [done|]. split; [|split].
  - intros result success Hreturned Hsuccess Htruthy.
    rewrite (returned_completion formData w result Hreturned) in Hreport, Hstate.
    unfold generation_report in Hreport. unfold generation_stored in Hstate.
    rewrite Hsuccess, Htruthy in Hreport, Hstate.
    split; [|done]. exists toast. split; [done|]. split; congruence.
  - intros result success error Hreturned Hsuccess Hfalsy Herror.
    rewrite (returned_completion formData w result Hreturned) in Hreport, Hstate.
    unfold generation_report in Hreport. unfold generation_stored in Hstate.
    rewrite Hsuccess, Hfalsy in Hreport, Hstate. rewrite Herror in Hreport.
    split; [|done]. exists toast. split; [done|]. split; [congruence|].
    assert (Htext : toastMessage toast
              = "Erreur: " +:+ to_string (js_or error (VStr "Erreur de génération")))
      by congruence.
    rewrite Htext. unfold js_or. split.
    + intros e -> He. simpl. destruct (String.eqb e "") eqn:Heq; [|done].
      by apply String.eqb_eq in Heq.
    + by intros ->.
  - intros status statusText Hrefused.
    pose proof (refused_exhausted formData w status statusText Hrefused) as Hfailed.
    rewrite (exhausted_completion formData w _ Hfailed) in Hreport, Hstate.
    unfold generation_report in Hreport. unfold generation_stored in Hstate.
    split; [|split; [|done]].
    + exists toast. split; [done|]. injection Hreport as Htype Htext.
      split; [done|]. by rewrite Htext.
    + rewrite <- fetched_network, Hnet.
      destruct Hfailed as (e1 & e2 & H1 & H2 & H3).
      cbn [loop_schedule APP_CONFIG.api.retryAttempts]. unfold attempt_outcome.
      cbn [Nat.add] in H1, H2, H3. by rewrite H1, H2, H3.
Qed.

(** C6. When the form is valid, the notification manager initialized, the
    overlay has its .loading-message (so that the request is reached) and the
    three attempts of the POST all fail, startGeneration returns normally and
    shows exactly one notification, of type error, with the message of the
    last error; each failed attempt has printed one warning (when the level of
    the logger lets warnings through), and the three fetches are separated by
    the delays of 1000 and 2000 ms. *)
Theorem startGeneration_three_failures (formData : value) (w : World) (e1 e2 e3 : JsError) :
  valid_form formData →
  notifications_ready w →
  message_element w →
  let outcome (k : nat) :=
    settle (fetch_outcome env (k + fetches w) generation_url (generation_options formData)) in
  outcome 0%nat = inl e1 → outcome 1%nat = inl e2 → outcome 2%nat = inl e3 →
  let evs := added w (exec startGeneration w) in
  completion startGeneration w = Normal tt
  ∧ (∃ toast, shown evs = [toast] ∧ toastType toast = "error"
              ∧ toastMessage toast = "Erreur: " +:+ message e3)
  ∧ length (List.filter (λ t, String.eqb (toastType t) "error") (shown evs)) = 1%nat
  ∧ warnings evs
    = retry_warning (currentLevel w) 3 1 generation_url e1
      ++ retry_warning (currentLevel w) 3 2 generation_url e2
      ++ retry_warning (currentLevel w) 3 3 generation_url e3
  ∧ network evs
    = [EFetch generation_url (generation_options formData); EDelay 1000;
       EFetch generation_url (generation_options formData); EDelay 2000;
       EFetch generation_url (generation_options formData)].
Proof.
  intros Hvalid Hready Hmessage outcome H1 H2 H3 evs. subst evs outcome. simpl in H1, H2, H3.
  wp_of_exec. apply (wp_startGeneration_valid formData); [done..|].
  intros w' (evs & toast & Htrace & Hnet & Hwarn & Hscripts & Hshown & Hreport & Hstate).
  rewrite (added_trace w w' evs Htrace).
  revert Hnet Hwarn Hreport.
  cbn [loop_schedule loop_warnings loop_completion APP_CONFIG.api.retryAttempts].
  unfold attempt_outcome. rewrite H1, H2, H3. rewrite app_nil_r.
  intros Hnet Hwarn Hreport. simpl in Hreport.
  assert (Htype : toastType toast = "error") by congruence.
  split; [done|]. split; [|split; [|split]].
  - exists toast. split; [done|]. split; congruence.
  - rewrite Hshown. simpl. by rewrite Htype.
  - exact Hwarn.
  - exact Hnet.
Qed.

(** C5. When the form fails validation (and the notification manager is
    initialized), startGeneration shows the error notification that asks to
    correct the form and returns; it sends nothing
    (no fetch, no delay), and it starts no load: no load id is added (the
    closing stopLoading only removes 'main_generation'), the loading flag is
    not raised and the overlay is not brought up. *)
Theorem startGeneration_invalid_form (formData : value) (w : World) :
  invalid_form formData →
  notifications_ready w →
  let w' := exec startGeneration w in
  let evs := added w w' in
  completion startGeneration w = Normal tt
  ∧ (∃ toast, shown evs = [toast] ∧ toastType toast = "error"
              ∧ toastMessage toast = "Veuillez corriger les erreurs du formulaire")
  ∧ fetched evs = [] ∧ network evs = []
  ∧ fetches w' = fetches w
  ∧ activeLoads (loadingManager w') = activeLoads (loadingManager w) ∖ {[ "main_generation" ]}
  ∧ (loading_flag true w' → loading_flag true w)
  ∧ (∀ o', overlay (loadingManager w') = Some o' → display o' = "flex" →
           ∃ o, overlay (loadingManager w) = Some o ∧ display o = "flex").
Proof.
  intros (Hget & validate & validation & valid & Hvalidate & Hvalidation & Hvalid & Hfalse)
    [children Hcontainer] w' evs. subst evs w'.
  wp_of_exec. unfold startGeneration.
  apply wp_bind, wp_log_silent; [done|]. intros evs0 H0. cbv beta iota.
  apply wp_try_finally, wp_try_catch. unfold startGeneration_try.
  rewrite Hget, Hvalidate. unfold call_method.
  apply wp_bind, wp_ret. cbv beta iota. apply wp_bind, wp_ret. cbv beta iota.
  apply wp_bind, wp_ret. cbv beta iota. rewrite Hvalidation.
  apply wp_bind, wp_ret. cbv beta iota. rewrite Hvalid.
  apply wp_bind, wp_ret. cbv beta iota. rewrite Hfalse. cbn [negb].
  apply wp_bind. unfold NotificationManager_error.
  eapply wp_show; [world_simpl; exact Hcontainer|]. world_simpl.
  intros evs1 H1. cbv beta iota. apply wp_ret.
  apply wp_stopLoading. intros evs2 H2.
  rewrite (added_trace w _ (evs0 ++ evs1 ++ evs2))
    by (rewrite trace_append, stopped_trace; world_simpl; by rewrite <- !app_assoc).
  assert (Hfetched : fetched evs1 = []).
  { destruct H1 as (Hn & _). by rewrite <- fetched_network, Hn. }
  trace_facts.
  split; [done|]. split; [|split; [|split; [|split; [|split; [|split]]]]].
  - eexists. split; [by trace_rewrite|]. done.
  - by trace_rewrite.
  - by trace_rewrite.
  - done.
  - unfold stopped. world_simpl. by case_bool_decide.
  - unfold loading_flag, stopped. world_simpl. case_bool_decide; [|done].
    by rewrite lookup_merged.
  - unfold stopped. world_simpl. case_bool_decide as Hlast; simpl.
    + intros o' Ho' Hflex. apply hide_overlay_display in Ho'. by rewrite Ho' in Hflex.
    + intros o' Ho' Hflex. by exists o'.
Qed.

(** ** The bootstrap *)

Lemma set_domListeners_compose f g w :
  set_domListeners g (set_domListeners f w) = set_domListeners (λ l, g (f l)) w.
Proof. done. Qed.

Lemma set_domListeners_same w : set_domListeners (λ l, l) w = w.
Proof. by destruct w. Qed.

(** LoadingManager.initialize only touches the loading manager. *)
Lemma wp_LoadingManager_initialize w Q :
  (∀ evs, silent evs →
     Q (Normal tt) (append evs (set_loadingManager initialized_loadingManager w))) →
  wp LoadingManager_initialize w Q.
Proof.
  intros HQ. unfold wp, completion, exec. rewrite LoadingManager_initialize_run.
  apply HQ. by apply log_events_silent.
Qed.

(** NotificationManager.initialize leaves a container: the one that the
    manager holds or that the page has, or a new, empty one. *)
Definition initialized_container (nm : NotificationManager) : NotificationManager :=
  {| container :=
       Some (default []
               (getElementById (container nm) (doc_notificationContainer (document env))));
     notifications := notifications nm |}.

Lemma wp_NotificationManager_initialize w Q :
  (∀ evs, silent evs →
     Q (Normal tt) (append evs (set_notificationManager initialized_container w))) →
  wp NotificationManager_initialize w Q.
Proof.
  intros HQ. unfold NotificationManager_initialize.
  apply wp_bind, wp_modify. cbv beta iota. apply wp_bind, wp_get. cbv beta iota.
  apply wp_bind. world_simpl. cbn [container].
  set (found := getElementById (container (notificationManager w))
                  (doc_notificationContainer (document env))).
  assert (Hw : set_notificationManager initialized_container w
    = match found with
      | Some _ =>
          set_notificationManager (λ nm,
            {| container :=
                 getElementById (container nm) (doc_notificationContainer (document env));
               notifications := notifications nm |}) w
      | None =>
          set_notificationManager (λ nm, {| container := Some []; notifications := notifications nm |})
            (set_notificationManager (λ nm,
               {| container :=
                    getElementById (container nm) (doc_notificationContainer (document env));
                  notifications := notifications nm |}) w)
      end).
  { unfold initialized_container, set_notificationManager. cbn [notificationManager].
    fold found. by destruct found. }
  rewrite Hw in HQ.
  destruct found as [children|].
  - apply wp_ret. cbv beta iota. by apply wp_log_silent.
  - unfold createContainer. apply wp_modify. cbv beta iota. by apply wp_log_silent.
Qed.

(** What loading one module does to the registry of modules: a module whose
    script fails, or does not register itself on window, leaves it as it
    was. *)
Definition register_module (name path : string) (m : gmap string value) : gmap string value :=
  match script_outcome env path with
  | ScriptLoaded registered => if to_boolean registered then <[name := registered]> m else m
  | ScriptError => m
  end.

(** The registry after the loop of loadModules. *)
Fixpoint loaded (rest : list (string * string)) (m : gmap string value) : gmap string value :=
  match rest with
  | [] => m
  | module :: rest' => loaded rest' (register_module module.1 module.2 m)
  end.

(** What loading modules leaves in the trace: script tags, no notification,
    no request. *)
Definition loading_events (evs : list Event) (tags : list string) : Prop :=
  scripts evs = tags ∧ shown evs = [] ∧ network evs = [].

Lemma loading_events_silent evs : silent evs → loading_events evs [].
Proof.
  intros H. unfold loading_events.
  by rewrite silent_scripts, silent_shown, silent_network.
Qed.

Lemma loading_events_app evs1 evs2 tags1 tags2 :
  loading_events evs1 tags1 → loading_events evs2 tags2 →
  loading_events (evs1 ++ evs2) (tags1 ++ tags2).
Proof.
  intros (Hs1 & Ht1 & Hn1) (Hs2 & Ht2 & Hn2). unfold loading_events.
  by rewrite scripts_app, shown_app, network_app, Hs1, Hs2, Ht1, Ht2, Hn1, Hn2.
Qed.

Lemma loading_events_warning evs message args :
  loading_events (log_events evs LWarn warn_prefix message args) [].
Proof. unfold log_events. by destruct (_ <=? _)%nat. Qed.

(** The part of the world that loading modules changes or may change: the
    registry of modules, the loading manager, the state and the trace. *)
Definition modules_loaded (rest : list (string * string)) (w w' : World) : Prop :=
  ∃ evs,
    trace w' = trace w ++ evs
    ∧ loading_events evs (map snd rest)
    ∧ modules (app w') = loaded rest (modules (app w))
    ∧ initialized (app w') = initialized (app w)
    ∧ notificationManager w' = notificationManager w
    ∧ currentLevel w' = currentLevel w.

Lemma modules_loaded_nil w w' evs :
  silent evs → w' = append evs w → modules_loaded [] w w'.
Proof.
  intros H ->. exists evs. split; [done|]. split; [by apply loading_events_silent|]. done.
Qed.

Lemma modules_loaded_trans module rest w w1 w2 :
  modules_loaded [module] w w1 → modules_loaded rest w1 w2 →
  modules_loaded (module :: rest) w w2.
Proof.
  intros (evs1 & Ht1 & He1 & Hm1 & Hi1 & Hn1 & Hl1) (evs2 & Ht2 & He2 & Hm2 & Hi2 & Hn2 & Hl2).
  exists (evs1 ++ evs2). split; [by rewrite Ht2, Ht1, app_assoc|].
  split; [apply (loading_events_app evs1 evs2 [_] _ He1 He2)|].
  split; [by rewrite Hm2, Hm1|]. split; [congruence|]. split; congruence.
Qed.

(** One round of the loop: the failure of the module is caught. *)
Lemma wp_loadModules_round moduleLoadingId n i module w Q :
  (∀ w', modules_loaded [module] w w' → Q (Normal tt) w') →
  wp (loadModules_round moduleLoadingId n i module) w Q.
Proof.
  intros HQ. unfold loadModules_round.
  apply wp_bind, wp_updateProgress. intros evs1 H1. cbv beta iota.
  apply wp_try_catch, wp_bind. unfold loadModule.
  apply wp_bind, wp_effect. cbv beta iota.
  assert (Hfail : ∀ error,
    register_module module.1 module.2 (modules (app w)) = modules (app w) →
    wp (logger_warn ("Impossible de charger le module " +:+ module.1 +:+ ":")
          [error_value error])
      (append [EScript module.2]
         (append evs1
            (set_loadingManager
               (progress_update moduleLoadingId (percent env (progress_of env (i + 1) n))
                  ("Chargement de " +:+ module.1 +:+ "...")) w))) Q).
  { intros error Hsame. apply wp_log. apply HQ.
    eexists. split; [rewrite !trace_append; world_simpl; by rewrite <- !app_assoc|].
    split.
    - apply (loading_events_app evs1 _ [] [_]); [by apply loading_events_silent|].
      apply (loading_events_app [_] _ [_] []); [done | apply loading_events_warning].
    - simpl. by rewrite Hsame. }
  destruct (script_outcome env module.2) as [|registered] eqn:Hscript.
  - apply wp_throw. apply Hfail. unfold register_module. by rewrite Hscript.
  - destruct (to_boolean registered) eqn:Htruthy.
    + apply wp_bind, wp_modify. cbv beta iota. apply wp_ret.
      apply wp_log_silent; [done|]. intros evs2 H2. apply HQ.
      eexists. split; [rewrite !trace_append; world_simpl; by rewrite <- !app_assoc|].
      split.
      * apply (loading_events_app evs1 _ [] [_]); [by apply loading_events_silent|].
        apply (loading_events_app [_] _ [_] []); [done | by apply loading_events_silent].
      * simpl. unfold register_module. by rewrite Hscript, Htruthy.
    + apply wp_throw. apply Hfail. unfold register_module. by rewrite Hscript, Htruthy.
Qed.

(** The loop goes through the whole list, whatever the scripts do. *)
Lemma wp_loadModules_loop moduleLoadingId n rest : ∀ i w Q,
  (∀ w', modules_loaded rest w w' → Q (Normal tt) w') →
  wp (loadModules_loop moduleLoadingId n i rest) w Q.
Proof.
  induction rest as [|module rest IH]; intros i w Q HQ; simpl.
  - apply wp_ret, HQ. apply (modules_loaded_nil w w []); [done|]. by rewrite append_nil.
  - apply wp_bind, wp_loadModules_round. intros w1 H1. cbv beta iota.
    apply IH. intros w2 H2. apply HQ. by eapply modules_loaded_trans.
Qed.

(** loadModules: the loading of the list between a startLoading and a
    stopLoading. *)
Lemma wp_loadModules w Q :
  message_element w →
  (∀ w', modules_loaded modulesToLoad w w' → Q (Normal tt) w') →
  wp loadModules w Q.
Proof.
  intros Hmessage HQ. unfold loadModules.
  apply wp_bind, wp_log_silent; [done|]. intros evs0 H0. cbv beta iota.
  apply wp_bind, wp_startLoading_ready; [done|]. intros evs1 H1. cbv beta iota.
  apply wp_try_finally, wp_bind, wp_loadModules_loop. intros w1 Hloaded. cbv beta iota.
  apply wp_bind, wp_get. cbv beta iota.
  apply wp_log_silent; [done|]. intros evs2 H2.
  apply wp_stopLoading. intros evs3 H3. apply HQ.
  destruct Hloaded as (evs & Ht & He & Hm & Hi & Hn & Hl).
  exists (evs0 ++ evs1 ++ evs ++ evs2 ++ evs3).
  split.
  { rewrite trace_append, stopped_trace, trace_append, Ht. world_simpl.
    by rewrite <- !app_assoc. }
  split.
  { apply (loading_events_app evs0 _ [] _); [by apply loading_events_silent|].
    apply (loading_events_app evs1 _ [] _); [by apply loading_events_silent|].
    apply (loading_events_app evs (evs2 ++ evs3) (map snd modulesToLoad) []); [done|].
    apply (loading_events_app evs2 evs3 [] []); by apply loading_events_silent. }
  unfold stopped. world_simpl. by rewrite Hm, Hi, Hn, Hl.
Qed.

(** *** Attaching the handlers *)

(** A computation attaches handlers when it returns normally and changes
    nothing but the listeners on the page, and the trace by silent events. *)
Definition attaches (m : M unit) : Prop :=
  ∀ w Q, (∀ evs f, silent evs → Q (Normal tt) (append evs (set_domListeners f w))) → wp m w Q.

Lemma attaches_bookkeeping m : bookkeeping m → attaches m.
Proof.
  intros Hm w Q HQ. apply Hm. intros evs H.
  rewrite <- (set_domListeners_same w). by apply HQ.
Qed.

Lemma attaches_addEventListener target event handler :
  attaches (addEventListener target event handler).
Proof.
  intros w Q HQ. unfold addEventListener. apply wp_modify.
  rewrite <- (append_nil (set_domListeners _ w)). by apply HQ.
Qed.

Lemma attaches_bind m k : attaches m → attaches k → attaches (m ;;; k).
Proof.
  intros Hm Hk w Q HQ. apply wp_bind, Hm. intros evs1 f1 H1. cbv beta iota.
  apply Hk. intros evs2 f2 H2.
  rewrite set_domListeners_append, append_append, set_domListeners_compose.
  apply HQ. by apply silent_app.
Qed.

Lemma attaches_forEach {A} (l : list A) (f : A → M unit) :
  (∀ x, attaches (f x)) → attaches (forEach l f).
Proof.
  intros Hf. induction l as [|x l IH]; simpl.
  - apply attaches_bookkeeping, bookkeeping_ret.
  - by apply attaches_bind.
Qed.

Lemma attaches_setupGlobalEventListeners : attaches setupGlobalEventListeners.
Proof.
  unfold setupGlobalEventListeners.
  repeat (apply attaches_bind; [apply attaches_addEventListener|]).
  by apply attaches_bookkeeping, bookkeeping_log.
Qed.

Lemma attaches_setupForms : attaches setupForms.
Proof.
  unfold setupForms. destruct (doc_generationForm (document env)) as [inputs|].
  - apply attaches_bind; [apply attaches_addEventListener|].
    destruct APP_CONFIG.validation.realTime.
    + apply attaches_forEach. intros input. apply attaches_addEventListener.
    + apply attaches_bookkeeping, bookkeeping_ret.
  - apply attaches_bookkeeping, bookkeeping_ret.
Qed.

Lemma attaches_setupMainButtons : attaches setupMainButtons.
Proof.
  unfold setupMainButtons. apply attaches_forEach. intros buttonId.
  case_bool_decide.
  - apply attaches_addEventListener.
  - apply attaches_bookkeeping, bookkeeping_ret.
Qed.

Lemma attaches_setupTooltips : attaches setupTooltips.
Proof.
  unfold setupTooltips. apply attaches_forEach. intros element.
  apply attaches_bind; apply attaches_addEventListener.
Qed.

(** initializeUI attaches handlers and records whether the viewport is
    narrow. *)
Lemma wp_initializeUI w Q :
  (∀ evs f, silent evs →
     Q (Normal tt)
       (append evs
          (set_state (λ st, {[ "isMobile" := VBool (doc_maxWidth768 (document env)) ]} ∪ st)
             (set_domListeners f w)))) →
  wp initializeUI w Q.
Proof.
  intros HQ. unfold initializeUI.
  apply wp_bind, wp_log_silent; [done|]. intros evs0 H0. cbv beta iota.
  apply wp_bind, attaches_setupForms. intros evs1 f1 H1. cbv beta iota.
  apply wp_bind, attaches_setupMainButtons. intros evs2 f2 H2. cbv beta iota.
  apply wp_bind, attaches_setupTooltips. intros evs3 f3 H3. cbv beta iota.
  apply wp_bind. unfold setupResponsive, handleResponsive.
  apply wp_bind, attaches_addEventListener. intros evs4 f4 H4. cbv beta iota.
  apply wp_bind, wp_setState. intros evs5 H5. cbv beta iota.
  apply wp_emit. intros evs6 H6. cbv beta iota.
  apply wp_log_silent; [done|]. intros evs7 H7.
  rewrite ?set_domListeners_append, ?set_state_append, ?append_append,
    ?set_domListeners_compose.
  rewrite ?set_domListeners_append, ?set_state_append, ?append_append,
    ?set_domListeners_compose.
  apply HQ. by repeat apply silent_app.
Qed.

(** *** The registry of modules *)

Lemma register_module_other name path other m :
  name ≠ other → register_module name path m !! other = m !! other.
Proof.
  intros Hne. unfold register_module.
  destruct (script_outcome env path) as [|registered]; [done|].
  destruct (to_boolean registered); [|done]. by apply lookup_insert_ne.
Qed.

Lemma register_module_same name path m m' :
  m !! name = m' !! name →
  register_module name path m !! name = register_module name path m' !! name.
Proof.
  intros Hm. unfold register_module.
  destruct (script_outcome env path) as [|registered]; [done|].
  destruct (to_boolean registered); [|done]. by rewrite !lookup_insert_eq.
Qed.

Lemma loaded_other rest : ∀ m name,
  name ∉ rest.*1 → loaded rest m !! name = m !! name.
Proof.
  induction rest as [|[n p] rest IH]; intros m name Hnot; simpl; [done|].
  rewrite fmap_cons in Hnot. apply not_elem_of_cons in Hnot as [Hne Hnot].
  rewrite IH by done. apply register_module_other. by intros ->.
Qed.

Lemma loaded_lookup rest : ∀ m name path,
  NoDup rest.*1 → (name, path) ∈ rest →
  loaded rest m !! name = register_module name path m !! name.
Proof.
  induction rest as [|[n p] rest IH]; intros m name path Hdup Hin; simpl.
  - by apply elem_of_nil in Hin.
  - rewrite fmap_cons in Hdup. apply NoDup_cons in Hdup as [Hfresh Hdup].
    apply elem_of_cons in Hin as [[= -> ->]|Hin].
    + by apply loaded_other.
    + rewrite (IH _ name path) by done.
      apply register_module_same, register_module_other.
      intros ->. apply Hfresh. apply (list_elem_of_fmap_2 fst) in Hin. exact Hin.
Qed.

Lemma modulesToLoad_NoDup : NoDup modulesToLoad.*1.
Proof.
  simpl.
  repeat (apply NoDup_cons; split;
          [rewrite ?elem_of_cons, elem_of_nil; intros H; repeat destruct H as [H|H]; done|]).
  apply NoDup_nil_2.
Qed.

(** What the bootstrap leaves, from a world [w]: every script of the list
    attempted, the registry of the modules that registered themselves, the
    app marked ready, and the notification of success. *)
Definition bootstrapped (w w' : World) : Prop :=
  ∃ evs toast,
    trace w' = trace w ++ evs
    ∧ scripts evs = map snd modulesToLoad
    ∧ shown evs = [toast]
    ∧ toastType toast = "success"
    ∧ toastMessage toast = "Application chargée avec succès"
    ∧ modules (app w') = loaded modulesToLoad (modules (app w))
    ∧ initialized (app w') = true
    ∧ state w' !! "initialized" = Some (VBool true)
    ∧ notifications_ready w'.

(** On a page whose overlay has its .loading-message, initialize never
    reaches its catch block. *)
Lemma wp_initialize w Q :
  page_message_element w →
  (∀ w', bootstrapped w w' → Q (Normal tt) w') → wp initialize w Q.
Proof.
  intros Hpage HQ. unfold initialize.
  apply wp_bind, wp_log_silent; [done|]. intros evs0 H0. cbv beta iota.
  apply wp_try_catch.
  apply wp_bind, wp_LoadingManager_initialize. intros evs1 H1. cbv beta iota.
  apply wp_bind, wp_NotificationManager_initialize. intros evs2 H2. cbv beta iota.
  apply wp_bind, wp_loadModules; [by apply initialized_message_element|].
  intros w1 (evs3 & Htrace & (Hscripts & Hshown & Hnetwork) & Hmodules & Hinit & Hnm & Hlevel).
  cbv beta iota. revert Htrace Hmodules Hinit Hnm Hlevel. world_simpl.
  intros Htrace Hmodules Hinit Hnm Hlevel.
  apply wp_bind, attaches_setupGlobalEventListeners. intros evs4 f4 H4. cbv beta iota.
  apply wp_bind, wp_initializeUI. intros evs5 f5 H5. cbv beta iota.
  apply wp_bind, wp_modify. cbv beta iota.
  apply wp_bind, wp_setState. intros evs6 H6. cbv beta iota.
  apply wp_bind, wp_log_silent; [done|]. intros evs7 H7. cbv beta iota.
  apply wp_bind. unfold NotificationManager_success.
  eapply wp_show.
  { world_simpl. rewrite Hnm. reflexivity. }
  world_simpl. intros evs8 H8. cbv beta iota.
  apply wp_emit. intros evs9 H9. apply HQ.
  exists (evs0 ++ evs1 ++ evs2 ++ evs3 ++ evs4 ++ evs5 ++ evs6 ++ evs7 ++ evs8 ++ evs9).
  eexists.
  split; [world_simpl; rewrite Htrace; by rewrite <- !app_assoc|].
  unfold notifications_ready. world_simpl. cbn [modules initialized].
  trace_facts.
  split; [by trace_rewrite|]. split; [by trace_rewrite|].
  split; [done|]. split; [done|]. split; [done|]. split; [done|].
  split; [apply lookup_merged|]. rewrite Hnm. by eexists.
Qed.

(** The notification manager is ready once initialize has run. *)
Lemma initialize_ready w : page_message_element w → notifications_ready (exec initialize w).
Proof.
  intros Hpage. wp_of_exec. apply wp_initialize; [done|]. intros w' (evs & toast & H). apply H.
Qed.

(** C7. The feature scripts are optional.  On a page whose loading overlay,
    if it has one, contains the .loading-message that startLoading writes to,
    whatever each script of the load list does (an error event, a load
    without the module on window, or a load that registers it), initialize
    returns normally and marks the app ready, in its own flag and in the
    global state.  Every script of the list
    is attempted, in the order of the list; a module that fails is skipped
    (the registry keeps what it had under that name), one that registers
    itself is recorded; and the only notification is the one of success. *)
Theorem initialize_survives_module_failures (w : World) :
  page_message_element w →
  let w' := exec initialize w in
  let evs := added w w' in
  completion initialize w = Normal tt
  ∧ initialized (app w') = true
  ∧ state w' !! "initialized" = Some (VBool true)
  ∧ scripts evs = map snd modulesToLoad
  ∧ (∀ name path,
       (name, path) ∈ modulesToLoad →
       modules (app w') !! name
       = match script_outcome env path with
         | ScriptLoaded registered =>
             if to_boolean registered then Some registered else modules (app w) !! name
         | ScriptError => modules (app w) !! name
         end)
  ∧ (∃ toast, shown evs = [toast] ∧ toastType toast = "success"
              ∧ toastMessage toast = "Application chargée avec succès").
Proof.
  intros Hpage w' evs. subst evs w'.
  wp_of_exec. apply wp_initialize; [done|].
  intros w' (evs & toast & Htrace & Hscripts & Hshown & Htype & Hmessage
             & Hmodules & Hinit & Hstate & Hready).
  rewrite (added_trace w w' evs Htrace).
  split; [done|]. split; [done|]. split; [done|]. split; [done|]. split.
  - intros name path Hin. rewrite Hmodules.
    rewrite (loaded_lookup modulesToLoad _ name path modulesToLoad_NoDup Hin).
    unfold register_module.
    destruct (script_outcome env path) as [|registered]; [done|].
    destruct (to_boolean registered); [|done]. apply lookup_insert_eq.
  - by exists toast.
Qed.

(** * Further properties *)

(** ** The event manager: registering and removing *)

Lemma registers_false cb (ls : list Listener) :
  Forall (λ x, callback x ≠ cb) ls → Forall (λ x, registers cb x = false) ls.
Proof.
  intros H. eapply Forall_impl; [exact H|]. intros x Hx. unfold registers.
  by apply Nat.eqb_neq.
Qed.

(** X1. on followed by off of the same callback.  When the callback had no
    registration for the event type, the list of the type is what it was
    (the type keeps an entry, with an empty list if it had none).  When it had
    one, off removes the older registration, not the one just made: the
    callback moves to the end of the list, with the new context (null when
    the context is undefined).  The lists of the other event types are
    untouched. *)
Theorem on_then_off (eventType : string) (cb : Callback) (ctx : value) (w : World) :
  let w' := exec (on eventType cb ctx ;;; off eventType cb) w in
  (Forall (λ l, callback l ≠ cb) (registered eventType w) →
     listeners w' !! eventType = Some (registered eventType w))
  ∧ (∀ before l after,
       registered eventType w = before ++ l :: after →
       callback l = cb →
       Forall (λ x, callback x ≠ cb) before →
       listeners w' !! eventType
       = Some (before ++ after
               ++ [ {| callback := cb; context := default_parameter VNull ctx |} ]))
  ∧ (∀ other, other ≠ eventType → listeners w' !! other = listeners w !! other).
Proof.
  intros w'. subst w'. unfold registered, exec, bind. rewrite on_spec, off_spec. simpl.
  rewrite lookup_insert_eq.
  set (ls := default [] (listeners w !! eventType)).
  set (new := {| callback := cb; context := default_parameter VNull ctx |}).
  assert (Hnew : registers cb new = true) by (unfold registers; simpl; apply Nat.eqb_refl).
  split; [|split].
  - intros Hnone.
    rewrite (findIndex_first (registers cb) ls new []); [|by apply registers_false|done].
    simpl. rewrite lookup_insert_eq, delete_middle. by rewrite app_nil_r.
  - intros before l after Hls Hl Hbefore. rewrite Hls, <- app_assoc. simpl.
    rewrite (findIndex_first (registers cb) before l (after ++ [new]));
      [|by apply registers_false|unfold registers; by apply Nat.eqb_eq].
    simpl. by rewrite lookup_insert_eq, delete_middle.
  - intros other Hother.
    destruct (findIndex (registers cb) (ls ++ [new])) as [index|]; simpl;
      by rewrite !lookup_insert_ne.
Qed.

(** X2. Emitting an event that has no listener (the type was never
    registered, or all its listeners have been removed) calls nothing and
    returns; it prints the debug line of emit when the logger is at the debug
    level, and otherwise leaves the world exactly as it was. *)
Theorem emit_without_listeners (eventType : string) (data : value) (w : World) :
  registered eventType w = [] →
  completion (emit eventType data) w = Normal tt
  ∧ exec (emit eventType data) w
    = append (emit_debug_events (currentLevel w) eventType (default_parameter VNull data)) w
  ∧ List.filter is_call (added w (exec (emit eventType data) w)) = []
  ∧ ((1 ≤ currentLevel w)%nat → exec (emit eventType data) w = w).
Proof.
  unfold registered. intros Hnone.
  destruct (emit_spec eventType data w) as (evs & Hrun & Hev).
  rewrite Hnone in Hev. inversion Hev; subst.
  unfold completion, exec. rewrite Hrun, app_nil_r. simpl.
  split; [done|]. split; [done|]. split.
  - rewrite added_append. unfold emit_debug_events. apply filter_is_call_log.
  - intros Hlevel. unfold emit_debug_events, log_events.
    destruct (currentLevel w) as [|n]; [lia|]. simpl. apply append_nil.
Qed.

(** ** The state manager: subscribers *)

(** The calls made to subscribers. *)
Definition is_subscriber_call (e : Event) : bool :=
  match e with ESubscriber _ _ _ => true | _ => false end.

(** What one round of the forEach of setState adds to the trace [tr]. *)
Definition subscriber_events (current : nat) (newState previousState : gmap string value)
    (cb : Callback) (tr : list Event) : list Event :=
  ESubscriber cb newState previousState ::
  match run_subscriber env cb newState previousState tr with
  | None => []
  | Some e => log_events current LError error_prefix "Erreur dans un abonné d'état:" [error_value e]
  end.

Lemma notify_subscriber_spec previousState cb w :
  notify_subscriber previousState cb w
  = (Normal tt,
     append (subscriber_events (currentLevel w) (state w) previousState cb (trace w)) w).
Proof.
  unfold notify_subscriber, invoke_subscriber, subscriber_events, try_catch, bind, get,
    effect, modify.
  destruct (run_subscriber env cb (state w) previousState (trace w)) as [e|]; simpl; [|done].
  unfold logger_error. rewrite log_spec. simpl. by rewrite append_append.
Qed.

Lemma filter_is_subscriber_call_log current level prefix message args :
  List.filter is_subscriber_call (log_events current level prefix message args) = [].
Proof. unfold log_events. by destruct (_ <=? _)%nat. Qed.

Lemma forEach_notify_subscriber previousState subs : ∀ w,
  ∃ evs,
    forEach subs (notify_subscriber previousState) w = (Normal tt, append evs w)
    ∧ List.filter is_subscriber_call evs
      = map (λ cb, ESubscriber cb (state w) previousState) subs
    ∧ List.filter is_call evs = [].
Proof.
  induction subs as [|cb subs IH]; intros w; simpl.
  - exists []. by rewrite append_nil.
  - unfold bind. rewrite notify_subscriber_spec.
    destruct (IH (append (subscriber_events (currentLevel w) (state w) previousState cb
                            (trace w)) w)) as (evs & Hrun & Hsubs & Hcalls).
    rewrite Hrun, append_append. eexists. split; [reflexivity|].
    rewrite !List.filter_app, Hsubs, Hcalls. unfold subscriber_events. simpl.
    destruct (run_subscriber env cb (state w) previousState (trace w)); simpl;
      by rewrite ?filter_is_subscriber_call_log, ?filter_is_call_log.
Qed.

Lemma emitted_no_subscriber_call current eventType data tr ls evs :
  emitted current eventType data tr ls evs → List.filter is_subscriber_call evs = [].
Proof.
  induction 1 as [| tr l ls evs Hcb _ IH | tr l ls evs e Hcb _ IH]; simpl; [done..|].
  rewrite List.filter_app. unfold listener_error_events.
  by rewrite filter_is_subscriber_call_log.
Qed.

(** X3. StateManager.setState calls every subscriber once, in the order of
    the subscriptions, with the new state and the state before the update,
    whether or not the subscribers before it threw; the listeners of
    'stateChanged' are called after all the subscribers, with the new state,
    the previous state and the update. *)
Theorem setState_notifies_subscribers (updates : gmap string value) (w : World) :
  let newState := updates ∪ state w in
  ∃ before after,
    added w (exec (setState updates) w) = before ++ after
    ∧ List.filter is_subscriber_call before
      = map (λ cb, ESubscriber cb newState (state w)) (subscribers w)
    ∧ List.filter is_call before = []
    ∧ List.filter is_subscriber_call after = []
    ∧ List.filter is_call after
      = map (call_of (stateChanged_data newState (state w) updates)) (registered "stateChanged" w).
Proof.
  intros newState. subst newState. unfold registered, exec, setState, bind, get, modify.
  unfold logger_debug. rewrite log_spec. cbv beta iota.
  set (w1 := append _ (set_state _ w)).
  destruct (forEach_notify_subscriber (state w) (subscribers w1) w1) as (evs1 & Hrun1 & Hs1 & Hc1).
  rewrite Hrun1. cbv beta iota.
  destruct (emit_spec "stateChanged"
              (stateChanged_data (state (append evs1 w1)) (state w) updates) (append evs1 w1))
    as (evs2 & Hrun2 & Hev2).
  rewrite Hrun2. subst w1. rewrite !append_append. simpl.
  rewrite (added_trace w _ ((log_events (currentLevel w) LDebug debug_prefix "État mis à jour:"
                               [VObj updates] ++ evs1)
                            ++ emit_debug_events (currentLevel w) "stateChanged"
                                 (stateChanged_data (updates ∪ state w) (state w) updates)
                               ++ evs2)) by (simpl; by rewrite <- !app_assoc).
  eexists _, _. split; [reflexivity|].
  rewrite !List.filter_app, !filter_is_subscriber_call_log, !filter_is_call_log. simpl.
  unfold emit_debug_events.
  rewrite !filter_is_subscriber_call_log, !filter_is_call_log. simpl.
  split; [exact Hs1|]. split; [exact Hc1|].
  split; [by eapply emitted_no_subscriber_call | by eapply emitted_calls].
Qed.

(** X4. The subscribers are a set.  Subscribing a function that is
    subscribed changes nothing; the function that subscribe returns removes
    the subscription, so that the subscribers are what they were when the
    function was not subscribed before; and no function is ever held twice. *)
Theorem subscribe_is_a_set (cb : Callback) (w : World) :
  NoDup (subscribers w) →
  let w1 := exec (subscribe cb) w in
  let w2 := exec (unsubscribe cb) w1 in
  NoDup (subscribers w1)
  ∧ cb ∈ subscribers w1
  ∧ exec (subscribe cb) w1 = w1
  ∧ NoDup (subscribers w2)
  ∧ (cb ∉ subscribers w2)
  ∧ (cb ∉ subscribers w → subscribers w2 = subscribers w).
Proof.
  intros Hdup w1 w2. subst w1 w2. unfold exec, subscribe, unsubscribe, modify. simpl.
  assert (Hfilter : ∀ l : list Callback,
    cb ∉ l → List.filter (λ c, negb (Nat.eqb c cb)) l = l).
  { induction l as [|c l IH]; [done|]. intros [Hne Hl]%not_elem_of_cons. simpl.
    destruct (Nat.eqb_spec c cb) as [->|_]; [done|]. simpl. by rewrite IH. }
  assert (Hgone : ∀ l : list Callback, cb ∉ List.filter (λ c, negb (Nat.eqb c cb)) l).
  { intros l Hin. apply list_elem_of_In, List.filter_In in Hin as [_ Hin].
    by rewrite Nat.eqb_refl in Hin. }
  assert (Hsub : ∀ l : list Callback, NoDup l → NoDup (List.filter (λ c, negb (Nat.eqb c cb)) l)).
  { intros l Hl. apply NoDup_ListNoDup, List.NoDup_filter. by apply NoDup_ListNoDup. }
  assert (Hidem : ∀ w0,
    set_subscribers (λ l, if bool_decide (cb ∈ l) then l else l ++ [cb])
      (set_subscribers (λ l, if bool_decide (cb ∈ l) then l else l ++ [cb]) w0)
    = set_subscribers (λ l, if bool_decide (cb ∈ l) then l else l ++ [cb]) w0).
  { intros w0. unfold set_subscribers. simpl. f_equal.
    destruct (decide (cb ∈ subscribers w0)) as [Hin0|Hin0].
    - by rewrite !(bool_decide_true (cb ∈ subscribers w0)) by done.
    - rewrite !(bool_decide_false (cb ∈ subscribers w0)) by done.
      rewrite bool_decide_true; [done|]. apply elem_of_app. right. by left. }
  assert (Hnew : NoDup (subscribers w ++ [cb]) ↔ cb ∉ subscribers w).
  { split.
    - intros (_ & Hfresh & _)%NoDup_app Hin. apply (Hfresh cb Hin). by left.
    - intros Hin. apply NoDup_app. split; [done|]. split; [|apply NoDup_singleton].
      by intros x Hx ->%list_elem_of_singleton. }
  split; [case_bool_decide; [done | by apply Hnew]|].
  split; [case_bool_decide; [done | apply elem_of_app; right; by left]|].
  split; [apply Hidem|].
  split; [case_bool_decide; apply Hsub; [done | by apply Hnew]|].
  split; [apply Hgone|].
  intros Hin. rewrite bool_decide_false by done.
  rewrite List.filter_app, Hfilter by done. simpl. rewrite Nat.eqb_refl. simpl.
  by rewrite app_nil_r.
Qed.

(** X5. Two calls of setState in a row leave the state that one call with
    the merged updates leaves (the later update wins on the keys they share);
    repeating an update changes the state no further. *)
Theorem setState_twice (first second : gmap string value) (w : World) :
  let w' := exec (setState first ;;; setState second) w in
  completion (setState first ;;; setState second) w = Normal tt
  ∧ state w' = (second ∪ first) ∪ state w
  ∧ state w' = state (exec (setState (second ∪ first)) w)
  ∧ (first = second → state w' = state (exec (setState first) w)).
Proof.
  intros w'. subst w'.
  assert (Hone : ∀ updates, state (exec (setState updates) w) = updates ∪ state w).
  { intros updates. wp_of_exec. apply wp_setState. by intros evs _. }
  rewrite !Hone.
  assert (H : completion (setState first ;;; setState second) w = Normal tt
              ∧ state (exec (setState first ;;; setState second) w)
                = (second ∪ first) ∪ state w).
  { wp_of_exec. apply wp_bind, wp_setState. intros evs1 _. cbv beta iota.
    apply wp_setState. intros evs2 _. split; [done|]. simpl.
    by rewrite (assoc_L (∪)). }
  destruct H as [Hc Hs]. rewrite Hs.
  split; [done|]. split; [done|]. split; [done|].
  intros ->. by rewrite (idemp (∪) second).
Qed.

(** ** The loading manager: edge cases *)

(** X6. updateProgress only moves the progress bar and the status text.  It
    never changes the set of active loads, the overlay or the state.  For an
    id that is not active it does nothing at all and emits no event; for an
    active id the bar, when there is one, takes the width of the progress, and
    an empty status leaves the status text as it was. *)
Theorem updateProgress_only_moves_the_bar (loadId : string) (progress : value)
    (status : string) (w : World) :
  let w' := exec (updateProgress loadId progress status) w in
  completion (updateProgress loadId progress status) w = Normal tt
  ∧ activeLoads (loadingManager w') = activeLoads (loadingManager w)
  ∧ overlay (loadingManager w') = overlay (loadingManager w)
  ∧ state w' = state w
  ∧ (loadId ∉ activeLoads (loadingManager w) → w' = w)
  ∧ (loadId ∈ activeLoads (loadingManager w) →
     (∀ bar, progressBar (loadingManager w) = Some bar →
             progressBar (loadingManager w')
             = Some {| barDisplay := barDisplay bar; barWidth := percent env progress |})
     ∧ (status = "" → statusElement (loadingManager w') = statusElement (loadingManager w))
     ∧ (status ≠ "" → is_Some (statusElement (loadingManager w)) →
        statusElement (loadingManager w') = Some status)).
Proof.
  intros w'. subst w'.
  split; [|split; [|split; [|split; [|split]]]].
  - wp_of_exec. apply wp_updateProgress. by intros evs _.
  - wp_of_exec. apply wp_updateProgress. intros evs _. world_simpl.
    unfold progress_update. by case_bool_decide.
  - wp_of_exec. apply wp_updateProgress. intros evs _. world_simpl.
    unfold progress_update. by case_bool_decide.
  - wp_of_exec. apply wp_updateProgress. by intros evs _.
  - intros Hnot. unfold exec, updateProgress, bind, get. by rewrite bool_decide_false.
  - intros Hin.
    wp_of_exec. apply wp_updateProgress. intros evs _. world_simpl.
    unfold progress_update. rewrite bool_decide_true by done. simpl.
    split; [|split].
    + by intros bar ->.
    + intros ->. by destruct (statusElement (loadingManager w)).
    + intros Hstatus [text ->]. destruct (String.eqb_spec status ""); done.
Qed.

(** X7. The active loads are a set, not a counter: on an overlay that has
    its .loading-message, a load started twice under the same id is ended by
    one stopLoading.  When no other load is active, that one call hides the
    overlay and clears the loading flag. *)
Theorem loads_are_not_counted (loadId message1 message2 : string)
    (showProgress1 showProgress2 : bool) (w : World) :
  message_element w →
  let w' := exec (startLoading loadId message1 showProgress1 ;;;
                  startLoading loadId message2 showProgress2 ;;;
                  stopLoading loadId) w in
  activeLoads (loadingManager w') = activeLoads (loadingManager w) ∖ {[ loadId ]}
  ∧ (activeLoads (loadingManager w) ⊆ {[ loadId ]} →
     overlay_display "none" w' ∧ loading_flag false w').
Proof.
  intros Hready w'. subst w'.
  by destruct (started_twice_stopped loadId message1 message2 showProgress1 showProgress2
                 w Hready) as (_ & Hloads & Hhidden).
Qed.

(** X8. stopAllLoading returns with no active load, the overlay hidden and
    the loading flag false, whatever was active before; a stopLoading that
    comes after it (the end of a load that was still running) keeps that. *)
Theorem stopAllLoading_clears (w : World) :
  let w' := exec stopAllLoading w in
  completion stopAllLoading w = Normal tt
  ∧ activeLoads (loadingManager w') = ∅
  ∧ overlay_display "none" w' ∧ loading_flag false w'
  ∧ (∀ loadId,
       let w'' := exec (stopLoading loadId) w' in
       activeLoads (loadingManager w'') = ∅
       ∧ overlay_display "none" w'' ∧ loading_flag false w'').
Proof.
  intros w'. subst w'.
  assert (H : completion stopAllLoading w = Normal tt
              ∧ activeLoads (loadingManager (exec stopAllLoading w)) = ∅
              ∧ overlay_display "none" (exec stopAllLoading w)
              ∧ loading_flag false (exec stopAllLoading w)).
  { wp_of_exec. apply wp_stopAllLoading. intros evs _.
    unfold overlay_display, loading_flag. world_simpl.
    split; [done|]. split; [done|].
    split; [apply hide_overlay_display | apply lookup_merged]. }
  destruct H as (Hc & Hempty & Hd & Hf).
  split; [done|]. split; [done|]. split; [done|]. split; [done|].
  intros loadId w''. subst w''.
  wp_of_exec. apply wp_stopLoading. intros evs _.
  unfold stopped, overlay_display, loading_flag. world_simpl.
  rewrite Hempty.
  assert (Hdiff : (∅ : gset string) ∖ {[loadId]} = ∅).
  { apply set_eq. intros x. rewrite elem_of_difference, elem_of_empty. tauto. }
  rewrite Hdiff, bool_decide_true by done. cbn [activeLoads hide_overlay remove_load].
  rewrite Hempty.
  split; [done|]. split; [apply hide_overlay_display | apply lookup_merged].
Qed.

(** X9. LoadingManager.initialize always leaves an overlay and keeps the
    active loads.  The overlay is the one that the manager holds already, or
    else the one of the page, with the progress bar and the status element
    that are found in the same way; when there is none it is the overlay that
    initialize builds, which has its .loading-message and comes with a
    progress bar and a status element.  A startLoading that follows returns
    when the overlay has its .loading-message: it shows the overlay with the
    message, sets the loading flag, and with showProgress resets the bar that
    the manager holds to 0%.  On an overlay of the page that has no
    .loading-message it throws a TypeError once the load is added and the
    overlay displayed, and leaves the state as it was. *)
Theorem LoadingManager_initialize_overlay (loadId message : string) (showProgress : bool)
    (w : World) :
  let found := getElementById (overlay (loadingManager w)) (doc_loadingOverlay (document env)) in
  let w1 := exec LoadingManager_initialize w in
  let w2 := exec (startLoading loadId message showProgress) w1 in
  completion LoadingManager_initialize w = Normal tt
  ∧ activeLoads (loadingManager w1) = activeLoads (loadingManager w)
  ∧ (found = None →
     overlay (loadingManager w1)
     = Some {| display := ""; loadingMessage := Some "Chargement en cours..." |}
     ∧ is_Some (progressBar (loadingManager w1))
     ∧ is_Some (statusElement (loadingManager w1)))
  ∧ (∀ o, found = Some o →
     overlay (loadingManager w1) = Some o
     ∧ progressBar (loadingManager w1)
       = getElementById (progressBar (loadingManager w)) (doc_loadingProgressBar (document env))
     ∧ statusElement (loadingManager w1)
       = getElementById (statusElement (loadingManager w)) (doc_loadingStatus (document env)))
  ∧ (page_message_element w →
     completion (startLoading loadId message showProgress) w1 = Normal tt
     ∧ overlay (loadingManager w2) = Some {| display := "flex"; loadingMessage := Some message |}
     ∧ loading_flag true w2
     ∧ (showProgress = true → is_Some (progressBar (loadingManager w1)) →
        progressBar (loadingManager w2) = Some {| barDisplay := "block"; barWidth := "0%" |}))
  ∧ (∀ o, found = Some o → loadingMessage o = None →
     completion (startLoading loadId message showProgress) w1 = Throw no_message_element
     ∧ overlay (loadingManager w2) = Some {| display := "flex"; loadingMessage := None |}
     ∧ loadId ∈ activeLoads (loadingManager w2)
     ∧ state w2 = state w).
Proof.
  intros found w1 w2. subst w2 w1. unfold completion at 1, exec.
  rewrite LoadingManager_initialize_run. cbn [fst snd].
  set (w1 := append _ (set_loadingManager initialized_loadingManager w)).
  assert (Hlm : loadingManager w1 = initialized_loadingManager (loadingManager w)) by done.
  assert (Hstate : state w1 = state w) by done.
  fold (exec (startLoading loadId message showProgress) w1).
  unfold initialized_loadingManager in Hlm. cbv zeta in Hlm. fold found in Hlm.
  split; [done|]. split; [rewrite Hlm; by destruct found|].
  split; [|split; [|split]].
  - intros Hnone. rewrite Hlm, Hnone. cbn. split; [done|]. split; by eexists.
  - intros o Ho. rewrite Hlm, Ho. done.
  - intros Hpage.
    assert (Hready : message_element w1)
      by exact (initialized_message_element (initialize_events (currentLevel w))
                  (λ nm, nm) w Hpage).
    assert (Hsome : ∃ o, overlay (loadingManager w1) = Some o)
      by (rewrite Hlm; destruct found; by eexists).
    destruct Hsome as [o Ho].
    wp_of_exec. apply wp_startLoading_ready; [done|]. intros evs _.
    split; [done|]. unfold loading_flag. world_simpl.
    unfold show_overlay. cbn [overlay add_load progressBar]. rewrite Ho.
    cbn [overlay progressBar].
    split; [done|]. split; [apply lookup_merged|]. by intros -> [bar ->].
  - intros o Ho Hnone.
    assert (Hoverlay : overlay (loadingManager w1) = Some o) by (by rewrite Hlm, Ho).
    wp_of_exec. apply wp_startLoading.
    + intros Hready. unfold message_element in Hready. rewrite Hoverlay, Hnone in Hready.
      by destruct Hready.
    + intros o' _ _. split; [done|]. split; [done|]. split; [|done].
      world_simpl. cbn [activeLoads show_overlay_only set_overlay add_load].
      apply elem_of_union_l, elem_of_singleton. done.
Qed.

(** ** The API manager: the loop for any number of attempts *)









(** ** The API manager: what is sent, and the events of a request *)

Lemma fetched_loop_schedule_first url options remaining attempt f :
  ∃ retries,
    fetched (loop_schedule url options (S remaining) attempt f) = (url, options) :: retries
    ∧ Forall (λ r, r = (url, options)) retries.
Proof.
  pose proof (fetched_loop_schedule url options (S remaining) attempt f) as Hall.
  cbn [loop_schedule] in *. cbn [fetched omap list_omap] in *.
  apply Forall_cons in Hall as [_ Hall]. by eexists.
Qed.

(** The requests that a call of request sends. *)
Lemma request_fetched endpoint options w :
  ∃ retries,
    fetched (added w (exec (request endpoint options) w))
    = (request_url endpoint, request_options options) :: retries
    ∧ Forall (λ r, r = (request_url endpoint, request_options options)) retries.
Proof.
  wp_of_exec. apply wp_request. intros evs (Hn & _).
  rewrite (added_trace w _ evs) by done. rewrite <- fetched_network, Hn.
  apply fetched_loop_schedule_first.
Qed.

(** X12. The options of a request are merged key by key, the caller's
    first: every fetch of request carries, for each key but 'signal', the
    value the caller gave and otherwise the default (method GET, the JSON
    headers, the timeout of the configuration), and as 'signal' the one of
    the abort controller.  The merge is shallow: a caller that gives its own
    headers replaces the default headers altogether. *)
Theorem request_merges_options (endpoint : string) (options : gmap string value) (w : World) :
  let sent := request_options options in
  (∃ retries,
     fetched (added w (exec (request endpoint options) w)) = (request_url endpoint, sent) :: retries
     ∧ Forall (λ r, r = (request_url endpoint, sent)) retries)
  ∧ (∀ key v, key ≠ "signal" → options !! key = Some v → sent !! key = Some v)
  ∧ (∀ key, key ≠ "signal" → options !! key = None → sent !! key = defaultOptions !! key)
  ∧ sent !! "signal" = Some (VObj ∅)
  ∧ (options !! "headers" = None →
     sent !! "headers" = Some (VObj {[ "Content-Type" := VStr "application/json";
                                       "Accept" := VStr "application/json" ]}))
  ∧ (options !! "method" = None → sent !! "method" = Some (VStr "GET"))
  ∧ (options !! "timeout" = None → sent !! "timeout" = Some (VNum 300000)).
Proof.
  intros sent. subst sent. split; [apply request_fetched|].
  unfold request_options, fetch_options.
  assert (Hdefault : ∀ key, key ≠ "signal" → options !! key = None →
    (<["signal" := VObj ∅]> (options ∪ defaultOptions)) !! key = defaultOptions !! key).
  { intros key Hkey Hnone. rewrite lookup_insert_ne by done. by apply lookup_union_r. }
  split; [|split; [|split; [|split; [|split]]]].
  - intros key v Hkey Hsome. rewrite lookup_insert_ne by done. by apply lookup_union_Some_l.
  - exact Hdefault.
  - apply lookup_insert_eq.
  - intros Hnone. by rewrite Hdefault.
  - intros Hnone. by rewrite Hdefault.
  - intros Hnone. by rewrite Hdefault.
Qed.

(** X13. ApiManager.get sends GET requests with no body and the default
    headers: to the endpoint followed by '?' and the query string, and to the
    endpoint alone when the parameters serialise to the empty string. *)
Theorem get_sends_get (URLSearchParams : value → string) (endpoint : string) (params : value)
    (w : World) :
  let queryString := URLSearchParams params in
  let url := if String.eqb queryString "" then endpoint else endpoint +:+ "?" +:+ queryString in
  let sent := request_options ∅ in
  (∃ retries,
     fetched (added w (exec (ApiManager_get URLSearchParams endpoint params) w))
     = (request_url url, sent) :: retries
     ∧ Forall (λ r, r = (request_url url, sent)) retries)
  ∧ sent !! "method" = Some (VStr "GET")
  ∧ sent !! "body" = None
  ∧ sent !! "headers" = Some (VObj {[ "Content-Type" := VStr "application/json";
                                      "Accept" := VStr "application/json" ]})
  ∧ completion (ApiManager_get URLSearchParams endpoint params) w
    = completion (request url ∅) w.
Proof.
  intros queryString url sent. subst sent url queryString.
  unfold ApiManager_get. cbn [to_boolean].
  destruct (String.eqb (URLSearchParams params) ""); cbn [negb];
    (split; [apply request_fetched|]); done.
Qed.

(** The arguments of the events 'apiSuccess' and 'apiError'. *)
Definition apiSuccess_data (endpoint requestId : string) (data : value) : value :=
  VObj {[ "endpoint" := VStr endpoint; "data" := data; "requestId" := VStr requestId ]}.

Definition apiError_data (endpoint requestId : string) (error : JsError) : value :=
  VObj {[ "endpoint" := VStr endpoint; "error" := error_value error;
          "requestId" := VStr requestId ]}.

(** The calls to listeners that a request makes, from the way it completes. *)
Definition api_calls (endpoint requestId : string) (w : World) (c : Completion value)
    (evs : list Event) : Prop :=
  List.filter is_call evs
  = match c with
    | Normal data =>
        map (call_of (apiSuccess_data endpoint requestId data)) (registered "apiSuccess" w)
    | Throw error =>
        map (call_of (apiError_data endpoint requestId error)) (registered "apiError" w)
    end.

Lemma wp_emit_calls eventType data w Q :
  (∀ evs, silent evs →
          List.filter is_call evs
          = map (call_of (default_parameter VNull data)) (registered eventType w) →
          Q (Normal tt) (append evs w)) →
  wp (emit eventType data) w Q.
Proof.
  intros HQ. destruct (emit_spec eventType data w) as (evs & Hrun & Hev).
  unfold wp, completion, exec. rewrite Hrun. apply HQ.
  - apply silent_app; [by apply log_events_silent | by eapply emitted_silent].
  - rewrite List.filter_app. unfold emit_debug_events. rewrite filter_is_call_log. simpl.
    by eapply emitted_calls.
Qed.

Lemma wp_log_no_call level prefix message args w Q :
  (∀ evs, List.filter is_call evs = [] → Q (Normal tt) (append evs w)) →
  wp (log level prefix message args) w Q.
Proof. intros HQ. apply wp_log, HQ, filter_is_call_log. Qed.

Lemma set_fetches_compose f g w :
  set_fetches g (set_fetches f w) = set_fetches (λ n, g (f n)) w.
Proof. done. Qed.

Lemma wp_request_try_calls endpoint url requestId finalOptions w Q :
  (∀ evs,
     List.filter is_call evs
     = match settle (fetch_outcome env (fetches w) url (fetch_options finalOptions)) with
       | inl _ => []
       | inr data =>
           map (call_of (apiSuccess_data endpoint requestId data)) (registered "apiSuccess" w)
       end →
     Q (match settle (fetch_outcome env (fetches w) url (fetch_options finalOptions)) with
        | inl e => Throw e
        | inr data => Normal data
        end)
       (append evs (set_fetches S w))) →
  wp (request_try endpoint url requestId finalOptions) w Q.
Proof.
  intros HQ. unfold request_try, fetch.
  apply wp_bind, wp_bind, wp_get. cbv beta iota.
  apply wp_bind, wp_effect. cbv beta iota. apply wp_bind, wp_modify. cbv beta iota.
  apply wp_ret. rewrite set_fetches_append. cbv beta iota.
  destruct (fetch_outcome env (fetches w) url (fetch_options finalOptions))
    as [e|status statusText json]; cbn [settle] in *.
  - apply wp_throw. by apply HQ.
  - destruct (response_ok status); cbn [negb].
    + apply wp_bind, wp_lift. destruct json as [e|data].
      * by apply HQ.
      * apply wp_bind, wp_log_no_call. intros evs1 H1. cbv beta iota.
        apply wp_bind, wp_emit_calls. intros evs2 _ H2. cbv beta iota. apply wp_ret.
        rewrite !append_append. apply HQ.
        rewrite !List.filter_app, H1, H2. done.
    + apply wp_throw. by apply HQ.
Qed.

Lemma wp_request_catch_calls retryAttempts attempt endpoint url requestId error w Q :
  (∀ evs,
     List.filter is_call evs
     = (if Nat.eqb attempt retryAttempts
        then map (call_of (apiError_data endpoint requestId error)) (registered "apiError" w)
        else []) →
     Q (if Nat.eqb attempt retryAttempts then Throw error else Normal None) (append evs w)) →
  wp (request_catch retryAttempts attempt endpoint url requestId error) w Q.
Proof.
  intros HQ. unfold request_catch.
  apply wp_bind, wp_log_no_call. intros evs0 H0. cbv beta iota.
  destruct (Nat.eqb attempt retryAttempts).
  - apply wp_bind, wp_log_no_call. intros evs1 H1. cbv beta iota.
    apply wp_bind, wp_emit_calls. intros evs2 _ H2. cbv beta iota. apply wp_throw.
    rewrite !append_append. apply HQ. rewrite !List.filter_app, H0, H1, H2. done.
  - apply wp_bind, wp_effect. cbv beta iota. apply wp_ret.
    rewrite append_append. apply HQ. by rewrite List.filter_app, H0.
Qed.

Lemma wp_request_loop_calls retryAttempts endpoint url requestId finalOptions remaining :
  ∀ attempt w Q,
  (attempt + remaining = retryAttempts + 1)%nat →
  (1 ≤ remaining)%nat →
  (∀ evs f c, api_calls endpoint requestId w c evs → Q c (append evs (set_fetches f w))) →
  wp (request_loop remaining retryAttempts attempt endpoint url requestId finalOptions) w Q.
Proof.
  induction remaining as [|remaining IH]; intros attempt w Q Hround Hpos HQ; [lia|].
  cbn [request_loop].
  apply wp_bind, wp_try_catch, wp_bind, wp_request_try_calls. intros evs1 H1.
  destruct (settle (fetch_outcome env (fetches w) url (fetch_options finalOptions)))
    as [e|data].
  - apply wp_request_catch_calls. intros evs2 H2. revert H2.
    unfold registered. world_simpl. fold (registered "apiError" w).
    destruct (Nat.eqb attempt retryAttempts) eqn:Hlast; intros H2.
    + rewrite append_append. apply HQ. unfold api_calls.
      by rewrite List.filter_app, H1, H2.
    + apply Nat.eqb_neq in Hlast. rewrite append_append.
      apply IH; [lia..|]. intros evs3 f c H3.
      rewrite set_fetches_append, append_append, set_fetches_compose. apply HQ.
      revert H3. unfold api_calls, registered. world_simpl. intros H3.
      by rewrite !List.filter_app, H1, H2, H3.
  - apply wp_ret. cbv beta iota. apply wp_ret. by apply HQ.
Qed.

(** X14. A request tells its outcome to the listeners once, whatever the
    number of attempts it took: when it returns data, the listeners of
    'apiSuccess' are called, in order, with the endpoint, the data and the id
    of the request, and no other listener is; when it throws, the listeners of
    'apiError' are called with the endpoint, the error of the last attempt and
    the id, and no other listener is.  A failed attempt that is retried calls
    no listener.  The registry of listeners is not changed. *)
Theorem request_reports_once (endpoint : string) (options : gmap string value) (w : World) :
  let requestId := "api_" +:+ random_id env (ids w) in
  let w' := exec (request endpoint options) w in
  listeners w' = listeners w
  ∧ List.filter is_call (added w w')
    = match completion (request endpoint options) w with
      | Normal data =>
          map (call_of (apiSuccess_data endpoint requestId data)) (registered "apiSuccess" w)
      | Throw error =>
          map (call_of (apiError_data endpoint requestId error)) (registered "apiError" w)
      end.
Proof.
  intros requestId w'. subst w' requestId.
  wp_of_exec. unfold request.
  apply wp_bind, wp_fresh_id. cbv beta iota.
  apply wp_bind, wp_log_no_call. intros evs1 H1. cbv beta iota.
  apply wp_request_loop_calls; [done|unfold APP_CONFIG.api.retryAttempts; lia|].
  intros evs2 f c H2.
  rewrite (added_trace w _ (evs1 ++ evs2)) by (world_simpl; by rewrite <- app_assoc).
  split; [done|]. revert H2. unfold api_calls, registered. world_simpl. intros H2.
  by rewrite List.filter_app, H1, H2.
Qed.

(** ** The notification manager: registering and closing *)

(** The timers set, each with its delay. *)
Definition timers (evs : list Event) : list (TimerAction * Z) :=
  omap (λ e, match e with ETimeout action ms => Some (action, ms) | _ => None end) evs.

Lemma timers_app a b : timers (a ++ b) = timers a ++ timers b.
Proof. apply omap_app. Qed.

Lemma silent_timers evs : silent evs → timers evs = [].
Proof.
  unfold silent. induction evs as [|e evs IH]; [done|]. simpl.
  intros [He Hevs]%andb_prop. rewrite <- (IH Hevs). by destruct e.
Qed.

(** The argument of the event 'notificationShown'. *)
Definition notificationShown_data (toast : Toast) : value :=
  VObj {[ "id" := VStr (toastId toast); "message" := VStr (toastMessage toast);
          "type" := VStr (toastType toast) ]}.

(** The icon of a type that is a member of Object.prototype is that member,
    not the icon of 'info'. *)
Lemma getIcon_inherited type : type ∈ Object_prototype → getIcon type = IconInherited type.
Proof.
  intros Hin. unfold getIcon. rewrite (bool_decide_true _ Hin).
  unfold Object_prototype in Hin. rewrite !elem_of_cons, elem_of_nil in Hin.
  repeat destruct Hin as [->|Hin]; done.
Qed.

Lemma getIcon_default type :
  type ∉ ["success"; "error"; "warning"] → type ∉ Object_prototype →
  getIcon type = IconText "ℹ️".
Proof.
  intros Hown Hin. unfold getIcon. rewrite (bool_decide_false _ Hin).
  rewrite !not_elem_of_cons in Hown. destruct Hown as (H1 & H2 & H3 & _).
  apply String.eqb_neq in H1, H2, H3. rewrite H1, H2, H3.
  by destruct (String.eqb type "info").
Qed.

(** X15. NotificationManager.show, once the container exists: it returns the
    id of the notification; the notification is the last child of the
    container and is registered under its id, the other registrations being
    kept; the animation timer of 10 ms is set, and the timer that closes the
    notification is set exactly when the duration is positive (a duration of 0
    or less makes a notification that stays until it is closed by hand); the
    listeners of 'notificationShown' are called with the id, the message and
    the type.  The icon of the notification is [icons[type] || icons.info]:
    the icon of 'info' for a type that is none of success, error, warning and
    info and no member of Object.prototype, and the inherited member itself
    (a function for 'toString') for a type that names one. *)
Theorem show_registers (message type : string) (duration : Z) (children : list Toast)
    (w : World) :
  container (notificationManager w) = Some children →
  let toast := new_toast (ids w) message type in
  let w' := exec (show message type duration) w in
  let evs := added w w' in
  completion (show message type duration) w = Normal (toastId toast)
  ∧ container (notificationManager w') = Some (children ++ [toast])
  ∧ notifications (notificationManager w') !! toastId toast = Some toast
  ∧ (∀ other, other ≠ toastId toast →
       notifications (notificationManager w') !! other
       = notifications (notificationManager w) !! other)
  ∧ shown evs = [toast]
  ∧ timers evs
    = (AnimateToast (toastId toast), 10)
      :: (if 0 <? duration then [(CloseToast (toastId toast), duration)] else [])
  ∧ List.filter is_call evs
    = map (call_of (notificationShown_data toast)) (registered "notificationShown" w)
  ∧ (type ∈ Object_prototype → toastIcon toast = IconInherited type)
  ∧ (type ∉ ["success"; "error"; "warning"] → type ∉ Object_prototype →
     toastIcon toast = IconText "ℹ️").
Proof.
  intros Hcontainer toast w' evs. subst evs w' toast.
  wp_of_exec. unfold show.
  apply wp_bind, wp_fresh_id. cbv beta iota.
  apply wp_bind, wp_get. world_simpl. rewrite Hcontainer.
  fold (new_toast (ids w) message type).
  set (toast := new_toast (ids w) message type).
  apply wp_bind, wp_modify. cbv beta iota.
  apply wp_bind, wp_effect. cbv beta iota.
  apply wp_bind, wp_effect. cbv beta iota.
  apply wp_bind.
  assert (Htimer : ∀ Q' w0,
    Q' (Normal tt)
       (append (if 0 <? duration then [ETimeout (CloseToast (toastId toast)) duration] else [])
          w0) →
    wp (if 0 <? duration
        then effect (ETimeout (CloseToast (toastId toast)) duration)
        else ret tt) w0 Q').
  { intros Q' w0 HQ'. destruct (0 <? duration); [by apply wp_effect|].
    apply wp_ret. by rewrite append_nil in HQ'. }
  apply Htimer. cbv beta iota.
  apply wp_bind, wp_log. cbv beta iota.
  apply wp_bind, wp_emit_calls. intros evs2 Hsilent Hcalls. cbv beta iota.
  apply wp_ret. rewrite !append_append.
  match goal with
  | |- context [append ?evs _] => rewrite (added_trace w _ evs) by done
  end.
  world_simpl. cbn [container notifications].
  split; [done|]. split; [done|]. split; [apply lookup_insert_eq|].
  split; [intros other Hother; by apply lookup_insert_ne|].
  revert Hcalls. unfold registered. world_simpl. intros Hcalls.
  pose proof (silent_shown _ Hsilent) as Hshown.
  pose proof (silent_timers _ Hsilent) as Htimers.
  rewrite !shown_app, !timers_app, !List.filter_app, Hshown, Htimers, Hcalls.
  rewrite filter_is_call_log. unfold log_events.
  destruct (0 <? duration); destruct (_ <=? _)%nat;
    (split; [done|]; split; [done|]; split; [done|];
     split; [apply getIcon_inherited | apply getIcon_default]).
Qed.

(** The argument of the event 'notificationClosed'. *)
Definition notificationClosed_data (notificationId : string) : value :=
  VObj {[ "id" := VStr notificationId ]}.

(** X16. NotificationManager.close.  For an id that is not registered it
    does nothing at all.  For a registered id it sets the timer that removes
    the notification after the animation (250 ms) and calls the listeners of
    'notificationClosed'; the notification stays registered until that timer
    fires, so that closing it again in the meantime sets a second timer and
    tells the listeners a second time. *)
Theorem close_schedules_removal (notificationId : string) (w : World) :
  let w' := exec (close notificationId) w in
  completion (close notificationId) w = Normal tt
  ∧ notificationManager w' = notificationManager w
  ∧ (notifications (notificationManager w) !! notificationId = None → w' = w)
  ∧ (is_Some (notifications (notificationManager w) !! notificationId) →
     timers (added w w') = [(RemoveToast notificationId, APP_CONFIG.ui.animationDuration)]
     ∧ List.filter is_call (added w w')
       = map (call_of (notificationClosed_data notificationId)) (registered "notificationClosed" w)
     ∧ timers (added w (exec (close notificationId ;;; close notificationId) w))
       = [(RemoveToast notificationId, APP_CONFIG.ui.animationDuration);
          (RemoveToast notificationId, APP_CONFIG.ui.animationDuration)]).
Proof.
  intros w'. subst w'.
  assert (Hone : ∀ w0 toast Q,
    notifications (notificationManager w0) !! notificationId = Some toast →
    (∀ evs,
       timers evs = [(RemoveToast notificationId, APP_CONFIG.ui.animationDuration)] →
       List.filter is_call evs
       = map (call_of (notificationClosed_data notificationId)) (registered "notificationClosed" w0) →
       Q (Normal tt) (append evs w0)) →
    wp (close notificationId) w0 Q).
  { intros w0 toast Q Hsome HQ. unfold close.
    apply wp_bind, wp_get. cbv beta iota. rewrite Hsome.
    apply wp_bind, wp_effect. cbv beta iota.
    apply wp_bind, wp_log. cbv beta iota.
    apply wp_emit_calls. intros evs Hsilent Hcalls.
    rewrite !append_append. revert Hcalls. unfold registered. world_simpl. intros Hcalls.
    apply HQ.
    - rewrite !timers_app, (silent_timers _ Hsilent). unfold log_events.
      by destruct (_ <=? _)%nat.
    - by rewrite !List.filter_app, filter_is_call_log, Hcalls. }
  destruct (notifications (notificationManager w) !! notificationId) as [toast|] eqn:Hlookup.
  - split; [|split; [|split; [done|]]].
    + wp_of_exec. apply (Hone w toast); [done|]. by intros evs _ _.
    + wp_of_exec. apply (Hone w toast); [done|]. by intros evs _ _.
    + intros _. split; [|split].
      * wp_of_exec. apply (Hone w toast); [done|]. intros evs Ht _.
        by rewrite added_append.
      * wp_of_exec. apply (Hone w toast); [done|]. intros evs _ Hc.
        by rewrite added_append.
      * wp_of_exec. apply wp_bind, (Hone w toast); [done|]. intros evs1 Ht1 _.
        cbv beta iota. apply (Hone _ toast); [done|]. intros evs2 Ht2 _.
        rewrite append_append, added_append, timers_app, Ht1, Ht2. done.
  - assert (Hrun : close notificationId w = (Normal tt, w)).
    { unfold close, bind, get. by rewrite Hlookup. }
    unfold completion, exec. rewrite Hrun. simpl.
    split; [done|]. split; [done|]. split; [done|]. by intros [? ?].
Qed.

(** ** Invariants of the application's operations *)

(** [hoare P m Q]: from a world that satisfies [P], the computation [m] leaves
    a world that satisfies [Q], whether it returns or throws. *)
Definition hoare {A} (P : World → Prop) (m : M A) (Q : World → Prop) : Prop :=
  ∀ w, P w → Q (exec m w).

Definition preserves {A} (P : World → Prop) (m : M A) : Prop := hoare P m P.

(** The computation never throws. *)
Definition returns {A} (m : M A) : Prop := ∀ w, ∃ a, completion m w = Normal a.

Lemma exec_bind {A B} (m : M A) (k : A → M B) w :
  exec (bind m k) w
  = match completion m w with
    | Normal a => exec (k a) (exec m w)
    | Throw _ => exec m w
    end.
Proof. unfold exec, completion, bind. by destruct (m w) as [[a|e] w']. Qed.

Lemma exec_try_catch {A} (m : M A) handler w :
  exec (try_catch m handler) w
  = match completion m w with
    | Normal _ => exec m w
    | Throw e => exec (handler e) (exec m w)
    end.
Proof. unfold exec, completion, try_catch. by destruct (m w) as [[a|e] w']. Qed.

Lemma exec_try_finally {A} (m : M A) cleanup w :
  exec (try_finally m cleanup) w = exec cleanup (exec m w).
Proof.
  unfold exec, try_finally. destruct (m w) as [c w']. simpl.
  by destruct (cleanup w') as [[u|e] w''].
Qed.

Lemma hoare_bind {A B} P R Q (m : M A) (k : A → M B) :
  hoare P m R → (∀ a, hoare R (k a) Q) → (∀ w, R w → Q w) → hoare P (bind m k) Q.
Proof.
  intros Hm Hk HRQ w Hw. rewrite exec_bind. specialize (Hm w Hw).
  destruct (completion m w) as [a|e]; [by apply Hk | by apply HRQ].
Qed.

Lemma hoare_bind_returns {A B} P R Q (m : M A) (k : A → M B) :
  returns m → hoare P m R → (∀ a, hoare R (k a) Q) → hoare P (bind m k) Q.
Proof.
  intros Hret Hm Hk w Hw. rewrite exec_bind. destruct (Hret w) as [a ->].
  by apply Hk, Hm.
Qed.

Lemma preserves_bind {A B} P (m : M A) (k : A → M B) :
  preserves P m → (∀ a, preserves P (k a)) → preserves P (bind m k).
Proof. intros Hm Hk. by apply (hoare_bind P P P). Qed.

Lemma hoare_try_catch {A} P Q (m : M A) handler :
  hoare P m Q → (∀ e, preserves Q (handler e)) → hoare P (try_catch m handler) Q.
Proof.
  intros Hm Hh w Hw. rewrite exec_try_catch. specialize (Hm w Hw).
  destruct (completion m w) as [a|e]; [done | by apply Hh].
Qed.

Lemma hoare_try_finally {A} P R Q (m : M A) cleanup :
  hoare P m R → hoare R cleanup Q → hoare P (try_finally m cleanup) Q.
Proof. intros Hm Hc w Hw. rewrite exec_try_finally. by apply Hc, Hm. Qed.

Lemma preserves_ret {A} P (a : A) : preserves P (ret a).
Proof. by intros w Hw. Qed.

Lemma preserves_throw {A} P e : preserves P (@throw A e).
Proof. by intros w Hw. Qed.

Lemma preserves_get P : preserves P get.
Proof. by intros w Hw. Qed.

Lemma preserves_lift {A} P (r : JsError + A) : preserves P (lift r).
Proof. destruct r; [apply preserves_throw | apply preserves_ret]. Qed.

Lemma preserves_call_method {A} P name (method : option A) : preserves P (call_method name method).
Proof. destruct method; [apply preserves_ret | apply preserves_throw]. Qed.

Lemma returns_bookkeeping m : bookkeeping m → returns m.
Proof.
  intros Hm w. exists tt. apply (Hm w (λ c _, c = Normal tt)). by intros evs _.
Qed.

(** A predicate on worlds that does not look at the trace, at the counters of
    identifiers and fetches, nor at the notification manager: logging,
    emitting, requesting and notifying all preserve it. *)
Record Tolerant (P : World → Prop) : Prop := {
  tolerant_trace : ∀ f w, P w → P (set_trace f w);
  tolerant_ids : ∀ f w, P w → P (set_ids f w);
  tolerant_fetches : ∀ f w, P w → P (set_fetches f w);
  tolerant_notifications : ∀ f w, P w → P (set_notificationManager f w)
}.

Lemma preserves_bookkeeping P m : Tolerant P → bookkeeping m → preserves P m.
Proof.
  intros HP Hm w Hw. apply wp_exec, Hm. intros evs _.
  by apply (tolerant_trace P HP).
Qed.

Lemma preserves_log P level prefix message args :
  Tolerant P → preserves P (log level prefix message args).
Proof. intros HP w Hw. apply wp_exec, wp_log. by apply (tolerant_trace P HP). Qed.

Lemma preserves_emit P eventType data : Tolerant P → preserves P (emit eventType data).
Proof. intros HP. apply preserves_bookkeeping; [done | apply bookkeeping_emit]. Qed.

Lemma preserves_effect P e : Tolerant P → preserves P (effect e).
Proof. intros HP w Hw. by apply (tolerant_trace P HP). Qed.

Lemma preserves_setState P updates :
  Tolerant P →
  (∀ w, P w → P (set_state (λ st, updates ∪ st) w)) →
  preserves P (setState updates).
Proof.
  intros HP Hstate w Hw. apply wp_exec, wp_setState. intros evs _.
  by apply (tolerant_trace P HP), Hstate.
Qed.

Lemma preserves_request P endpoint options : Tolerant P → preserves P (request endpoint options).
Proof.
  intros HP w Hw. apply wp_exec, wp_request. intros evs _.
  by apply (tolerant_trace P HP), (tolerant_fetches P HP), (tolerant_ids P HP).
Qed.

(** show before the container exists: an identifier is drawn, and appending
    to null throws. *)
Lemma wp_show_unready message type duration w Q :
  container (notificationManager w) = None →
  Q (Throw (Error "Cannot read properties of null (reading 'appendChild')")) (set_ids S w) →
  wp (show message type duration) w Q.
Proof.
  intros Hcontainer HQ. unfold show.
  apply wp_bind, wp_fresh_id. cbv beta iota. apply wp_bind, wp_get. world_simpl.
  rewrite Hcontainer. by apply wp_throw.
Qed.

Lemma preserves_show P message type duration :
  Tolerant P → preserves P (show message type duration).
Proof.
  intros HP w Hw. apply wp_exec.
  destruct (container (notificationManager w)) as [children|] eqn:Hcontainer.
  - apply (wp_show message type duration children); [done|]. intros evs _.
    by apply (tolerant_trace P HP), (tolerant_notifications P HP), (tolerant_ids P HP).
  - apply wp_show_unready; [done|]. by apply (tolerant_ids P HP).
Qed.

Lemma preserves_NotificationManager_error P message :
  Tolerant P → preserves P (NotificationManager_error message).
Proof. intros HP. unfold NotificationManager_error. by apply preserves_show. Qed.

Lemma preserves_NotificationManager_success P message :
  Tolerant P → preserves P (NotificationManager_success message).
Proof. intros HP. unfold NotificationManager_success. by apply preserves_show. Qed.

Lemma preserves_modify P f : (∀ w, P w → P (f w)) → preserves P (modify f).
Proof. intros Hf w Hw. by apply Hf. Qed.

Lemma preserves_attaches P m :
  Tolerant P → (∀ f w, P w → P (set_domListeners f w)) → attaches m → preserves P m.
Proof.
  intros HP Hdom Hm w Hw. apply wp_exec, Hm. intros evs f _.
  by apply (tolerant_trace P HP), Hdom.
Qed.

(** The computation never throws from a world that satisfies [P]. *)
Definition returns_from {A} (P : World → Prop) (m : M A) : Prop :=
  ∀ w, P w → ∃ a, completion m w = Normal a.

Lemma hoare_bind_returns_from {A B} P R Q (m : M A) (k : A → M B) :
  returns_from P m → hoare P m R → (∀ a, hoare R (k a) Q) → hoare P (bind m k) Q.
Proof.
  intros Hret Hm Hk w Hw. rewrite exec_bind. destruct (Hret w Hw) as [a ->].
  by apply Hk, Hm.
Qed.

Lemma returns_startLoading loadId message showProgress :
  returns_from message_element (startLoading loadId message showProgress).
Proof.
  intros w Hw. exists tt.
  apply (wp_startLoading_ready loadId message showProgress w (λ c _, c = Normal tt));
    [done|]. by intros evs _.
Qed.

Lemma message_element_tolerant : Tolerant message_element.
Proof. by split. Qed.

Lemma tolerant_and P Q : Tolerant P → Tolerant Q → Tolerant (λ w, P w ∧ Q w).
Proof.
  intros HP HQ. split; intros f w [Hp Hq]; split;
    first [ by apply (tolerant_trace P HP) | by apply (tolerant_trace Q HQ)
          | by apply (tolerant_ids P HP) | by apply (tolerant_ids Q HQ)
          | by apply (tolerant_fetches P HP) | by apply (tolerant_fetches Q HQ)
          | by apply (tolerant_notifications P HP) | by apply (tolerant_notifications Q HQ) ].
Qed.

(** *** What the loading manager leaves alone *)

(** A predicate that does not look at the loading manager nor at the loading
    flag is preserved by the operations of the loading manager, whether they
    return or throw. *)
Record Unloaded (P : World → Prop) : Prop := {
  unloaded_tolerant : Tolerant P;
  unloaded_manager : ∀ f w, P w → P (set_loadingManager f w);
  unloaded_flag : ∀ v w, P w → P (set_state (λ st, {[ "loading" := v ]} ∪ st) w)
}.

Lemma preserves_startLoading P loadId message showProgress :
  Unloaded P → preserves P (startLoading loadId message showProgress).
Proof.
  intros HP w Hw. apply wp_exec, wp_startLoading.
  - intros _ evs _. apply (tolerant_trace P (unloaded_tolerant P HP)).
    by apply (unloaded_flag P HP), (unloaded_manager P HP), (unloaded_manager P HP).
  - intros o _ _. by apply (unloaded_manager P HP), (unloaded_manager P HP).
Qed.

Lemma preserves_stopLoading P loadId : Unloaded P → preserves P (stopLoading loadId).
Proof.
  intros HP w Hw. apply wp_exec, wp_stopLoading. intros evs _.
  apply (tolerant_trace P (unloaded_tolerant P HP)). unfold stopped.
  case_bool_decide.
  - by apply (unloaded_flag P HP), (unloaded_manager P HP).
  - rewrite set_state_same. by apply (unloaded_manager P HP).
Qed.

Lemma preserves_updateProgress P loadId progress status :
  Unloaded P → preserves P (updateProgress loadId progress status).
Proof.
  intros HP w Hw. apply wp_exec, wp_updateProgress. intros evs _.
  by apply (tolerant_trace P (unloaded_tolerant P HP)), (unloaded_manager P HP).
Qed.

Lemma preserves_LoadingManager_initialize P :
  Unloaded P → preserves P LoadingManager_initialize.
Proof.
  intros HP w Hw. apply wp_exec, wp_LoadingManager_initialize. intros evs _.
  by apply (tolerant_trace P (unloaded_tolerant P HP)), (unloaded_manager P HP).
Qed.

(** *** startGeneration *)

(** startGeneration, for a predicate that each of its steps preserves: the
    steps are those of the code, whatever the form, the validation and the
    backend do. *)
Lemma hoare_startGeneration P Q :
  Tolerant P →
  (∀ result w, P w → P (set_state (λ st, {[ "currentGeneration" := result ]} ∪ st) w)) →
  preserves P (startLoading "main_generation" "Génération en cours..." true) →
  hoare P (stopLoading "main_generation") Q →
  hoare P startGeneration Q.
Proof.
  intros HP Hstate Hstart Hstop. unfold startGeneration.
  apply (hoare_bind_returns P P Q);
    [by apply returns_bookkeeping, bookkeeping_log | by apply preserves_log |]. intros _.
  apply (hoare_try_finally P P Q); [|done].
  apply hoare_try_catch.
  - unfold startGeneration_try.
    apply preserves_bind; [apply preserves_call_method|]. intros r1.
    apply preserves_bind; [apply preserves_lift|]. intros formData.
    apply preserves_bind; [apply preserves_call_method|]. intros validate.
    apply preserves_bind; [apply preserves_lift|]. intros validation.
    apply preserves_bind; [apply preserves_lift|]. intros valid.
    destruct (negb (to_boolean valid)).
    + apply preserves_bind; [by apply preserves_NotificationManager_error|]. intros _.
      apply preserves_ret.
    + apply preserves_bind; [done|]. intros _.
      apply preserves_bind; [by apply preserves_request|]. intros result.
      apply preserves_bind; [apply preserves_lift|]. intros success.
      destruct (to_boolean success).
      * apply preserves_bind; [by apply preserves_NotificationManager_success|]. intros _.
        apply preserves_bind; [apply preserves_setState; [done|apply Hstate]|]. intros _.
        by apply preserves_emit.
      * apply preserves_bind; [apply preserves_lift|]. intros error. apply preserves_throw.
  - intros e. apply preserves_bind; [by apply preserves_log|]. intros _.
    apply preserves_bind; [by apply preserves_NotificationManager_error|]. intros _.
    apply preserves_ret.
Qed.

Lemma loading_invariant_tolerant : Tolerant loading_invariant.
Proof. by split. Qed.

Lemma loading_invariant_state key v w :
  key ≠ "loading" →
  loading_invariant w → loading_invariant (set_state (λ st, {[ key := v ]} ∪ st) w).
Proof.
  intros Hkey. unfold loading_invariant, overlay_display, loading_flag. world_simpl.
  by rewrite lookup_union_r by by apply lookup_singleton_ne.
Qed.

(** The invariant is one stopLoading away: this is what holds between the
    startLoading and the stopLoading of a load, also when startLoading has
    thrown on an overlay without .loading-message. *)
Definition settles (loadId : string) (w : World) : Prop :=
  loading_invariant (stopped loadId w).

Lemma settles_tolerant loadId : Tolerant (settles loadId).
Proof. by split. Qed.

Lemma settles_state loadId key v w :
  key ≠ "loading" →
  settles loadId w → settles loadId (set_state (λ st, {[ key := v ]} ∪ st) w).
Proof.
  intros Hkey. unfold settles, stopped, loading_invariant, overlay_display, loading_flag.
  world_simpl. case_bool_decide; cbn [activeLoads hide_overlay remove_load overlay].
  - by rewrite !lookup_merged.
  - by rewrite lookup_union_r by by apply lookup_singleton_ne.
Qed.

Lemma settles_start loadId message showProgress :
  preserves (settles loadId) (startLoading loadId message showProgress).
Proof.
  intros w Hw. apply wp_exec, wp_startLoading.
  - intros _ evs _. apply stopped_invariant, loading_invariant_append, started_invariant.
  - intros o Ho Hnone. revert Hw.
    unfold settles, stopped, loading_invariant, overlay_display, loading_flag. world_simpl.
    cbn [activeLoads show_overlay_only set_overlay add_load].
    assert (Hset : ({[loadId]} ∪ activeLoads (loadingManager w)) ∖ {[loadId]}
                   = activeLoads (loadingManager w) ∖ {[loadId]}).
    { apply set_eq. intros x. rewrite !elem_of_difference, !elem_of_union,
        elem_of_singleton. tauto. }
    rewrite Hset.
    case_bool_decide as Hlast;
      cbn [activeLoads hide_overlay remove_load overlay show_overlay_only set_overlay add_load];
      rewrite ?Hset.
    + intros Hw. destruct (decide (_ = ∅)) as [Hempty|Hsome].
      * split; [by intros o' [= <-]|apply lookup_merged].
      * exfalso. apply Hsome. by apply leibniz_equiv, size_empty_iff.
    + destruct (decide (_ = ∅)) as [Hempty|Hsome].
      * exfalso. apply Hlast. by rewrite Hempty.
      * intros [_ Hflag]. split; [by intros o' [= <-]|done].
Qed.

Lemma settles_stop loadId : hoare (settles loadId) (stopLoading loadId) loading_invariant.
Proof. intros w Hw. apply wp_exec, wp_stopLoading. by intros evs _. Qed.

Lemma startGeneration_invariant w :
  loading_invariant w → loading_invariant (exec startGeneration w).
Proof.
  intros Hinv.
  apply (hoare_startGeneration (settles "main_generation")).
  - apply settles_tolerant.
  - intros result w0. by apply settles_state.
  - apply settles_start.
  - apply settles_stop.
  - by apply stopped_invariant.
Qed.

Lemma stopLoading_activeLoads loadId w :
  activeLoads (loadingManager (exec (stopLoading loadId) w))
  = activeLoads (loadingManager w) ∖ {[ loadId ]}.
Proof.
  wp_of_exec. apply wp_stopLoading. intros evs _.
  unfold stopped. world_simpl. by case_bool_decide.
Qed.

(** The load is added whether startLoading returns or throws. *)
Lemma startLoading_activeLoads loadId message showProgress w :
  activeLoads (loadingManager (exec (startLoading loadId message showProgress) w))
  = {[ loadId ]} ∪ activeLoads (loadingManager w).
Proof.
  wp_of_exec. apply wp_startLoading.
  - intros _ evs _. world_simpl. by rewrite show_overlay_activeLoads.
  - by intros o _ _.
Qed.

(** The active loads but for one id: what a startLoading and a stopLoading of
    that id leave alone. *)
Definition other_loads (loadId : string) (loads : gset string) (w : World) : Prop :=
  activeLoads (loadingManager w) ∖ {[ loadId ]} = loads ∖ {[ loadId ]}.

Lemma other_loads_tolerant loadId loads : Tolerant (other_loads loadId loads).
Proof. by split. Qed.

Lemma other_loads_start loadId loads message showProgress :
  preserves (other_loads loadId loads) (startLoading loadId message showProgress).
Proof.
  intros w Hw. unfold other_loads in *. rewrite startLoading_activeLoads, <- Hw.
  apply set_eq. intros x. rewrite !elem_of_difference, elem_of_union. tauto.
Qed.

Lemma other_loads_stop loadId loads :
  hoare (other_loads loadId loads) (stopLoading loadId)
    (λ w, activeLoads (loadingManager w) = loads ∖ {[ loadId ]}).
Proof. intros w Hw. by rewrite stopLoading_activeLoads. Qed.

Lemma startGeneration_activeLoads w :
  activeLoads (loadingManager (exec startGeneration w))
  = activeLoads (loadingManager w) ∖ {[ "main_generation" ]}.
Proof.
  apply (hoare_startGeneration (other_loads "main_generation" (activeLoads (loadingManager w)))).
  - apply other_loads_tolerant.
  - by intros result w0.
  - apply other_loads_start.
  - apply other_loads_stop.
  - done.
Qed.

(** What neither startGeneration nor the bootstrap touches: the registry of
    listeners, the subscribers, the level of the logger, and the keys of the
    state other than the given ones. *)
Definition untouched (keys : list string) (w0 w : World) : Prop :=
  listeners w = listeners w0
  ∧ subscribers w = subscribers w0
  ∧ currentLevel w = currentLevel w0
  ∧ ∀ key, key ∉ keys → state w !! key = state w0 !! key.

Lemma untouched_tolerant keys w0 : Tolerant (untouched keys w0).
Proof. by split. Qed.

Lemma untouched_state keys w0 key v w :
  key ∈ keys →
  untouched keys w0 w → untouched keys w0 (set_state (λ st, {[ key := v ]} ∪ st) w).
Proof.
  intros Hkey (Hl & Hs & Hc & Hstate). split; [done|]. split; [done|]. split; [done|].
  intros key' Hkey'. world_simpl. rewrite lookup_union_r; [by apply Hstate|].
  apply lookup_singleton_ne. by intros ->.
Qed.

Lemma untouched_unloaded keys w0 : "loading" ∈ keys → Unloaded (untouched keys w0).
Proof.
  intros Hkey. split; [apply untouched_tolerant | by intros f w | ].
  intros v w. by apply untouched_state.
Qed.

(** X17. What startGeneration never touches, whatever the form, the
    validation and the backend do, and whether or not the notification manager
    is ready: the registry of listeners, the subscribers, the level of the
    logger, the modules and the ready flag of the application, the handlers
    attached to the page, every key of the state other than 'loading' and
    'currentGeneration', and the active loads other than 'main_generation',
    which is not active when it ends. *)
Theorem startGeneration_leaves_the_rest (w : World) :
  let w' := exec startGeneration w in
  listeners w' = listeners w
  ∧ subscribers w' = subscribers w
  ∧ currentLevel w' = currentLevel w
  ∧ app w' = app w
  ∧ domListeners w' = domListeners w
  ∧ (∀ key, key ≠ "loading" → key ≠ "currentGeneration" → state w' !! key = state w !! key)
  ∧ activeLoads (loadingManager w') = activeLoads (loadingManager w) ∖ {[ "main_generation" ]}
  ∧ "main_generation" ∉ activeLoads (loadingManager w').
Proof.
  intros w'. subst w'.
  assert (Hloading : "loading" ∈ ["loading"; "currentGeneration"]) by (by left).
  assert (H1 : untouched ["loading"; "currentGeneration"] w (exec startGeneration w)).
  { apply (hoare_startGeneration (untouched ["loading"; "currentGeneration"] w)).
    - apply untouched_tolerant.
    - intros result w0. apply untouched_state. right. by left.
    - by apply preserves_startLoading, untouched_unloaded.
    - by apply preserves_stopLoading, untouched_unloaded.
    - done. }
  assert (Hframe : Unloaded (λ w0, app w0 = app w ∧ domListeners w0 = domListeners w))
    by (by split; [split|..]).
  assert (H2 : (λ w0, app w0 = app w ∧ domListeners w0 = domListeners w) (exec startGeneration w)).
  { apply (hoare_startGeneration (λ w0, app w0 = app w ∧ domListeners w0 = domListeners w)).
    - by split.
    - by intros result w0.
    - by apply preserves_startLoading.
    - by apply preserves_stopLoading.
    - done. }
  destruct H1 as (Hl & Hs & Hc & Hstate). destruct H2 as (Ha & Hd).
  pose proof (startGeneration_activeLoads w) as Hloads.
  split; [done|]. split; [done|]. split; [done|]. split; [done|]. split; [done|].
  split; [|split; [done|]].
  - intros key H1 H2. apply Hstate. rewrite !not_elem_of_cons. split; [done|]. split; [done|].
    apply not_elem_of_nil.
  - rewrite Hloads, elem_of_difference, elem_of_singleton. tauto.
Qed.

(** X18. startGeneration maintains the invariant of the loading manager,
    whatever the form, the validation and the backend do, and also when its
    startLoading throws on an overlay without .loading-message.  So, when no
    other load is active as it starts, it ends with no active load, the
    overlay hidden and the loading flag false: an exception on the way does
    not leave the page under the overlay. *)
Theorem startGeneration_keeps_loading_invariant (w : World) :
  loading_invariant w →
  let w' := exec startGeneration w in
  loading_invariant w'
  ∧ (activeLoads (loadingManager w) ⊆ {[ "main_generation" ]} →
     activeLoads (loadingManager w') = ∅
     ∧ overlay_display "none" w' ∧ loading_flag false w').
Proof.
  intros Hinv w'. subst w'.
  pose proof (startGeneration_invariant w Hinv) as Hinv'.
  split; [done|]. intros Hsub.
  assert (Hempty : activeLoads (loadingManager (exec startGeneration w)) = ∅).
  { rewrite startGeneration_activeLoads.
    apply set_eq. intros x. rewrite elem_of_difference, elem_of_empty.
    split; [|done]. intros [Hx Hne]. apply Hne, Hsub, Hx. }
  split; [done|]. unfold loading_invariant in Hinv'. by rewrite decide_True in Hinv'.
Qed.

(** *** The bootstrap *)

Lemma returns_LoadingManager_initialize : returns LoadingManager_initialize.
Proof. intros w. exists tt. apply LoadingManager_initialize_spec. Qed.

Lemma returns_NotificationManager_initialize : returns NotificationManager_initialize.
Proof.
  intros w. exists tt.
  apply (wp_NotificationManager_initialize w (λ c _, c = Normal tt)). by intros evs _.
Qed.

Lemma returns_loadModules : returns_from message_element loadModules.
Proof.
  intros w Hw. exists tt. apply (wp_loadModules w (λ c _, c = Normal tt)); [done|].
  by intros w' _.
Qed.

Lemma preserves_NotificationManager_initialize P :
  Tolerant P → preserves P NotificationManager_initialize.
Proof.
  intros HP w Hw. apply wp_exec, wp_NotificationManager_initialize. intros evs _.
  by apply (tolerant_trace P HP), (tolerant_notifications P HP).
Qed.

Lemma preserves_loadModule P name path :
  Tolerant P → (∀ f w, P w → P (set_app f w)) → preserves P (loadModule name path).
Proof.
  intros HP Happ. unfold loadModule.
  apply preserves_bind; [by apply preserves_effect|]. intros _.
  destruct (script_outcome env path) as [|registered]; [apply preserves_throw|].
  destruct (to_boolean registered); [|apply preserves_throw].
  apply preserves_bind; [apply preserves_modify, Happ|]. intros _. apply preserves_ret.
Qed.

(** The loop of loadModules and what follows it in the try block. *)
Lemma preserves_loadModules_try P :
  Tolerant P →
  (∀ f w, P w → P (set_app f w)) →
  (∀ progress status, preserves P (updateProgress "modules_loading" progress status)) →
  preserves P
    (loadModules_loop "modules_loading" (length modulesToLoad) 0 modulesToLoad ;;;
     w <- get ;;
     logger_info ("✅ " +:+ pretty (size (modules (app w))) +:+ " modules chargés") []).
Proof.
  intros HP Happ Hupdate. apply preserves_bind.
  - generalize (length modulesToLoad) as n. generalize 0%nat. generalize modulesToLoad.
    intros rest. induction rest as [|module rest IH]; intros i n; simpl.
    + apply preserves_ret.
    + apply preserves_bind; [|intros _; apply IH]. unfold loadModules_round.
      apply preserves_bind; [apply Hupdate|]. intros _.
      apply hoare_try_catch.
      * apply preserves_bind; [by apply preserves_loadModule|]. intros _.
        by apply preserves_log.
      * intros e. by apply preserves_log.
  - intros _. apply preserves_bind; [apply preserves_get|]. intros w0.
    by apply preserves_log.
Qed.

(** loadModules, for predicates that its steps establish and preserve, from
    a world whose overlay has its .loading-message. *)
Lemma hoare_loadModules P0 P1 P2 :
  Tolerant P0 → Tolerant P1 →
  (∀ w, P0 w → message_element w) →
  hoare P0 (startLoading "modules_loading" "Chargement des modules..." true) P1 →
  (∀ f w, P1 w → P1 (set_app f w)) →
  (∀ progress status, preserves P1 (updateProgress "modules_loading" progress status)) →
  hoare P1 (stopLoading "modules_loading") P2 →
  hoare P0 loadModules P2.
Proof.
  intros HP0 HP1 Hready Hstart Happ Hupdate Hstop. unfold loadModules.
  apply (hoare_bind_returns P0 P0 P2);
    [by apply returns_bookkeeping, bookkeeping_log | by apply preserves_log |]. intros _.
  apply (hoare_bind_returns_from P0 P1 P2); [|done|].
  { intros w Hw. by apply returns_startLoading, Hready. }
  intros _.
  apply (hoare_try_finally P1 P1 P2); [|done].
  by apply preserves_loadModules_try.
Qed.

(** loadModules, for a predicate that all its steps preserve, on any
    overlay. *)
Lemma preserves_loadModules P :
  Unloaded P → (∀ f w, P w → P (set_app f w)) → preserves P loadModules.
Proof.
  intros HP Happ. pose proof (unloaded_tolerant P HP) as Htolerant. unfold loadModules.
  apply preserves_bind; [by apply preserves_log|]. intros _.
  apply preserves_bind; [by apply preserves_startLoading|]. intros _.
  apply (hoare_try_finally P P P); [|by apply preserves_stopLoading].
  apply preserves_loadModules_try; [done..|].
  intros progress status. by apply preserves_updateProgress.
Qed.

(** What follows loadModules in the try block of initialize. *)
Lemma preserves_initialize_rest P :
  Tolerant P →
  (∀ f w, P w → P (set_app f w)) →
  (∀ f w, P w → P (set_domListeners f w)) →
  (∀ v w, P w → P (set_state (λ st, {[ "isMobile" := v ]} ∪ st) w)) →
  (∀ v w, P w → P (set_state (λ st, {[ "initialized" := v ]} ∪ st) w)) →
  preserves P
    (setupGlobalEventListeners ;;;
     initializeUI ;;;
     modify (set_app (λ a, {| modules := modules a; initialized := true |})) ;;;
     setState {[ "initialized" := VBool true ]} ;;;
     logger_info "✅ Application initialisée avec succès" [] ;;;
     NotificationManager_success "Application chargée avec succès" ;;;
     emit "appInitialized" VUndefined).
Proof.
  intros HP Happ Hdom Hmobile Hready.
  apply preserves_bind;
    [apply preserves_attaches; [done | apply Hdom | apply attaches_setupGlobalEventListeners]|].
  intros _.
  apply preserves_bind.
  { intros w Hw. apply wp_exec, wp_initializeUI. intros evs f _.
    by apply (tolerant_trace P HP), Hmobile, Hdom. }
  intros _. apply preserves_bind; [apply preserves_modify, Happ|]. intros _.
  apply preserves_bind; [apply preserves_setState; [done | apply Hready]|]. intros _.
  apply preserves_bind; [by apply preserves_log|]. intros _.
  apply preserves_bind; [by apply preserves_NotificationManager_success|]. intros _.
  by apply preserves_emit.
Qed.

Lemma preserves_initialize_catch P e :
  Tolerant P →
  preserves P
    (logger_error "❌ Échec de l'initialisation de l'application:" [error_value e] ;;;
     NotificationManager_error "Erreur lors du chargement de l'application" ;;;
     @throw unit e).
Proof.
  intros HP. apply preserves_bind; [by apply preserves_log|]. intros _.
  apply preserves_bind; [by apply preserves_NotificationManager_error|]. intros _.
  apply preserves_throw.
Qed.

(** initialize, for predicates that its steps establish and preserve, on a
    page whose overlay has its .loading-message. *)
Lemma hoare_initialize Pinit P0 P1 P2 :
  (∀ f w, Pinit w → Pinit (set_trace f w)) →
  Tolerant P0 → Tolerant P1 → Tolerant P2 →
  (∀ w, P0 w → message_element w) →
  hoare Pinit LoadingManager_initialize P0 →
  hoare P0 (startLoading "modules_loading" "Chargement des modules..." true) P1 →
  (∀ f w, P1 w → P1 (set_app f w)) →
  (∀ progress status, preserves P1 (updateProgress "modules_loading" progress status)) →
  hoare P1 (stopLoading "modules_loading") P2 →
  (∀ f w, P2 w → P2 (set_app f w)) →
  (∀ f w, P2 w → P2 (set_domListeners f w)) →
  (∀ v w, P2 w → P2 (set_state (λ st, {[ "isMobile" := v ]} ∪ st) w)) →
  (∀ v w, P2 w → P2 (set_state (λ st, {[ "initialized" := v ]} ∪ st) w)) →
  hoare Pinit initialize P2.
Proof.
  intros Htrace HP0 HP1 HP2 Hmessage Hinit Hstart Happ1 Hupdate Hstop Happ2 Hdom Hmobile Hready.
  unfold initialize.
  apply (hoare_bind_returns Pinit Pinit P2);
    [by apply returns_bookkeeping, bookkeeping_log | |].
  { intros w Hw. apply wp_exec, wp_log. by apply Htrace. }
  intros _. apply hoare_try_catch; [|intros e; by apply preserves_initialize_catch].
  apply (hoare_bind_returns Pinit P0 P2); [apply returns_LoadingManager_initialize|done|].
  intros _.
  apply (hoare_bind_returns P0 P0 P2);
    [apply returns_NotificationManager_initialize
    |by apply preserves_NotificationManager_initialize|].
  intros _.
  apply (hoare_bind_returns_from P0 P2 P2);
    [|by apply (hoare_loadModules P0 P1 P2)|].
  { intros w Hw. by apply returns_loadModules, Hmessage. }
  intros _. by apply preserves_initialize_rest.
Qed.

(** initialize, for a predicate that all its steps preserve, on any page. *)
Lemma preserves_initialize P :
  Unloaded P →
  (∀ f w, P w → P (set_app f w)) →
  (∀ f w, P w → P (set_domListeners f w)) →
  (∀ v w, P w → P (set_state (λ st, {[ "isMobile" := v ]} ∪ st) w)) →
  (∀ v w, P w → P (set_state (λ st, {[ "initialized" := v ]} ∪ st) w)) →
  preserves P initialize.
Proof.
  intros HP Happ Hdom Hmobile Hready.
  pose proof (unloaded_tolerant P HP) as Htolerant. unfold initialize.
  apply preserves_bind; [by apply preserves_log|]. intros _.
  apply hoare_try_catch; [|intros e; by apply preserves_initialize_catch].
  apply preserves_bind; [by apply preserves_LoadingManager_initialize|]. intros _.
  apply preserves_bind; [by apply preserves_NotificationManager_initialize|]. intros _.
  apply preserves_bind; [by apply preserves_loadModules|]. intros _.
  by apply preserves_initialize_rest.
Qed.

Lemma initialized_ready w :
  page_message_element w → message_element (exec LoadingManager_initialize w).
Proof.
  intros Hpage. unfold exec. rewrite LoadingManager_initialize_run. cbn [snd].
  exact (initialized_message_element _ (λ nm, nm) w Hpage).
Qed.

(** On a page whose overlay has its .loading-message, initialize establishes
    the invariant of the loading manager. *)
Lemma initialize_invariant w :
  page_message_element w → loading_invariant (exec initialize w).
Proof.
  apply (hoare_initialize page_message_element message_element loading_invariant
           loading_invariant).
  - done.
  - apply message_element_tolerant.
  - apply loading_invariant_tolerant.
  - apply loading_invariant_tolerant.
  - done.
  - intros w0. apply initialized_ready.
  - intros w0 Hw0. apply wp_exec, wp_startLoading_ready; [done|]. intros evs _.
    apply loading_invariant_append, started_invariant.
  - by intros f w0.
  - intros progress status w0 Hw0. apply wp_exec, wp_updateProgress. intros evs _.
    unfold loading_invariant, overlay_display, loading_flag, progress_update in *.
    world_simpl. by case_bool_decide.
  - intros w0 Hw0. apply wp_exec, wp_stopLoading. intros evs _.
    by apply loading_invariant_append, stopped_invariant.
  - by intros f w0.
  - by intros f w0.
  - intros v w0. by apply loading_invariant_state.
  - intros v w0. by apply loading_invariant_state.
Qed.

Lemma initialize_activeLoads w :
  page_message_element w →
  activeLoads (loadingManager (exec initialize w))
  = activeLoads (loadingManager w) ∖ {[ "modules_loading" ]}.
Proof.
  intros Hpage. set (loads := activeLoads (loadingManager w)).
  apply (hoare_initialize
           (λ w0, page_message_element w0 ∧ other_loads "modules_loading" loads w0)
           (λ w0, message_element w0 ∧ other_loads "modules_loading" loads w0)
           (other_loads "modules_loading" loads)
           (λ w0, activeLoads (loadingManager w0) = loads ∖ {[ "modules_loading" ]})).
  - by intros f w0.
  - apply tolerant_and; [apply message_element_tolerant | apply other_loads_tolerant].
  - apply other_loads_tolerant.
  - by split.
  - by intros w0 [? _].
  - intros w0 [Hpage0 Hw0]. split; [by apply initialized_ready|]. unfold other_loads in *.
    destruct (LoadingManager_initialize_spec w0) as [_ ->].
    unfold initialized_loadingManager. cbv zeta. by destruct (getElementById _ _).
  - intros w0 [_ Hw0]. by apply other_loads_start.
  - by intros f w0.
  - intros progress status w0 Hw0. unfold other_loads in *.
    apply wp_exec, wp_updateProgress. intros evs _. world_simpl.
    unfold progress_update. by case_bool_decide.
  - apply other_loads_stop.
  - by intros f w0.
  - by intros f w0.
  - by intros v w0.
  - by intros v w0.
  - done.
Qed.

Lemma has_overlay_tolerant : Tolerant has_overlay.
Proof. by split. Qed.

Lemma initialize_overlay w : page_message_element w → has_overlay (exec initialize w).
Proof.
  apply (hoare_initialize page_message_element
           (λ w0, message_element w0 ∧ has_overlay w0) has_overlay has_overlay).
  - done.
  - apply tolerant_and; [apply message_element_tolerant | apply has_overlay_tolerant].
  - apply has_overlay_tolerant.
  - apply has_overlay_tolerant.
  - by intros w0 [? _].
  - intros w0 Hw0. split; [by apply initialized_ready|]. unfold has_overlay.
    destruct (LoadingManager_initialize_spec w0) as [_ ->].
    unfold initialized_loadingManager. cbv zeta. by destruct (getElementById _ _).
  - intros w0 [Hready [o Ho]]. apply wp_exec, wp_startLoading_ready; [done|]. intros evs _.
    unfold has_overlay. world_simpl.
    unfold show_overlay, add_load. cbn [overlay]. by rewrite Ho.
  - by intros f w0.
  - intros progress status w0 [o Ho]. apply wp_exec, wp_updateProgress. intros evs _.
    unfold has_overlay. world_simpl. unfold progress_update. by case_bool_decide.
  - intros w0 Hw0. apply wp_exec, wp_stopLoading. intros evs _.
    by apply stopped_has_overlay.
  - by intros f w0.
  - by intros f w0.
  - by intros v w0.
  - by intros v w0.
Qed.

Lemma initialize_untouched w :
  untouched ["loading"; "isMobile"; "initialized"] w (exec initialize w).
Proof.
  set (keys := ["loading"; "isMobile"; "initialized"]).
  assert (Hloading : "loading" ∈ keys) by (by left).
  assert (HisMobile : "isMobile" ∈ keys) by (right; by left).
  assert (Hinitialized : "initialized" ∈ keys) by (right; right; by left).
  apply (preserves_initialize (untouched keys w)).
  - by apply untouched_unloaded.
  - by intros f w0.
  - by intros f w0.
  - intros v w0. by apply untouched_state.
  - intros v w0. by apply untouched_state.
  - done.
Qed.

(** The bootstrap on a page whose overlay has no .loading-message: the
    startLoading of loadModules throws, outside the try block that would stop
    the load, and initialize reports the failure and throws in turn. *)
Lemma wp_initialize_incomplete o w Q :
  getElementById (overlay (loadingManager w)) (doc_loadingOverlay (document env)) = Some o →
  loadingMessage o = None →
  (∀ w' evs toast,
     trace w' = trace w ++ evs →
     scripts evs = [] →
     shown evs = [toast] →
     toastType toast = "error" →
     toastMessage toast = "Erreur lors du chargement de l'application" →
     loadingManager w'
     = show_overlay_only (add_load "modules_loading" (initialized_loadingManager (loadingManager w))) →
     state w' = state w →
     app w' = app w →
     Q (Throw no_message_element) w') →
  wp initialize w Q.
Proof.
  intros Hfound Hnone HQ. unfold initialize.
  apply wp_bind, wp_log_silent; [done|]. intros evs0 H0. cbv beta iota.
  apply wp_try_catch.
  apply wp_bind, wp_LoadingManager_initialize. intros evs1 H1. cbv beta iota.
  apply wp_bind, wp_NotificationManager_initialize. intros evs2 H2. cbv beta iota.
  apply wp_bind. unfold loadModules.
  apply wp_bind, wp_log_silent; [done|]. intros evs3 H3. cbv beta iota.
  assert (Hoverlay : overlay (initialized_loadingManager (loadingManager w)) = Some o)
    by (unfold initialized_loadingManager; cbv zeta; by rewrite Hfound).
  apply wp_bind, wp_startLoading.
  { intros Hready. exfalso. revert Hready. unfold message_element. world_simpl.
    rewrite Hoverlay, Hnone. by intros [? ?]. }
  intros o' _ _.
  apply wp_bind, wp_log_silent; [done|]. intros evs4 H4. cbv beta iota.
  apply wp_bind. unfold NotificationManager_error.
  eapply wp_show; [world_simpl; reflexivity|]. world_simpl. intros evs5 H5. cbv beta iota.
  apply wp_throw.
  eapply (HQ _ (evs0 ++ evs1 ++ evs2 ++ evs3 ++ evs4 ++ evs5)).
  - world_simpl. by rewrite <- !app_assoc.
  - trace_facts. by trace_rewrite.
  - trace_facts. by trace_rewrite.
  - done.
  - done.
  - done.
  - done.
  - done.
Qed.

(** X19. The bootstrap and the loading manager, whatever the scripts do.  On
    a page whose loading overlay, if it has one, contains its
    .loading-message, initialize ends with the invariant of the loading
    manager established and with an overlay on the page; the load
    'modules_loading' is over and the other loads are as they were; so, from
    a world where no other load is active (as when the script has just been
    loaded), it ends with the overlay hidden and the loading flag false.  On
    a page whose overlay has no .loading-message, the startLoading of
    loadModules throws outside the try block whose finally stops the load:
    initialize shows the error notification and throws the TypeError in turn,
    no script has been attempted, 'modules_loading' stays active, the overlay
    stays displayed and the application is not marked ready. *)
Theorem initialize_settles_loading (w : World) :
  let found := getElementById (overlay (loadingManager w)) (doc_loadingOverlay (document env)) in
  let w' := exec initialize w in
  (page_message_element w →
     loading_invariant w'
     ∧ is_Some (overlay (loadingManager w'))
     ∧ activeLoads (loadingManager w') = activeLoads (loadingManager w) ∖ {[ "modules_loading" ]}
     ∧ (activeLoads (loadingManager w) ⊆ {[ "modules_loading" ]} →
        activeLoads (loadingManager w') = ∅
        ∧ (∃ o, overlay (loadingManager w') = Some o ∧ display o = "none")
        ∧ loading_flag false w'))
  ∧ (∀ o, found = Some o → loadingMessage o = None →
     completion initialize w = Throw no_message_element
     ∧ activeLoads (loadingManager w')
       = {[ "modules_loading" ]} ∪ activeLoads (loadingManager w)
     ∧ overlay (loadingManager w') = Some {| display := "flex"; loadingMessage := None |}
     ∧ scripts (added w w') = []
     ∧ (∃ toast, shown (added w w') = [toast] ∧ toastType toast = "error"
                 ∧ toastMessage toast = "Erreur lors du chargement de l'application")
     ∧ state w' = state w
     ∧ app w' = app w).
Proof.
  intros found w'. subst w' found. split.
  - intros Hpage.
    pose proof (initialize_invariant w Hpage) as Hinv.
    destruct (initialize_overlay w Hpage) as [o Ho].
    pose proof (initialize_activeLoads w Hpage) as Hloads.
    split; [done|]. split; [by exists o|]. split; [done|].
    intros Hsub.
    assert (Hempty : activeLoads (loadingManager (exec initialize w)) = ∅).
    { rewrite Hloads. apply set_eq. intros x. rewrite elem_of_difference, elem_of_empty.
      split; [|done]. intros [Hx Hne]. apply Hne, Hsub, Hx. }
    split; [done|]. unfold loading_invariant in Hinv. rewrite decide_True in Hinv by done.
    destruct Hinv as [Hd Hf]. split; [|done]. exists o. split; [done|]. by apply Hd.
  - intros o Hfound Hnone.
    wp_of_exec. apply (wp_initialize_incomplete o); [done..|].
    intros w' evs toast Htrace Hscripts Hshown Htype Htext Hlm Hstate Happ.
    rewrite (added_trace w w' evs Htrace), Hlm.
    split; [done|]. split; [|split; [done|]; split; [done|]; split; [by exists toast|done]].
    cbn [show_overlay_only set_overlay add_load activeLoads].
    unfold initialized_loadingManager. cbv zeta. by rewrite Hfound.
Qed.

(** X20. What the bootstrap never touches, on any page: initialize registers
    no listener and no subscriber of its own and removes none, leaves the
    level of the logger as it is, and changes no key of the state other than
    'loading', 'isMobile' and 'initialized'. *)
Theorem initialize_leaves_the_rest (w : World) :
  let w' := exec initialize w in
  listeners w' = listeners w
  ∧ subscribers w' = subscribers w
  ∧ currentLevel w' = currentLevel w
  ∧ (∀ key, key ≠ "loading" → key ≠ "isMobile" → key ≠ "initialized" →
            state w' !! key = state w !! key).
Proof.
  intros w'. subst w'. destruct (initialize_untouched w) as (Hl & Hs & Hc & Hstate).
  split; [done|]. split; [done|]. split; [done|].
  intros key H1 H2 H3. apply Hstate. rewrite !not_elem_of_cons.
  split; [done|]. split; [done|]. split; [done|]. apply not_elem_of_nil.
Qed.

(** *** startGeneration, whatever the form *)

(** What the first lines of the try block of startGeneration make of the
    form: the exception that one of them throws (a method that is not there,
    or that throws, or a validation without properties), or else the form data
    and whether the validation accepts it. *)
Definition form_verdict : JsError + (value * bool) :=
  match getFormData env with
  | None => inl (Error "this.getFormData is not a function")
  | Some (inl e) => inl e
  | Some (inr formData) =>
      match validateForm env with
      | None => inl (Error "this.validateForm is not a function")
      | Some validate =>
          match validate formData with
          | inl e => inl e
          | inr validation =>
              match get_property validation "valid" with
              | inl e => inl e
              | inr valid => inr (formData, to_boolean valid)
              end
          end
      end
  end.

(** The message of the notification when no request is sent. *)
Definition refusal : option string :=
  match form_verdict with
  | inl e => Some ("Erreur: " +:+ message e)
  | inr (_, false) => Some "Veuillez corriger les erreurs du formulaire"
  | inr (_, true) => None
  end.

Lemma form_verdict_valid formData : form_verdict = inr (formData, true) → valid_form formData.
Proof.
  unfold form_verdict, valid_form.
  destruct (getFormData env) as [[e|formData']|]; [done| |done].
  destruct (validateForm env) as [validate|]; [|done].
  destruct (validate formData') as [e|validation] eqn:Hvalidation; [done|].
  destruct (get_property validation "valid") as [e|valid] eqn:Hvalid; [done|].
  intros [= -> Htrue]. split; [done|]. by exists validate, validation, valid.
Qed.

Lemma stopped_append loadId evs w :
  stopped loadId (append evs w) = append evs (stopped loadId w).
Proof. done. Qed.

(** startGeneration when the form is refused: one notification of type
    error, and the closing stopLoading. *)
Lemma wp_startGeneration_refused text children w Q :
  refusal = Some text →
  container (notificationManager w) = Some children →
  (∀ evs,
     toast_events evs (new_toast (ids w) text "error") →
     Q (Normal tt)
       (append evs
          (stopped "main_generation"
             (set_notificationManager (λ nm,
                {| container := Some (children ++ [new_toast (ids w) text "error"]);
                   notifications :=
                     <[toastId (new_toast (ids w) text "error") := new_toast (ids w) text "error"]>
                       (notifications nm) |})
                (set_ids S w))))) →
  wp startGeneration w Q.
Proof.
  intros Hrefusal Hcontainer HQ. unfold startGeneration.
  apply wp_bind, wp_log_silent; [done|]. intros evs0 H0. cbv beta iota.
  apply wp_try_finally, wp_try_catch.
  assert (Hcatch : ∀ error,
    text = "Erreur: " +:+ message error →
    wp (logger_error "Erreur lors de la génération:" [error_value error] ;;;
        NotificationManager_error ("Erreur: " +:+ message error) ;;;
        ret tt)
      (append evs0 w)
      (λ c w',
        wp (stopLoading "main_generation") w' (λ c' w'',
          match c' with
          | Normal _ => Q c w''
          | Throw e => Q (Throw e) w''
          end))).
  { intros error ->.
    eapply wp_generation_failed; [world_simpl; exact Hcontainer|]. world_simpl.
    intros evs1 H1. apply wp_stopLoading. intros evs2 H2.
    rewrite set_ids_append, set_notificationManager_append, !append_append,
      stopped_append, append_append.
    apply HQ. trace_facts. unfold toast_events. by trace_rewrite. }
  unfold refusal, form_verdict in Hrefusal. unfold startGeneration_try, call_method.
  destruct (getFormData env) as [[e|formData]|].
  - injection Hrefusal as <-. apply wp_bind, wp_ret. cbv beta iota. apply wp_bind, wp_throw.
    by apply Hcatch.
  - apply wp_bind, wp_ret. cbv beta iota. apply wp_bind, wp_ret. cbv beta iota.
    destruct (validateForm env) as [validate|].
    + apply wp_bind, wp_ret. cbv beta iota.
      destruct (validate formData) as [e|validation].
      * injection Hrefusal as <-. apply wp_bind, wp_throw. by apply Hcatch.
      * apply wp_bind, wp_ret. cbv beta iota.
        destruct (get_property validation "valid") as [e|valid].
        -- injection Hrefusal as <-. apply wp_bind, wp_throw. by apply Hcatch.
        -- apply wp_bind, wp_ret. cbv beta iota.
           destruct (to_boolean valid); [done|]. injection Hrefusal as <-. cbn [negb].
           apply wp_bind. unfold NotificationManager_error.
           eapply wp_show; [world_simpl; exact Hcontainer|]. world_simpl.
           intros evs1 H1. cbv beta iota. apply wp_ret.
           apply wp_stopLoading. intros evs2 H2.
           rewrite set_ids_append, set_notificationManager_append, !append_append,
             stopped_append, append_append.
           apply HQ. trace_facts. unfold toast_events. by trace_rewrite.
    + injection Hrefusal as <-. apply wp_bind, wp_throw. by apply Hcatch.
  - injection Hrefusal as <-. apply wp_bind, wp_throw. by apply Hcatch.
Qed.

(** X21. When the form cannot be read or validated (getFormData or
    validateForm is not attached to the application object, as in the class
    itself; or one of them throws; or the validation is null or undefined),
    startGeneration returns normally after one notification of type error that
    reads 'Erreur: ' and the message of the exception.  It sends no request,
    waits for nothing and starts no load. *)
Theorem startGeneration_form_error (error : JsError) (w : World) :
  form_verdict = inl error →
  notifications_ready w →
  let w' := exec startGeneration w in
  let evs := added w w' in
  completion startGeneration w = Normal tt
  ∧ (∃ toast, shown evs = [toast] ∧ toastType toast = "error"
              ∧ toastMessage toast = "Erreur: " +:+ message error)
  ∧ network evs = []
  ∧ fetches w' = fetches w
  ∧ activeLoads (loadingManager w') = activeLoads (loadingManager w) ∖ {[ "main_generation" ]}
  ∧ (getFormData env = None → message error = "this.getFormData is not a function").
Proof.
  intros Hverdict [children Hcontainer] w' evs. subst evs w'.
  assert (Hrefusal : refusal = Some ("Erreur: " +:+ message error))
    by (unfold refusal; by rewrite Hverdict).
  split; [|split; [|split; [|split; [|split]]]].
  - wp_of_exec. eapply wp_startGeneration_refused; [done..|]. by intros evs _.
  - wp_of_exec. eapply wp_startGeneration_refused; [done..|]. intros evs (_ & _ & Hshown & _).
    rewrite (added_trace w _ evs) by done. by eexists.
  - wp_of_exec. eapply wp_startGeneration_refused; [done..|]. intros evs (Hnetwork & _).
    by rewrite (added_trace w _ evs) by done.
  - wp_of_exec. eapply wp_startGeneration_refused; [done..|]. by intros evs _.
  - apply startGeneration_activeLoads.
  - intros Hnone. revert Hverdict. unfold form_verdict. rewrite Hnone. by intros [= <-].
Qed.

(** The requests of startGeneration with a valid form, where startLoading
    returns. *)
Lemma startGeneration_valid_requests formData w :
  valid_form formData →
  notifications_ready w →
  message_element w →
  let evs := added w (exec startGeneration w) in
  completion startGeneration w = Normal tt
  ∧ (∃ toast, shown evs = [toast] ∧ (toastType toast = "success" ∨ toastType toast = "error"))
  ∧ (length (fetched evs) ≤ 3)%nat
  ∧ ∃ retries,
      fetched evs = (generation_url, generation_options formData) :: retries
      ∧ Forall (λ r, r = (generation_url, generation_options formData)) retries
      ∧ generation_options formData !! "body"
        = Some (JSON_stringify env (default_parameter (VObj ∅) formData)).
Proof.
  intros Hvalid Hready Hmessage evs. subst evs.
  wp_of_exec. apply (wp_startGeneration_valid formData); [done..|].
  intros w' (evs & toast & Htrace & Hnet & Hwarn & Hscripts & Hshown & Hreport & Hstate).
  rewrite (added_trace w w' evs Htrace).
  split; [done|]. split; [|split].
  - exists toast. split; [done|].
    destruct (loop_completion _ _ _ _) as [result|e]; simpl in Hreport.
    + destruct (get_property result "success") as [e|success]; [right; congruence|].
      destruct (to_boolean success); [left|right]; congruence.
    + right. congruence.
  - rewrite <- fetched_network, Hnet. cbn [loop_schedule APP_CONFIG.api.retryAttempts].
    unfold attempt_outcome.
    repeat (destruct (settle _); simpl; try lia).
  - rewrite <- fetched_network, Hnet.
    destruct (fetched_loop_schedule_first generation_url (generation_options formData)
                2 1 (fetches w)) as (retries & Hfirst & Hall).
    exists retries. split; [exact Hfirst|]. split; [done|]. apply generation_options_body.
Qed.

(** startGeneration with a valid form on a page whose overlay has no
    .loading-message: startLoading throws before the request, and the catch
    block reports the TypeError. *)
Lemma wp_startGeneration_no_message formData o w Q :
  valid_form formData →
  notifications_ready w →
  overlay (loadingManager w) = Some o →
  loadingMessage o = None →
  (∀ w' evs,
     trace w' = trace w ++ evs →
     network evs = [] →
     shown evs = [new_toast (ids w) ("Erreur: " +:+ message no_message_element) "error"] →
     Q (Normal tt) w') →
  wp startGeneration w Q.
Proof.
  intros (Hget & validate & validation & valid & Hvalidate & Hvalidation & Hvalid & Htrue)
    [children Hcontainer] Ho Hnone HQ.
  unfold startGeneration.
  apply wp_bind, wp_log_silent; [done|]. intros evs0 H0. cbv beta iota.
  apply wp_try_finally, wp_try_catch. unfold startGeneration_try.
  rewrite Hget, Hvalidate. unfold call_method.
  apply wp_bind, wp_ret. cbv beta iota. apply wp_bind, wp_ret. cbv beta iota.
  apply wp_bind, wp_ret. cbv beta iota. rewrite Hvalidation.
  apply wp_bind, wp_ret. cbv beta iota. rewrite Hvalid.
  apply wp_bind, wp_ret. cbv beta iota. rewrite Htrue. cbn [negb].
  apply wp_bind, wp_startLoading.
  - intros Hmessage. exfalso. revert Hmessage. unfold message_element. world_simpl.
    rewrite Ho, Hnone. by intros [].
  - intros o' _ _.
    eapply wp_generation_failed; [world_simpl; exact Hcontainer|]. world_simpl.
    intros evs1 H1. apply wp_stopLoading. intros evs2 H2.
    apply (HQ _ (evs0 ++ evs1 ++ evs2)).
    + rewrite trace_append, stopped_trace. world_simpl. by rewrite <- !app_assoc.
    + trace_facts. by trace_rewrite.
    + trace_facts. unfold toast_events in *. by trace_rewrite.
Qed.

(** X22. Whatever the form, the validation, the backend and the overlay of
    the page do, once the notification manager is ready startGeneration
    returns normally (the promise it returns is never rejected) and shows
    exactly one notification, of type success or error.  It sends at most
    three requests: none when the form is refused or cannot be validated; for
    a form that passes validation, the POST of the form data (whose body is
    the JSON text of the data, of an empty object when the data is undefined)
    when the overlay has its .loading-message or the manager has no overlay,
    and none on an overlay without that element, where startLoading throws
    and the notification is the error 'Erreur: Cannot set properties of null
    (setting 'textContent')'. *)
Theorem startGeneration_always_reports (w : World) :
  notifications_ready w →
  let evs := added w (exec startGeneration w) in
  completion startGeneration w = Normal tt
  ∧ (∃ toast, shown evs = [toast] ∧ (toastType toast = "success" ∨ toastType toast = "error"))
  ∧ (length (fetched evs) ≤ 3)%nat
  ∧ match form_verdict with
    | inr (formData, true) =>
        (message_element w →
         ∃ retries,
           fetched evs = (generation_url, generation_options formData) :: retries
           ∧ Forall (λ r, r = (generation_url, generation_options formData)) retries
           ∧ generation_options formData !! "body"
             = Some (JSON_stringify env (default_parameter (VObj ∅) formData)))
        ∧ (∀ o, overlay (loadingManager w) = Some o → loadingMessage o = None →
           fetched evs = []
           ∧ ∃ toast, shown evs = [toast] ∧ toastType toast = "error"
                      ∧ toastMessage toast
                        = "Erreur: Cannot set properties of null (setting 'textContent')")
    | _ => fetched evs = []
    end.
Proof.
  intros Hready evs. subst evs.
  assert (Hrefused : ∀ text,
    refusal = Some text →
    completion startGeneration w = Normal tt
    ∧ (∃ toast, shown (added w (exec startGeneration w)) = [toast]
                ∧ (toastType toast = "success" ∨ toastType toast = "error"))
    ∧ fetched (added w (exec startGeneration w)) = []).
  { intros text Hrefusal. destruct Hready as [children Hcontainer].
    wp_of_exec. eapply wp_startGeneration_refused; [done..|].
    intros evs (Hnetwork & _ & Hshown & _).
    rewrite (added_trace w _ evs) by done.
    split; [done|]. split; [eexists; split; [done|]; by right|].
    by rewrite <- fetched_network, Hnetwork. }
  unfold refusal in Hrefused.
  destruct form_verdict as [e|[formData [|]]] eqn:Hverdict.
  - destruct (Hrefused _ eq_refl) as (Hc & Htoast & Hfetched).
    rewrite Hfetched. split; [done|]. split; [done|]. split; [simpl; lia | done].
  - clear Hrefused. apply form_verdict_valid in Hverdict.
    destruct (overlay (loadingManager w)) as [o|] eqn:Ho;
      [destruct (loadingMessage o) as [text|] eqn:Htext|].
    + assert (Hmessage : message_element w)
        by (unfold message_element; rewrite Ho, Htext; by eexists).
      pose proof (startGeneration_valid_requests formData w Hverdict Hready Hmessage)
        as (Hc & Htoast & Hlen & Hfirst).
      split; [done|]. split; [done|]. split; [done|]. split; [by intros _|].
      intros o' [= <-] Hnone. congruence.
    + assert (Hmain :
        completion startGeneration w = Normal tt
        ∧ fetched (added w (exec startGeneration w)) = []
        ∧ shown (added w (exec startGeneration w))
          = [new_toast (ids w) ("Erreur: " +:+ message no_message_element) "error"]).
      { wp_of_exec. apply (wp_startGeneration_no_message formData o); [done..|].
        intros w' evs Htrace Hnetwork Hshown.
        rewrite (added_trace w w' evs Htrace).
        split; [done|]. split; [by rewrite <- fetched_network, Hnetwork | done]. }
      destruct Hmain as (Hc & Hfetched & Hshown).
      rewrite Hfetched, Hshown.
      split; [done|]. split; [eexists; split; [done|]; by right|].
      split; [simpl; lia|]. split.
      * unfold message_element. rewrite Ho, Htext. by intros [].
      * intros _ _ _. split; [done|]. by eexists.
    + assert (Hmessage : message_element w) by (unfold message_element; by rewrite Ho).
      pose proof (startGeneration_valid_requests formData w Hverdict Hready Hmessage)
        as (Hc & Htoast & Hlen & Hfirst).
      split; [done|]. split; [done|]. split; [done|]. split; [by intros _|]. done.
  - destruct (Hrefused _ eq_refl) as (Hc & Htoast & Hfetched).
    rewrite Hfetched. split; [done|]. split; [done|]. split; [simpl; lia | done].
Qed.

(** *** startGeneration before the bootstrap *)

(** A world that a computation has reached from [w] without showing a
    notification and without touching the notification manager. *)
Definition quiet (w w' : World) : Prop :=
  notificationManager w' = notificationManager w
  ∧ ∃ evs, trace w' = trace w ++ evs ∧ shown evs = [].

Lemma quiet_refl w : quiet w w.
Proof. split; [done|]. exists []. by rewrite app_nil_r. Qed.

Lemma quiet_append w w' evs : quiet w w' → shown evs = [] → quiet w (append evs w').
Proof.
  intros (Hnm & evs0 & Htrace & Hshown) Hevs. split; [done|].
  exists (evs0 ++ evs). rewrite trace_append, Htrace, shown_app, Hshown, Hevs.
  by rewrite app_assoc.
Qed.

Lemma quiet_container w w' :
  quiet w w' → container (notificationManager w) = None →
  container (notificationManager w') = None.
Proof. by intros [-> _]. Qed.

(** The TypeError of appending to a container that is null. *)
Definition null_container_error : JsError :=
  Error "Cannot read properties of null (reading 'appendChild')".

(** startGeneration while the container is null: every path of the try block
    ends in the catch block, whose notification throws. *)
Lemma wp_startGeneration_unready w Q :
  container (notificationManager w) = None →
  (∀ w', quiet w w' → Q (Throw null_container_error) w') →
  wp startGeneration w Q.
Proof.
  intros Hcontainer HQ. unfold startGeneration.
  apply wp_bind, wp_log_silent; [done|]. intros evs0 H0. cbv beta iota.
  assert (Hq0 : quiet w (append evs0 w))
    by (apply quiet_append; [apply quiet_refl | by apply silent_shown]).
  revert Hq0. generalize (append evs0 w). clear evs0 H0. intros w0 Hq0.
  apply wp_try_finally, wp_try_catch.
  assert (Hcatch : ∀ error w1,
    quiet w w1 →
    wp (logger_error "Erreur lors de la génération:" [error_value error] ;;;
        NotificationManager_error ("Erreur: " +:+ message error) ;;;
        ret tt) w1
      (λ c w',
        wp (stopLoading "main_generation") w' (λ c' w'',
          match c' with
          | Normal _ => Q c w''
          | Throw e => Q (Throw e) w''
          end))).
  { intros error w1 Hq1.
    apply wp_bind, wp_log_silent; [done|]. intros evs1 H1. cbv beta iota.
    apply wp_bind. unfold NotificationManager_error.
    apply wp_show_unready.
    { world_simpl. by apply (quiet_container w w1). }
    apply wp_stopLoading. intros evs2 H2. apply HQ.
    apply quiet_append; [|by apply silent_shown].
    rewrite set_ids_append, stopped_append. apply quiet_append; [|by apply silent_shown].
    destruct Hq1 as (Hnm & evs & Htrace & Hshown). split; [done|]. by exists evs. }
  assert (Hshow : ∀ text kind duration w1 (k : string → M unit),
    quiet w w1 →
    wp (bind (show text kind duration) k) w1
      (λ c w',
        match c with
        | Normal a =>
            wp (stopLoading "main_generation") w' (λ c' w'',
              match c' with
              | Normal _ => Q (Normal a) w''
              | Throw e => Q (Throw e) w''
              end)
        | Throw error =>
            wp (logger_error "Erreur lors de la génération:" [error_value error] ;;;
                NotificationManager_error ("Erreur: " +:+ message error) ;;;
                ret tt) w'
              (λ c0 w0',
                wp (stopLoading "main_generation") w0' (λ c' w'',
                  match c' with
                  | Normal _ => Q c0 w''
                  | Throw e => Q (Throw e) w''
                  end))
        end)).
  { intros text kind duration w1 k Hq1.
    apply wp_bind, wp_show_unready; [by apply (quiet_container w w1)|].
    apply Hcatch. destruct Hq1 as (Hnm & evs & Htrace & Hshown).
    split; [done|]. by exists evs. }
  unfold startGeneration_try, call_method.
  destruct (getFormData env) as [[e|formData]|].
  - apply wp_bind, wp_ret. cbv beta iota. apply wp_bind, wp_throw. by apply Hcatch.
  - apply wp_bind, wp_ret. cbv beta iota. apply wp_bind, wp_ret. cbv beta iota.
    destruct (validateForm env) as [validate|].
    + apply wp_bind, wp_ret. cbv beta iota.
      destruct (validate formData) as [e|validation].
      * apply wp_bind, wp_throw. by apply Hcatch.
      * apply wp_bind, wp_ret. cbv beta iota.
        destruct (get_property validation "valid") as [e|valid].
        -- apply wp_bind, wp_throw. by apply Hcatch.
        -- apply wp_bind, wp_ret. cbv beta iota.
           destruct (to_boolean valid); cbn [negb].
           ++ apply wp_bind, wp_startLoading;
                [|intros o Ho Hnone; apply Hcatch;
                  destruct Hq0 as (Hnm & evs & Htrace & Hshown);
                  split; [done|]; by exists evs].
              intros _ evs1 H1. cbv beta iota.
              unfold post. apply wp_bind, wp_request. intros evs2 H2.
              match goal with
              | |- context [append evs2 ?W] => assert (Hq2 : quiet w (append evs2 W))
              end.
              { destruct H2 as (_ & _ & Hshown2 & _).
                apply quiet_append; [|done]. rewrite set_ids_append.
                apply quiet_append; [|by apply silent_shown].
                destruct Hq0 as (Hnm & evs & Htrace & Hshown). split; [done|]. by exists evs. }
              revert Hq2.
              match goal with
              | |- context [append evs2 ?W] => generalize (append evs2 W)
              end.
              intros w2 Hq2.
              destruct (loop_completion _ _ _ _) as [result|error]; [|by apply Hcatch].
              apply wp_bind, wp_lift.
              destruct (get_property result "success") as [e|success]; [by apply Hcatch|].
              destruct (to_boolean success).
              ** unfold NotificationManager_success. by apply Hshow.
              ** apply wp_bind, wp_lift.
                 destruct (get_property result "error") as [e|error]; [by apply Hcatch|].
                 apply wp_throw. by apply Hcatch.
           ++ unfold NotificationManager_error. by apply Hshow.
    + apply wp_bind, wp_throw. by apply Hcatch.
  - apply wp_bind, wp_throw. by apply Hcatch.
Qed.

(** X23. Before the notification manager is initialized (its container is
    still null), startGeneration cannot report anything: whatever the form and
    the backend do, the promise it returns is rejected with the TypeError of
    the notification that could not be appended, and no notification is
    shown.  The closing stopLoading runs all the same: 'main_generation' is
    not active when it ends. *)
Theorem startGeneration_before_initialize (w : World) :
  container (notificationManager w) = None →
  let w' := exec startGeneration w in
  completion startGeneration w = Throw null_container_error
  ∧ shown (added w w') = []
  ∧ notificationManager w' = notificationManager w
  ∧ "main_generation" ∉ activeLoads (loadingManager w').
Proof.
  intros Hcontainer w'. subst w'.
  assert (Hmain : completion startGeneration w = Throw null_container_error
                  ∧ quiet w (exec startGeneration w)).
  { wp_of_exec. by apply wp_startGeneration_unready. }
  destruct Hmain as (Hc & Hnm & evs & Htrace & Hshown).
  split; [done|]. split; [by rewrite (added_trace w _ evs Htrace)|]. split; [done|].
  rewrite startGeneration_activeLoads, elem_of_difference, elem_of_singleton. tauto.
Qed.

(** ** The logger and the debug mode *)

(** X24. The level of a logger as its constructor sets it.  The level of
    'debug' is 0, which is falsy, so that [levels[level] || 1] gives 1 for
    'debug' as it does for 'info' and for a name that is no level: the
    constructor never gives the debug level, whatever the name, and the logger
    of the script starts at the level of 'info'.  A logger at a level that
    the constructor gives prints no debug message and prints every error. *)
Theorem Logger_constructor_never_debug :
  Logger_constructor "debug" = Some 1%nat
  ∧ Logger_constructor "info" = Some 1%nat
  ∧ Logger_constructor "warn" = Some 2%nat
  ∧ Logger_constructor "error" = Some 3%nat
  ∧ Logger_constructor APP_CONFIG.debug.logLevel = Some (currentLevel initial_world)
  ∧ (∀ name n, Logger_constructor name = Some n → (1 ≤ n ≤ 3)%nat)
  ∧ (∀ name w message args,
       Logger_constructor name = Some (currentLevel w) →
       exec (logger_debug message args) w = w
       ∧ added w (exec (logger_error message args) w)
         = [EConsole LError (error_prefix +:+ message) args]).
Proof.
  assert (Hrange : ∀ name n, Logger_constructor name = Some n → (1 ≤ n ≤ 3)%nat).
  { intros name n. unfold Logger_constructor, Logger_levels.
    repeat (destruct (String.eqb name _); [intros [= <-]; simpl; lia|]).
    destruct (bool_decide _); [done|]. intros [= <-]. lia. }
  split; [done|]. split; [done|]. split; [done|]. split; [done|]. split; [done|].
  split; [exact Hrange|].
  intros name w message args Hlevel. apply Hrange in Hlevel.
  unfold exec, logger_debug, logger_error. rewrite !log_spec. cbn [snd].
  rewrite added_append. unfold log_events.
  destruct (currentLevel w) as [|[|[|[|n]]]]; try lia; cbn; by rewrite ?append_nil.
Qed.

(** The notification of toggleDebugMode. *)
Definition debug_toast (n : nat) (enabled : bool) : Toast :=
  new_toast n (if enabled then "Mode debug activé" else "Mode debug désactivé") "info".

Lemma toggleDebugMode_ready d w children :
  container (notificationManager w) = Some children →
  ∃ evs,
    toggleDebugMode d w
    = (Normal tt,
       append evs
         (set_notificationManager (λ nm,
            {| container := Some (children ++ [debug_toast (ids w) (negb (debugEnabled d))]);
               notifications :=
                 <[toastId (debug_toast (ids w) (negb (debugEnabled d))) :=
                     debug_toast (ids w) (negb (debugEnabled d))]> (notifications nm) |})
            (set_ids S
               (set_currentLevel
                  (λ _, if negb (debugEnabled d) then levels LDebug else levels LInfo) w))),
       {| debugEnabled := negb (debugEnabled d); debugClass := negb (debugEnabled d) |})
    ∧ shown evs = [debug_toast (ids w) (negb (debugEnabled d))].
Proof.
  intros Hcontainer. unfold toggleDebugMode, NotificationManager_info.
  set (w1 := set_currentLevel _ w).
  set (text := if negb (debugEnabled d) then "Mode debug activé" else "Mode debug désactivé").
  pose proof (wp_show text "info" 5000 children w1
    (λ c w',
       c = Normal (toastId (new_toast (ids w) text "info"))
       ∧ ∃ evs,
           w' = append evs
                  (set_notificationManager (λ nm,
                     {| container := Some (children ++ [new_toast (ids w) text "info"]);
                        notifications :=
                          <[toastId (new_toast (ids w) text "info") :=
                              new_toast (ids w) text "info"]> (notifications nm) |})
                     (set_ids S w1))
           ∧ shown evs = [new_toast (ids w) text "info"]) Hcontainer) as Hshow.
  unfold wp, completion, exec in Hshow.
  destruct (show text "info" 5000 w1) as [c w2]. cbn [fst snd] in Hshow.
  destruct Hshow as (-> & evs & -> & Hshown).
  { intros evs (_ & _ & Hshown & _). split; [done|]. by exists evs. }
  unfold logger_info. rewrite log_spec, append_append.
  eexists. split; [reflexivity|].
  rewrite shown_app, Hshown. unfold log_events. by destruct (_ <=? _)%nat.
Qed.

Lemma toggleDebugMode_unready d w :
  container (notificationManager w) = None →
  toggleDebugMode d w
  = (Throw null_container_error,
     set_ids S
       (set_currentLevel (λ _, if negb (debugEnabled d) then levels LDebug else levels LInfo) w),
     {| debugEnabled := negb (debugEnabled d); debugClass := debugClass d |}).
Proof.
  intros Hcontainer. unfold toggleDebugMode, NotificationManager_info.
  set (w1 := set_currentLevel _ w).
  set (text := if negb (debugEnabled d) then "Mode debug activé" else "Mode debug désactivé").
  pose proof (wp_show_unready text "info" 5000 w1
    (λ c w', c = Throw null_container_error ∧ w' = set_ids S w1) Hcontainer) as Hshow.
  unfold wp, completion, exec in Hshow.
  destruct (show text "info" 5000 w1) as [c w2]. cbn [fst snd] in Hshow.
  by destruct Hshow as [-> ->].
Qed.

(** X25. toggleDebugMode, once the notification manager is ready, flips the
    debug flag, gives the body the class debug-mode exactly when the flag is
    set, puts the logger at the debug level when the flag is set and at the
    info level when it is not, and shows one notification of type info.
    Switching the mode on and off again therefore leaves the logger at the
    info level, whatever its level was before.  Before the notification
    manager is ready the call throws after it has flipped the flag and changed
    the level, and the class of the body is not updated. *)
Theorem toggleDebugMode_levels (d : DebugMode) (w : World) :
  let r := toggleDebugMode d w in
  let enabled := negb (debugEnabled d) in
  (notifications_ready w →
     r.1.1 = Normal tt
     ∧ r.2 = {| debugEnabled := enabled; debugClass := enabled |}
     ∧ currentLevel r.1.2 = (if enabled then 0 else 1)%nat
     ∧ shown (added w r.1.2) = [debug_toast (ids w) enabled]
     ∧ state r.1.2 = state w
     ∧ let r' := toggleDebugMode r.2 r.1.2 in
       r'.1.1 = Normal tt
       ∧ debugEnabled r'.2 = debugEnabled d
       ∧ (debugEnabled d = false → currentLevel r'.1.2 = 1%nat))
  ∧ (container (notificationManager w) = None →
     r.1.1 = Throw null_container_error
     ∧ r.2 = {| debugEnabled := enabled; debugClass := debugClass d |}
     ∧ currentLevel r.1.2 = (if enabled then 0 else 1)%nat
     ∧ shown (added w r.1.2) = []).
Proof.
  intros r enabled. subst r enabled. split.
  - intros [children Hcontainer].
    destruct (toggleDebugMode_ready d w children Hcontainer) as (evs & -> & Hshown).
    cbn [fst snd]. rewrite (added_trace w _ evs) by done.
    split; [done|]. split; [done|].
    split; [by destruct (negb (debugEnabled d))|]. split; [done|]. split; [done|].
    match goal with
    | |- context [toggleDebugMode ?d' ?w'] =>
        destruct (toggleDebugMode_ready d' w' _ eq_refl) as (evs' & -> & _)
    end.
    cbn [fst snd debugEnabled]. split; [done|]. split; [by destruct (debugEnabled d)|].
    by intros ->.
  - intros Hcontainer. rewrite (toggleDebugMode_unready d w Hcontainer). cbn [fst snd].
    split; [done|]. split; [done|]. split; [by destruct (negb (debugEnabled d))|].
    by rewrite (added_trace w _ []) by (by rewrite app_nil_r).
Qed.

(** ** The keyboard shortcuts *)

(** The three tests of handleGlobalKeyboard. *)
Definition debug_shortcut (event : KeyboardEvent) : bool :=
  (ctrlKey event || metaKey event) && String.eqb (key event) "d".

Definition reload_shortcut (event : KeyboardEvent) : bool :=
  String.eqb (key event) "F5" || (ctrlKey event && String.eqb (key event) "r").

(** [stateManager.getState().loading], as a condition. *)
Definition is_loading (w : World) : bool :=
  to_boolean (default VUndefined (state w !! "loading")).

Lemma is_loading_invariant w :
  loading_invariant w →
  is_loading w = bool_decide (activeLoads (loadingManager w) ≠ ∅).
Proof.
  unfold loading_invariant, loading_flag, is_loading.
  destruct (decide (activeLoads (loadingManager w) = ∅)) as [Hempty|Hsome].
  - intros [_ ->]. by rewrite bool_decide_false by (by intros H).
  - intros [_ ->]. by rewrite bool_decide_true.
Qed.

(** X26. handleGlobalKeyboard, once the notification manager is ready,
    returns normally and calls preventDefault in two cases only: on Ctrl+D or
    Cmd+D, and on F5 or Ctrl+R while the loading flag of the state is set.
    In the second case it shows the warning that the reload is blocked; on
    Ctrl+D or Cmd+D it toggles the debug mode.  Any other key leaves the debug
    mode, the level of the logger and the notifications as they were (Escape
    only emits 'escapePressed'); Cmd+R is never blocked.  Under the invariant
    of the loading manager, F5 and Ctrl+R are blocked exactly while a load is
    active. *)
Theorem handleGlobalKeyboard_prevents (event : KeyboardEvent) (d : DebugMode) (w : World) :
  notifications_ready w →
  let r := handleGlobalKeyboard event d w in
  let blocked := reload_shortcut event && is_loading w in
  keyboard_completion r = Normal tt
  ∧ defaultPrevented r = debug_shortcut event || blocked
  ∧ keyboard_debug r
    = (if debug_shortcut event
       then {| debugEnabled := negb (debugEnabled d); debugClass := negb (debugEnabled d) |}
       else d)
  ∧ shown (added w (keyboard_world r))
    = (if debug_shortcut event then [debug_toast (ids w) (negb (debugEnabled d))]
       else if blocked
            then [new_toast (ids w) "Génération en cours - rechargement bloqué" "warning"]
            else [])
  ∧ (debug_shortcut event = false → currentLevel (keyboard_world r) = currentLevel w)
  ∧ state (keyboard_world r) = state w
  ∧ (ctrlKey event = false → key event = "r" → defaultPrevented r = false)
  ∧ (loading_invariant w → reload_shortcut event = true →
     defaultPrevented r = bool_decide (activeLoads (loadingManager w) ≠ ∅)).
Proof.
  intros [children Hcontainer] r blocked.
  assert (Hmain :
    keyboard_completion r = Normal tt
    ∧ defaultPrevented r = debug_shortcut event || blocked
    ∧ keyboard_debug r
      = (if debug_shortcut event
         then {| debugEnabled := negb (debugEnabled d); debugClass := negb (debugEnabled d) |}
         else d)
    ∧ shown (added w (keyboard_world r))
      = (if debug_shortcut event then [debug_toast (ids w) (negb (debugEnabled d))]
         else if blocked
              then [new_toast (ids w) "Génération en cours - rechargement bloqué" "warning"]
              else [])
    ∧ (debug_shortcut event = false → currentLevel (keyboard_world r) = currentLevel w)
    ∧ state (keyboard_world r) = state w).
  { subst r blocked. unfold handleGlobalKeyboard.
    fold (debug_shortcut event) (reload_shortcut event).
    destruct (debug_shortcut event) eqn:Hdebug.
    - (* Ctrl+D or Cmd+D: the key is 'd', the two other tests fail *)
      assert (Hkey : key event = "d").
      { unfold debug_shortcut in Hdebug. apply andb_prop in Hdebug as [_ Hkey].
        by apply String.eqb_eq. }
      unfold reload_shortcut. rewrite Hkey.
      destruct (toggleDebugMode_ready d w children Hcontainer) as (evs & -> & Hshown).
      cbn -[append set_notificationManager set_ids set_currentLevel new_toast debug_toast].
      rewrite andb_false_r.
      cbn -[append set_notificationManager set_ids set_currentLevel new_toast debug_toast].
      rewrite (added_trace w _ evs) by done. done.
    - cbv beta iota.
      assert (Hemit : ∃ evs,
        (if String.eqb (key event) "Escape" then emit "escapePressed" VUndefined w
         else (Normal tt, w)) = (Normal tt, append evs w)
        ∧ shown evs = []).
      { destruct (String.eqb (key event) "Escape").
        - pose proof (wp_emit "escapePressed" VUndefined w
            (λ c w', c = Normal tt ∧ ∃ evs, w' = append evs w ∧ shown evs = [])) as Hemit.
          unfold wp, completion, exec in Hemit.
          destruct (emit "escapePressed" VUndefined w) as [c w']. cbn [fst snd] in Hemit.
          destruct Hemit as (-> & evs & -> & Hshown).
          { intros evs H. split; [done|]. exists evs. split; [done|]. by apply silent_shown. }
          by exists evs.
        - exists []. by rewrite append_nil. }
      destruct Hemit as (evs1 & -> & Hshown1).
      change (to_boolean (default VUndefined (state (append evs1 w) !! "loading")))
        with (is_loading w).
      destruct (reload_shortcut event && is_loading w) eqn:Hblocked.
      + unfold NotificationManager_warning.
        pose proof (wp_show "Génération en cours - rechargement bloqué" "warning" 6000 children
          (append evs1 w)
          (λ c w',
             (∃ id, c = Normal id)
             ∧ ∃ evs, trace w' = trace w ++ evs1 ++ evs
                      ∧ shown evs
                        = [new_toast (ids w) "Génération en cours - rechargement bloqué" "warning"]
                      ∧ currentLevel w' = currentLevel w ∧ state w' = state w)
          Hcontainer) as Hshow.
        unfold wp, completion, exec in Hshow.
        destruct (show _ "warning" 6000 (append evs1 w)) as [c w3]. cbn [fst snd] in Hshow.
        destruct Hshow as ([id ->] & evs & Htrace & Hshown & Hlevel & Hstate).
        { intros evs (_ & _ & Hshown & _). split; [by eexists|]. exists evs.
          split; [world_simpl; by rewrite app_assoc|]. done. }
        cbn [keyboard_completion defaultPrevented keyboard_debug keyboard_world].
        rewrite (added_trace w _ (evs1 ++ evs) Htrace), shown_app, Hshown1, Hshown.
        done.
      + cbn [keyboard_completion defaultPrevented keyboard_debug keyboard_world].
        by rewrite added_append, Hshown1. }
  destruct Hmain as (Hc & Hprevented & Hdebug & Hshown & Hlevel & Hstate).
  split; [done|]. split; [done|]. split; [done|]. split; [done|]. split; [done|].
  split; [done|]. split.
  - intros Hctrl Hkey. rewrite Hprevented. subst blocked.
    unfold debug_shortcut, reload_shortcut. rewrite Hctrl, Hkey. cbn.
    by rewrite andb_false_r.
  - intros Hinv Hreload. rewrite Hprevented. subst blocked.
    rewrite Hreload, <- (is_loading_invariant w Hinv). cbn [andb].
    destruct (debug_shortcut event) eqn:Hd; [|done].
    exfalso. unfold debug_shortcut in Hd. apply andb_prop in Hd as [_ Hkey].
    apply String.eqb_eq in Hkey. unfold reload_shortcut in Hreload.
    rewrite Hkey in Hreload. by rewrite andb_false_r in Hreload.
Qed.

(** ** The handlers that the bootstrap attaches *)

(** The handlers of setupGlobalEventListeners. *)
Definition global_handlers : list (string * string * Handler) :=
  [ ("window", "error", HGlobalError);
    ("window", "unhandledrejection", HUnhandledRejection);
    ("document", "keydown", HKeydown);
    ("document", "visibilitychange", HVisibilityChange) ].

(** Those of setupForms: none when the page has no generation form. *)
Definition form_handlers : list (string * string * Handler) :=
  match doc_generationForm (document env) with
  | Some inputs =>
      ("generationForm", "submit", HFormSubmit)
      :: flat_map (λ input, [ (input, "blur", HFieldBlur input) ]) inputs
  | None => []
  end.

(** The handler of setupMainButtons for a button: none when the page does not
    have the button. *)
Definition button_handler (buttonId : string) : list (string * string * Handler) :=
  if bool_decide (buttonId ∈ doc_buttons (document env))
  then [ (buttonId, "click", HButtonClick buttonId) ]
  else [].

Definition button_handlers : list (string * string * Handler) :=
  flat_map button_handler ["generateBtn"; "previewBtn"; "sampleBtn"; "resetBtn"].

(** Those of setupTooltips. *)
Definition tooltip_handlers : list (string * string * Handler) :=
  flat_map (λ element, [ (element, "mouseenter", HTooltipEnter element);
                         (element, "mouseleave", HTooltipLeave element) ])
    (doc_tooltips (document env)).

(** The handler of setupResponsive. *)
Definition responsive_handlers : list (string * string * Handler) :=
  [ ("(max-width: 768px)", "change", HResponsive) ].

(** All the handlers of the bootstrap, in the order in which it attaches
    them. *)
Definition page_handlers : list (string * string * Handler) :=
  global_handlers ++ form_handlers ++ button_handlers ++ tooltip_handlers
  ++ responsive_handlers.

(** The handlers attached to the page are [handlers]. *)
Definition attached (handlers : list (string * string * Handler)) (w : World) : Prop :=
  domListeners w = handlers.

Lemma attached_tolerant handlers : Tolerant (attached handlers).
Proof. by split. Qed.

(** A computation that does nothing but attach the handlers [hs]. *)
Definition attaches_exactly (m : M unit) (hs : list (string * string * Handler)) : Prop :=
  ∀ w, m w = (Normal tt, set_domListeners (λ l, l ++ hs) w).

Lemma attaches_exactly_nil : attaches_exactly (ret tt) [].
Proof.
  intros w. unfold ret. f_equal. destruct w. unfold set_domListeners. simpl.
  by rewrite app_nil_r.
Qed.

Lemma attaches_exactly_addEventListener target event handler :
  attaches_exactly (addEventListener target event handler) [ (target, event, handler) ].
Proof. by intros w. Qed.

Lemma attaches_exactly_bind m k hs1 hs2 :
  attaches_exactly m hs1 → attaches_exactly k hs2 → attaches_exactly (m ;;; k) (hs1 ++ hs2).
Proof.
  intros Hm Hk w. unfold bind. rewrite Hm, Hk. f_equal.
  unfold set_domListeners. simpl. by rewrite app_assoc.
Qed.

Lemma attaches_exactly_forEach {A} (l : list A) (f : A → M unit) hs :
  (∀ x, attaches_exactly (f x) (hs x)) → attaches_exactly (forEach l f) (flat_map hs l).
Proof.
  intros Hf. induction l as [|x l IH]; simpl.
  - apply attaches_exactly_nil.
  - by apply attaches_exactly_bind.
Qed.

Lemma attaches_exactly_setupForms : attaches_exactly setupForms form_handlers.
Proof.
  unfold setupForms, form_handlers.
  destruct (doc_generationForm (document env)) as [inputs|]; [|apply attaches_exactly_nil].
  apply (attaches_exactly_bind _ _ [_]); [apply attaches_exactly_addEventListener|].
  cbn [APP_CONFIG.validation.realTime].
  apply attaches_exactly_forEach. intros input. apply attaches_exactly_addEventListener.
Qed.

Lemma attaches_exactly_setupMainButtons : attaches_exactly setupMainButtons button_handlers.
Proof.
  unfold setupMainButtons, button_handlers. apply attaches_exactly_forEach. intros buttonId.
  unfold button_handler. case_bool_decide.
  - apply attaches_exactly_addEventListener.
  - apply attaches_exactly_nil.
Qed.

Lemma attaches_exactly_setupTooltips : attaches_exactly setupTooltips tooltip_handlers.
Proof.
  unfold setupTooltips, tooltip_handlers. apply attaches_exactly_forEach. intros element.
  apply (attaches_exactly_bind _ _ [_] [_]); apply attaches_exactly_addEventListener.
Qed.

Lemma hoare_attaches_exactly m hs handlers :
  attaches_exactly m hs → hoare (attached handlers) m (attached (handlers ++ hs)).
Proof. intros Hm w Hw. unfold exec, attached in *. rewrite Hm. simpl. by rewrite Hw. Qed.

Lemma returns_attaches_exactly m hs : attaches_exactly m hs → returns m.
Proof. intros Hm w. exists tt. unfold completion. by rewrite Hm. Qed.

Lemma returns_attaches m : attaches m → returns m.
Proof. intros Hm w. exists tt. apply (Hm w (λ c _, c = Normal tt)). by intros evs f _. Qed.

(** A step that attaches the handlers [hs], followed by the rest. *)
Lemma hoare_attach_then m (k : M unit) hs handlers Q :
  attaches_exactly m hs →
  hoare (attached (handlers ++ hs)) k Q →
  hoare (attached handlers) (m ;;; k) Q.
Proof.
  intros Hm Hk.
  apply (hoare_bind_returns _ (attached (handlers ++ hs)));
    [by eapply returns_attaches_exactly | by apply hoare_attaches_exactly | by intros _].
Qed.

Lemma hoare_setupGlobalEventListeners handlers :
  hoare (attached handlers) setupGlobalEventListeners (attached (handlers ++ global_handlers)).
Proof.
  unfold setupGlobalEventListeners, global_handlers.
  replace (handlers ++ [ ("window", "error", HGlobalError);
                         ("window", "unhandledrejection", HUnhandledRejection);
                         ("document", "keydown", HKeydown);
                         ("document", "visibilitychange", HVisibilityChange) ])
    with ((((handlers ++ [ ("window", "error", HGlobalError) ])
              ++ [ ("window", "unhandledrejection", HUnhandledRejection) ])
             ++ [ ("document", "keydown", HKeydown) ])
            ++ [ ("document", "visibilitychange", HVisibilityChange) ])
    by (by rewrite <- !app_assoc).
  repeat (eapply hoare_attach_then; [apply attaches_exactly_addEventListener|]).
  apply preserves_log, attached_tolerant.
Qed.

Lemma hoare_initializeUI handlers :
  hoare (attached handlers) initializeUI
    (attached (handlers ++ form_handlers ++ button_handlers ++ tooltip_handlers
               ++ responsive_handlers)).
Proof.
  unfold initializeUI. rewrite !app_assoc.
  apply (hoare_bind_returns _ (attached handlers));
    [by apply returns_bookkeeping, bookkeeping_log | apply preserves_log, attached_tolerant|].
  intros _.
  eapply hoare_attach_then; [apply attaches_exactly_setupForms|].
  eapply hoare_attach_then; [apply attaches_exactly_setupMainButtons|].
  eapply hoare_attach_then; [apply attaches_exactly_setupTooltips|].
  apply (hoare_bind _
           (attached ((((handlers ++ form_handlers) ++ button_handlers) ++ tooltip_handlers)
                      ++ responsive_handlers)));
    [|intros _; apply preserves_log, attached_tolerant|done].
  unfold setupResponsive, responsive_handlers.
  eapply hoare_attach_then; [apply attaches_exactly_addEventListener|].
  unfold handleResponsive.
  apply preserves_bind; [|intros _; apply preserves_emit, attached_tolerant].
  apply preserves_setState; [apply attached_tolerant | by intros w0].
Qed.

Lemma returns_initializeUI : returns initializeUI.
Proof. intros w. exists tt. apply (wp_initializeUI w (λ c _, c = Normal tt)). by intros evs f _. Qed.

Lemma initialize_attached w :
  page_message_element w →
  domListeners (exec initialize w) = domListeners w ++ page_handlers.
Proof.
  intros Hpage.
  set (before := domListeners w).
  assert (Hboth : Tolerant (λ w0, attached before w0 ∧ message_element w0))
    by (apply tolerant_and; [apply attached_tolerant | apply message_element_tolerant]).
  assert (Hinit : hoare (λ w0, attached before w0 ∧ page_message_element w0) initialize
                    (attached (before ++ page_handlers))).
  { unfold initialize.
    apply (hoare_bind_returns _ (λ w0, attached before w0 ∧ page_message_element w0));
      [by apply returns_bookkeeping, bookkeeping_log | |].
    { intros w0 Hw0. by apply wp_exec, wp_log. }
    intros _. apply hoare_try_catch.
    - apply (hoare_bind_returns _ (λ w0, attached before w0 ∧ message_element w0));
        [apply returns_LoadingManager_initialize| |].
      { intros w0 [Hw0 Hpage0]. split; [|by apply initialized_ready].
        unfold exec. by rewrite LoadingManager_initialize_run. }
      intros _.
      apply (hoare_bind_returns _ (λ w0, attached before w0 ∧ message_element w0));
        [apply returns_NotificationManager_initialize
        |by apply preserves_NotificationManager_initialize|].
      intros _.
      apply (hoare_bind_returns_from _ (attached before)).
      { intros w0 [_ Hmessage]. by apply returns_loadModules. }
      { apply (hoare_loadModules _ (attached before)); try done; try apply attached_tolerant.
        - by intros w0 [_ Hmessage].
        - intros w0 [Hw0 Hmessage]. apply wp_exec, wp_startLoading_ready; [done|].
          by intros evs _.
        - intros progress status w0 Hw0. apply wp_exec, wp_updateProgress. by intros evs _.
        - intros w0 Hw0. apply wp_exec, wp_stopLoading. by intros evs _. }
      intros _.
      apply (hoare_bind_returns _ (attached (before ++ global_handlers)));
        [apply returns_attaches, attaches_setupGlobalEventListeners
        |apply hoare_setupGlobalEventListeners|].
      intros _. unfold page_handlers. rewrite (app_assoc before global_handlers).
      apply (hoare_bind_returns _
               (attached ((before ++ global_handlers) ++ form_handlers ++ button_handlers
                          ++ tooltip_handlers ++ responsive_handlers)));
        [apply returns_initializeUI | apply hoare_initializeUI |].
      intros _.
      apply preserves_bind; [by apply preserves_modify|]. intros _.
      apply preserves_bind;
        [apply preserves_setState; [apply attached_tolerant | by intros w0]|]. intros _.
      apply preserves_bind; [apply preserves_log, attached_tolerant|]. intros _.
      apply preserves_bind;
        [apply preserves_NotificationManager_success, attached_tolerant|]. intros _.
      apply preserves_emit, attached_tolerant.
    - intros e. apply preserves_bind; [apply preserves_log, attached_tolerant|]. intros _.
      apply preserves_bind;
        [apply preserves_NotificationManager_error, attached_tolerant|]. intros _.
      apply preserves_throw. }
  by apply Hinit.
Qed.

(** X27. The handlers that initialize attaches to the page, whatever the
    scripts do, on a page whose loading overlay, if it has one, has its
    .loading-message: after the handlers that were there, the four
    global handlers (error and unhandledrejection on window, keydown and
    visibilitychange on document), the submit handler of the generation form
    and a blur handler for each of its fields when the page has the form, a
    click handler for each of generateBtn, previewBtn, sampleBtn and resetBtn
    that the page has, in that order, a mouseenter and a mouseleave handler for
    each element with a tooltip, and the handler of the media query.  A click
    handler is attached to a button exactly when it is one of the four and the
    page has it; without a generation form no submit or blur handler is
    attached. *)
Theorem initialize_attaches_handlers (w : World) :
  page_message_element w →
  domListeners (exec initialize w) = domListeners w ++ page_handlers
  ∧ (∀ buttonId,
       (buttonId, "click", HButtonClick buttonId) ∈ page_handlers
       ↔ buttonId ∈ ["generateBtn"; "previewBtn"; "sampleBtn"; "resetBtn"]
         ∧ buttonId ∈ doc_buttons (document env))
  ∧ (doc_generationForm (document env) = None →
     page_handlers = global_handlers ++ button_handlers ++ tooltip_handlers
                     ++ responsive_handlers).
Proof.
  intros Hpage. split; [by apply initialize_attached|]. split.
  - intros buttonId. unfold page_handlers. rewrite !elem_of_app.
    set (h := (buttonId, "click", HButtonClick buttonId)).
    assert (Hglobal : h ∉ global_handlers).
    { unfold global_handlers. rewrite !elem_of_cons, elem_of_nil.
      intros H. repeat destruct H as [H|H]; done. }
    assert (Hform : h ∉ form_handlers).
    { unfold form_handlers. destruct (doc_generationForm (document env)) as [inputs|].
      - rewrite elem_of_cons. intros [H|H]; [done|].
        induction inputs as [|input inputs IH]; simpl in H.
        + by apply elem_of_nil in H.
        + apply elem_of_cons in H as [H|H]; [done | by apply IH].
      - apply not_elem_of_nil. }
    assert (Htooltip : h ∉ tooltip_handlers).
    { unfold tooltip_handlers.
      induction (doc_tooltips (document env)) as [|element elements IH]; simpl.
      - apply not_elem_of_nil.
      - rewrite !elem_of_cons. intros [H|[H|H]]; [done..|by apply IH]. }
    assert (Hresponsive : h ∉ responsive_handlers).
    { unfold responsive_handlers. rewrite elem_of_cons, elem_of_nil. by intros [H|H]. }
    assert (Hbutton : h ∈ button_handlers
                      ↔ buttonId ∈ ["generateBtn"; "previewBtn"; "sampleBtn"; "resetBtn"]
                        ∧ buttonId ∈ doc_buttons (document env)).
    { unfold button_handlers. rewrite list_elem_of_In, in_flat_map. split.
      - intros (x & Hx%list_elem_of_In & Hh%list_elem_of_In).
        unfold button_handler in Hh. case_bool_decide as Hin; [|by apply elem_of_nil in Hh].
        apply list_elem_of_singleton in Hh. injection Hh as ->. by split.
      - intros [Hfour Hin]. exists buttonId. split; [by apply list_elem_of_In|].
        apply list_elem_of_In. unfold button_handler. rewrite bool_decide_true by done.
        by apply list_elem_of_singleton. }
    tauto.
  - intros Hnone. unfold page_handlers, form_handlers. by rewrite Hnone.
Qed.

(** ** The modules after the bootstrap *)

(** X28. After the bootstrap, on a page whose loading overlay, if it has
    one, has its .loading-message, isInitialized returns true, and getModule
    returns, for a name of the load list, the module that its script
    registered on window; for a module whose script failed or registered
    nothing, and for every name that is not in the list, it returns what it
    returned before the bootstrap (undefined when the script has just been
    loaded). *)
Theorem getModule_after_bootstrap (name : string) (w : World) :
  page_message_element w →
  let w' := exec initialize w in
  completion isInitialized w' = Normal true
  ∧ (∀ path,
       (name, path) ∈ modulesToLoad →
       completion (getModule name) w'
       = match script_outcome env path with
         | ScriptLoaded registered =>
             if to_boolean registered then Normal registered
             else completion (getModule name) w
         | ScriptError => completion (getModule name) w
         end)
  ∧ (name ∉ modulesToLoad.*1 → completion (getModule name) w' = completion (getModule name) w)
  ∧ (modules (app w) = ∅ →
     (∀ path, (name, path) ∈ modulesToLoad → script_outcome env path = ScriptError →
              completion (getModule name) w' = Normal VUndefined)
     ∧ (name ∉ modulesToLoad.*1 → completion (getModule name) w' = Normal VUndefined)).
Proof.
  intros Hpage w'. subst w'.
  assert (H : initialized (app (exec initialize w)) = true
              ∧ modules (app (exec initialize w)) = loaded modulesToLoad (modules (app w))).
  { wp_of_exec. apply wp_initialize; [done|].
    intros w' (evs & toast & _ & _ & _ & _ & _ & Hmodules & Hinit & _). done. }
  destruct H as [Hinit Hmodules].
  unfold completion, isInitialized, getModule, bind, get, ret. cbn [fst].
  rewrite Hinit, Hmodules.
  assert (Hlisted : ∀ path,
    (name, path) ∈ modulesToLoad →
    Normal (default VUndefined (loaded modulesToLoad (modules (app w)) !! name))
    = match script_outcome env path with
      | ScriptLoaded registered =>
          if to_boolean registered then Normal registered
          else Normal (default VUndefined (modules (app w) !! name))
      | ScriptError => Normal (default VUndefined (modules (app w) !! name))
      end).
  { intros path Hin.
    rewrite (loaded_lookup modulesToLoad _ name path modulesToLoad_NoDup Hin).
    unfold register_module.
    destruct (script_outcome env path) as [|registered]; [done|].
    destruct (to_boolean registered); [|done]. by rewrite lookup_insert_eq. }
  split; [done|]. split; [exact Hlisted|].
  split; [intros Hnot; by rewrite loaded_other|].
  intros Hempty. split.
  - intros path Hin Herror. rewrite (Hlisted path Hin), Herror, Hempty. done.
  - intros Hnot. by rewrite loaded_other, Hempty.
Qed.

End Script.

(** * A page, a backend and a form to run the script on *)

(** A page with the generation form and two of the four buttons, and without
    the elements of the loading overlay and of the notifications, which the
    managers then build. *)
Definition demo_document : Document :=
  {| doc_loadingOverlay := None;
     doc_loadingProgressBar := None;
     doc_loadingStatus := None;
     doc_notificationContainer := None;
     doc_generationForm := Some ["region"; "dateDebut"];
     doc_buttons := ["generateBtn"; "resetBtn"];
     doc_tooltips := ["region"];
     doc_maxWidth768 := false |}.

(** The same page with a loading overlay of its own that has no
    .loading-message. *)
Definition bare_overlay_document : Document :=
  {| doc_loadingOverlay := Some {| display := "none"; loadingMessage := None |};
     doc_loadingProgressBar := None;
     doc_loadingStatus := None;
     doc_notificationContainer := None;
     doc_generationForm := Some ["region"; "dateDebut"];
     doc_buttons := ["generateBtn"; "resetBtn"];
     doc_tooltips := ["region"];
     doc_maxWidth768 := false |}.

Definition demo_form : value :=
  VObj {[ "region" := VStr "Selangor"; "buildings" := VNum 40 ]}.

Definition double_quote : string := String (Ascii.ascii_of_nat 34) EmptyString.

Definition quoted (s : string) : string := double_quote +:+ s +:+ double_quote.

(** JSON.stringify on the values that the demo serialises: undefined, the
    primitives, a string that needs no escape, and a form with a region and a
    number of buildings.  An object of another shape is given the text of the
    empty object: the demo serialises none. *)
Definition demo_stringify (v : value) : value :=
  match v with
  | VUndefined => VUndefined
  | VNull | VBool _ | VNum _ => VStr (to_string v)
  | VStr s => VStr (quoted s)
  | VError _ => VStr "{}"
  | VObj o =>
      match o !! "region", o !! "buildings" with
      | Some (VStr region), Some (VNum buildings) =>
          VStr ("{" +:+ quoted "region" +:+ ":" +:+ quoted region +:+ ","
                +:+ quoted "buildings" +:+ ":" +:+ Number_toString buildings +:+ "}")
      | _, _ => VStr "{}"
      end
  end.

(** An environment on a page: what the listeners do, the form that
    getFormData returns (None for the class as main.js defines it, with no
    getFormData and no validateForm on the application object), whether the
    form validates, and what the backend answers to the n-th fetch.  The
    feature scripts all fail to load. *)
Definition environment (callbacks : Callback → option JsError) (page : Document)
    (form : option value) (valid : bool) (responses : nat → FetchOutcome) : Environment :=
  {| run_callback := λ cb _ _ _, callbacks cb;
     run_subscriber := λ _ _ _ _, None;
     fetch_outcome := λ n _ _, responses n;
     script_outcome := λ _, ScriptError;
     getFormData := inr <$> form;
     validateForm :=
       match form with
       | Some _ => Some (λ _, inr (VObj {[ "valid" := VBool valid ]}))
       | None => None
       end;
     JSON_stringify := demo_stringify;
     random_id := λ n, pretty n;
     progress_of := λ i n, VNum (Z.of_nat (i * 100 / n));
     percent := λ v, to_string v +:+ "%";
     document := page |}.

(** The demo page, with listeners that all return. *)
Definition demo_environment (valid : bool) (responses : nat → FetchOutcome) : Environment :=
  environment (λ _, None) demo_document (Some demo_form) valid responses.

(** A backend that accepts the generation. *)
Definition accepting : nat → FetchOutcome :=
  λ _, FetchResponse 200 "OK" (inr (VObj {[ "success" := VBool true; "files" := VNum 3 ]})).

(** One that refuses it with a reason. *)
Definition refusing (reason : string) : nat → FetchOutcome :=
  λ _, FetchResponse 200 "OK" (inr (VObj {[ "success" := VBool false; "error" := VStr reason ]})).

(** One that answers with the status 400, whatever the body says. *)
Definition rejecting : nat → FetchOutcome :=
  λ _, FetchResponse 400 "Bad Request" (inr (VObj {[ "success" := VBool true ]})).

(** One that is down. *)
Definition unreachable : nat → FetchOutcome :=
  λ _, FetchRejected (Error "Failed to fetch").


(** The class as main.js defines it: no getFormData and no validateForm on
    the application object. *)
Definition bare_environment : Environment :=
  environment (λ _, None) demo_document None true accepting.

(** The page whose overlay has no .loading-message, with a form that
    validates. *)
Definition bare_overlay_environment : Environment :=
  environment (λ _, None) bare_overlay_document (Some demo_form) true accepting.

(** The world once the bootstrap has run. *)
Definition booted (env : Environment) : World := exec (initialize env) initial_world.

Lemma demo_valid_form responses : valid_form (demo_environment true responses) demo_form.
Proof. split; [done|]. by eexists _, _, _. Qed.

Lemma demo_invalid_form responses : invalid_form (demo_environment false responses) demo_form.
Proof. split; [done|]. by eexists _, _, _. Qed.

(** The demo page has no overlay of its own: the manager builds one, with its
    .loading-message. *)
Lemma demo_page callbacks form valid responses :
  page_message_element (environment callbacks demo_document form valid responses) initial_world.
Proof. exact I. Qed.

Lemma booted_ready env : page_message_element env initial_world → notifications_ready (booted env).
Proof. apply initialize_ready. Qed.

Lemma demo_ready valid responses : notifications_ready (booted (demo_environment valid responses)).
Proof. apply booted_ready, demo_page. Qed.

Lemma demo_message_element valid responses :
  message_element (booted (demo_environment valid responses)).
Proof. vm_compute. by eexists. Qed.

(** The bootstrap on this page: the five scripts fail, the app is ready. *)
Example booted_demo :
  completion (initialize (demo_environment true accepting)) initial_world = Normal tt
  ∧ initialized (app (booted (demo_environment true accepting))) = true
  ∧ modules (app (booted (demo_environment true accepting))) = ∅
  ∧ toastMessage <$> shown (trace (booted (demo_environment true accepting)))
    = ["Application chargée avec succès"]
  ∧ length (warnings (trace (booted (demo_environment true accepting)))) = 5%nat.
Proof. vm_compute. done. Qed.

(** A generation that the backend accepts: the body of the POST is the JSON
    text of the form. *)
Example generation_accepted :
  let env := demo_environment true accepting in
  let evs := added (booted env) (exec (startGeneration env) (booted env)) in
  toastMessage <$> shown evs = ["Génération terminée avec succès"]
  ∧ (λ r, (r.1, r.2 !! "method", r.2 !! "body")) <$> fetched evs
    = [("/generate/", Some (VStr "POST"),
        Some (VStr ("{" +:+ quoted "region" +:+ ":" +:+ quoted "Selangor" +:+ ","
                    +:+ quoted "buildings" +:+ ":40}")))].
Proof. vm_compute. done. Qed.

(** One that it refuses. *)
Example generation_refused :
  let env := demo_environment true (refusing "quota dépassé") in
  toastMessage <$> shown (added (booted env) (exec (startGeneration env) (booted env)))
  = ["Erreur: quota dépassé"].
Proof. vm_compute. done. Qed.

(** A response with the status 400: its body is not read, the request is
    retried, and the notification reads the status, whatever [success] is in
    the body. *)
Example generation_rejected :
  let env := demo_environment true rejecting in
  let w' := exec (startGeneration env) (booted env) in
  let evs := added (booted env) w' in
  (λ t, (toastType t, toastMessage t)) <$> shown evs
  = [("error", "Erreur: HTTP 400: Bad Request")]
  ∧ length (fetched evs) = 3%nat
  ∧ state w' !! "currentGeneration" = Some VNull.
Proof. vm_compute. done. Qed.

(** A backend that is down: three fetches, two delays, one notification. *)
Example generation_unreachable :
  let env := demo_environment true unreachable in
  let evs := added (booted env) (exec (startGeneration env) (booted env)) in
  toastMessage <$> shown evs = ["Erreur: Failed to fetch"]
  ∧ length (fetched evs) = 3%nat
  ∧ omap (λ e, match e with EDelay ms => Some ms | _ => None end) evs = [1000; 2000].
Proof. vm_compute. done. Qed.

(** The class as it is in main.js, with no getFormData attached to the
    application object: the call throws, and the catch block reports it. *)
Example generation_without_getFormData :
  let env := bare_environment in
  let evs := added (booted env) (exec (startGeneration env) (booted env)) in
  toastMessage <$> shown evs = ["Erreur: this.getFormData is not a function"]
  ∧ fetched evs = [].
Proof. vm_compute. done. Qed.

(** The page whose overlay has no .loading-message: the bootstrap fails in
    loadModules, before any script is loaded and any handler attached, and
    leaves its load active; a generation then fails in startLoading, before
    the request. *)
Example bootstrap_without_message_element :
  let env := bare_overlay_environment in
  let w := booted env in
  let evs := added w (exec (startGeneration env) w) in
  completion (initialize env) initial_world = Throw no_message_element
  ∧ toastMessage <$> shown (trace w) = ["Erreur lors du chargement de l'application"]
  ∧ scripts (trace w) = []
  ∧ domListeners w = []
  ∧ initialized (app w) = false
  ∧ activeLoads (loadingManager w) = {[ "modules_loading" ]}
  ∧ completion (startGeneration env) w = Normal tt
  ∧ toastMessage <$> shown evs
    = ["Erreur: Cannot set properties of null (setting 'textContent')"]
  ∧ fetched evs = [].
Proof. vm_compute. done. Qed.

(** Three listeners of one event, the second of which throws: all three are
    called in the order of their registration, the first two with the record
    of their registration as [this] and the third with its context, and the
    exception is printed between the second call and the third. *)
Example emit_with_a_throwing_listener :
  let env :=
    environment (λ cb, if Nat.eqb cb 2 then Some (Error "boom") else None)
      demo_document None true accepting in
  let w := exec (on "refresh" 1%nat VUndefined ;;; on "refresh" 2%nat VNull ;;;
                 on "refresh" 3%nat (VStr "panel")) initial_world in
  completion (emit env "refresh" (VNum 7)) w = Normal tt
  ∧ added w (exec (emit env "refresh" (VNum 7)) w)
    = [ECall 1%nat (ThisRegistration {| callback := 1%nat; context := VNull |}) (VNum 7);
       ECall 2%nat (ThisRegistration {| callback := 2%nat; context := VNull |}) (VNum 7);
       EConsole LError (error_prefix +:+ "Erreur dans l'écouteur pour 'refresh':") [VError "boom"];
       ECall 3%nat (ThisContext (VStr "panel")) (VNum 7)].
Proof. vm_compute. done. Qed.

(** A callback registered twice and removed once is still called once; an
    event emitted without data carries null. *)
Example off_after_two_on :
  let env := demo_environment true accepting in
  let w := exec (on "refresh" 1%nat VNull ;;; on "refresh" 1%nat VNull ;;;
                 off "refresh" 1%nat) initial_world in
  listeners w !! "refresh" = Some [ {| callback := 1%nat; context := VNull |} ]
  ∧ added w (exec (emit env "refresh" VUndefined) w)
    = [ECall 1%nat (ThisRegistration {| callback := 1%nat; context := VNull |}) VNull].
Proof. vm_compute. done. Qed.

(** A nested object of the state is replaced by setState, not merged. *)
Example setState_replaces_nested_objects :
  let env := demo_environment true accepting in
  let w := exec (setState env {[ "modules" := VObj {[ "map" := VBool true ]} ]}) initial_world in
  let w' := exec (setState env {[ "modules" := VObj {[ "export" := VBool true ]} ]}) w in
  state w' !! "modules" = Some (VObj {[ "export" := VBool true ]})
  ∧ state w' !! "currentView" = Some (VStr "form").
Proof. vm_compute. done. Qed.

(** Two nested loads on the demo page: the overlay stays up until the second
    is stopped. *)
Example nested_loads :
  let env := demo_environment true accepting in
  let w := booted env in
  let w1 := exec (startLoading env "a" "A" false ;;; startLoading env "b" "B" false ;;;
                  stopLoading env "a") w in
  let w2 := exec (stopLoading env "b") w1 in
  (display <$> overlay (loadingManager w1), state w1 !! "loading")
  = (Some "flex", Some (VBool true))
  ∧ (display <$> overlay (loadingManager w2), state w2 !! "loading")
    = (Some "none", Some (VBool false)).
Proof. vm_compute. done. Qed.

(** The icon of a notification whose type names a member of
    Object.prototype, and of one whose type is unknown. *)
Example getIcon_of_odd_types :
  getIcon "toString" = IconInherited "toString"
  ∧ getIcon "constructor" = IconInherited "constructor"
  ∧ getIcon "notice" = getIcon "info"
  ∧ getIcon "error" = IconText "❌".
Proof. vm_compute. done. Qed.

(** The text of a number: the shortest decimal that reads back as the same
    double, with an exponent from 1e21. *)
Example to_string_of_numbers :
  to_string (VNum 404) = "404"
  ∧ to_string (VNum (-7)) = "-7"
  ∧ to_string (VNum (2 ^ 53)) = "9007199254740992"
  ∧ to_string (VNum (2 ^ 60)) = "1152921504606847000"
  ∧ to_string (VNum (10 ^ 21)) = "1e+21"
  ∧ to_string (VNum (2 ^ 70)) = "1.1805916207174113e+21".
Proof. vm_compute. done. Qed.

(** * The properties on the demo page *)

(** C1 at the demo page, with a backend that accepts. *)
Lemma startGeneration_posts_and_reports_witness :
  let env := demo_environment true accepting in
  let w := booted env in
  let evs := added w (exec (startGeneration env) w) in
  let sent := generation_options env demo_form in
  completion (startGeneration env) w = Normal tt
  ∧ generation_url = "/generate/"
  ∧ sent !! "method" = Some (VStr "POST")
  ∧ sent !! "body" = Some (JSON_stringify env (default_parameter (VObj ∅) demo_form))
  ∧ (∃ retries,
       fetched evs = (generation_url, sent) :: retries
       ∧ Forall (λ r, r = (generation_url, sent)) retries)
  ∧ (∃ toast,
       shown evs = [toast]
       ∧ (∀ result success,
            returned env demo_form w result →
            get_property result "success" = inr success →
            if to_boolean success
            then toastType toast = "success"
                 ∧ toastMessage toast = "Génération terminée avec succès"
            else toastType toast = "error")
       ∧ (∀ result e,
            returned env demo_form w result →
            get_property result "success" = inl e →
            toastType toast = "error" ∧ toastMessage toast = "Erreur: " +:+ message e)
       ∧ (∀ e3,
            exhausted env demo_form w e3 →
            toastType toast = "error" ∧ toastMessage toast = "Erreur: " +:+ message e3))
  ∧ ((∃ result, returned env demo_form w result) ∨ (∃ e3, exhausted env demo_form w e3)).
Proof.
  intros env w.
  apply (startGeneration_posts_and_reports env demo_form w).
  - apply demo_valid_form.
  - apply demo_ready.
  - apply demo_message_element.
Defined.

(** C3 at the demo page, with a backend that refuses with a reason. *)
Lemma startGeneration_reports_response_witness :
  let env := demo_environment true (refusing "quota dépassé") in
  let w := booted env in
  let w' := exec (startGeneration env) w in
  let evs := added w w' in
  completion (startGeneration env) w = Normal tt
  ∧ (∀ result success,
       returned env demo_form w result →
       get_property result "success" = inr success → to_boolean success = true →
       (∃ toast, shown evs = [toast] ∧ toastType toast = "success"
                 ∧ toastMessage toast = "Génération terminée avec succès")
       ∧ state w' !! "currentGeneration" = Some result)
  ∧ (∀ result success error,
       returned env demo_form w result →
       get_property result "success" = inr success → to_boolean success = false →
       get_property result "error" = inr error →
       (∃ toast, shown evs = [toast] ∧ toastType toast = "error"
                 ∧ (∀ e, error = VStr e → e ≠ "" → toastMessage toast = "Erreur: " +:+ e)
                 ∧ (to_boolean error = false →
                    toastMessage toast = "Erreur: Erreur de génération"))
       ∧ state w' !! "currentGeneration" = state w !! "currentGeneration")
  ∧ (∀ status statusText,
       refused env demo_form w status statusText →
       (∃ toast, shown evs = [toast] ∧ toastType toast = "error"
                 ∧ toastMessage toast
                   = "Erreur: HTTP " +:+ pretty status +:+ ": " +:+ statusText)
       ∧ length (fetched evs) = 3%nat
       ∧ state w' !! "currentGeneration" = state w !! "currentGeneration").
Proof.
  intros env w.
  apply (startGeneration_reports_response env demo_form w).
  - apply demo_valid_form.
  - apply demo_ready.
  - apply demo_message_element.
Defined.

(** C3 as the specification states it fails on a refusal whose [error] is
    the empty string: the form is valid, the POST returns a response with
    [success] false and [error] the empty string, and the notification does
    not read 'Erreur: ' followed by that string but 'Erreur: Erreur de
    génération'. *)
Lemma startGeneration_empty_error_counterexample :
  let env := demo_environment true (refusing "") in
  let result := VObj {[ "success" := VBool false; "error" := VStr "" ]} in
  let w := booted env in
  valid_form env demo_form
  ∧ notifications_ready w
  ∧ message_element w
  ∧ returned env demo_form w result
  ∧ get_property result "success" = inr (VBool false)
  ∧ get_property result "error" = inr (VStr "")
  ∧ toastMessage <$> shown (added w (exec (startGeneration env) w))
    = ["Erreur: Erreur de génération"]
  ∧ "Erreur: Erreur de génération" ≠ "Erreur: " +:+ "".
Proof.
  intros env result w.
  split; [apply demo_valid_form|]. split; [apply demo_ready|].
  split; [apply demo_message_element|].
  split; [by left|]. split; [done|]. split; [done|].
  split; [by vm_compute|]. done.
Qed.

(** C5 at the demo page, with a form that does not validate. *)
Lemma startGeneration_invalid_form_witness :
  let env := demo_environment false accepting in
  let w := booted env in
  let w' := exec (startGeneration env) w in
  let evs := added w w' in
  completion (startGeneration env) w = Normal tt
  ∧ (∃ toast, shown evs = [toast] ∧ toastType toast = "error"
              ∧ toastMessage toast = "Veuillez corriger les erreurs du formulaire")
  ∧ fetched evs = [] ∧ network evs = []
  ∧ fetches w' = fetches w
  ∧ activeLoads (loadingManager w') = activeLoads (loadingManager w) ∖ {[ "main_generation" ]}
  ∧ (loading_flag true w' → loading_flag true w)
  ∧ (∀ o', overlay (loadingManager w') = Some o' → display o' = "flex" →
           ∃ o, overlay (loadingManager w) = Some o ∧ display o = "flex").
Proof.
  intros env w.
  apply (startGeneration_invalid_form env demo_form w).
  - apply demo_invalid_form.
  - apply demo_ready.
Defined.

(** C6 at the demo page, with a backend that is down. *)
Lemma startGeneration_three_failures_witness :
  let env := demo_environment true unreachable in
  let w := booted env in
  let error := Error "Failed to fetch" in
  let evs := added w (exec (startGeneration env) w) in
  completion (startGeneration env) w = Normal tt
  ∧ (∃ toast, shown evs = [toast] ∧ toastType toast = "error"
              ∧ toastMessage toast = "Erreur: " +:+ message error)
  ∧ length (List.filter (λ t, String.eqb (toastType t) "error") (shown evs)) = 1%nat
  ∧ warnings evs
    = retry_warning (currentLevel w) 3 1 generation_url error
      ++ retry_warning (currentLevel w) 3 2 generation_url error
      ++ retry_warning (currentLevel w) 3 3 generation_url error
  ∧ network evs
    = [EFetch generation_url (generation_options env demo_form); EDelay 1000;
       EFetch generation_url (generation_options env demo_form); EDelay 2000;
       EFetch generation_url (generation_options env demo_form)].
Proof.
  intros env w error.
  apply (startGeneration_three_failures env demo_form w error error error).
  - apply demo_valid_form.
  - apply demo_ready.
  - apply demo_message_element.
  - reflexivity.
  - reflexivity.
  - reflexivity.
Defined.

(** C7 on the demo page as the browser loads it, where the five scripts
    fail. *)
Lemma initialize_survives_module_failures_witness :
  let env := demo_environment true accepting in
  let w := initial_world in
  let w' := exec (initialize env) w in
  let evs := added w w' in
  completion (initialize env) w = Normal tt
  ∧ initialized (app w') = true
  ∧ state w' !! "initialized" = Some (VBool true)
  ∧ scripts evs = map snd modulesToLoad
  ∧ (∀ name path,
       (name, path) ∈ modulesToLoad →
       modules (app w') !! name
       = match script_outcome env path with
         | ScriptLoaded registered =>
             if to_boolean registered then Some registered else modules (app w) !! name
         | ScriptError => modules (app w) !! name
         end)
  ∧ (∃ toast, shown evs = [toast] ∧ toastType toast = "success"
              ∧ toastMessage toast = "Application chargée avec succès").
Proof.
  intros env w. apply (initialize_survives_module_failures env w). apply demo_page.
Defined.

(** C8 on the demo page after the bootstrap. *)
Lemma loading_invariant_maintained_witness :
  let env := demo_environment true accepting in
  let w := booted env in
  (loading_invariant w →
     (overlay_display "none" w ∧ loading_flag false w ↔ activeLoads (loadingManager w) = ∅))
  ∧ (∀ loadId message showProgress,
       completion (startLoading env loadId message showProgress) w = Normal tt
       ∧ loading_invariant (exec (startLoading env loadId message showProgress) w))
  ∧ (∀ calls,
       has_overlay w ∨ CallInitialize ∉ calls →
       loading_invariant w →
       completion (forEach calls (loading_call env)) w = Normal tt
       ∧ loading_invariant (exec (forEach calls (loading_call env)) w))
  ∧ (∀ loadId,
       activeLoads (loadingManager w) ∖ {[ loadId ]} ≠ ∅ →
       let w' := exec (stopLoading env loadId) w in
       activeLoads (loadingManager w') = activeLoads (loadingManager w) ∖ {[ loadId ]}
       ∧ overlay (loadingManager w') = overlay (loadingManager w)
       ∧ state w' = state w)
  ∧ (∀ loadId,
       activeLoads (loadingManager w) ∖ {[ loadId ]} = ∅ →
       let w' := exec (stopLoading env loadId) w in
       activeLoads (loadingManager w') = ∅
       ∧ overlay_display "none" w' ∧ loading_flag false w')
  ∧ (∀ first second message1 message2 showProgress1 showProgress2,
       first ≠ second →
       let w' := exec (startLoading env first message1 showProgress1 ;;;
                       startLoading env second message2 showProgress2 ;;;
                       stopLoading env first) w in
       second ∈ activeLoads (loadingManager w')
       ∧ overlay_display "flex" w' ∧ loading_flag true w')
  ∧ (∀ loadId message1 message2 showProgress1 showProgress2,
       let w' := exec (startLoading env loadId message1 showProgress1 ;;;
                       startLoading env loadId message2 showProgress2 ;;;
                       stopLoading env loadId) w in
       (loadId ∉ activeLoads (loadingManager w'))
       ∧ (activeLoads (loadingManager w) ⊆ {[ loadId ]} →
          overlay_display "none" w' ∧ loading_flag false w')).
Proof.
  intros env w. apply (loading_invariant_maintained env w). apply demo_message_element.
Defined.

(** C8 as the specification states it fails in three ways.  Two loads
    started under one id are one load: after one stopLoading the overlay is
    hidden and the flag cleared, though a load that was started has not been
    stopped.  On a page whose overlay has no .loading-message, startLoading
    throws after it has recorded the load and shown the overlay and before it
    raises the flag: a load is active and the flag is false.  And the overlay
    that LoadingManager.initialize builds is not hidden before the first
    load: no load is active and its display is the empty string. *)
Lemma loading_invariant_counterexample :
  let env := demo_environment true accepting in
  let w := booted env in
  let twice := startLoading env "a" "A" false ;;; startLoading env "a" "B" false ;;;
               stopLoading env "a" in
  let bare := bare_overlay_environment in
  let thrown := LoadingManager_initialize bare ;;; startLoading bare "a" "A" false in
  let built := exec (LoadingManager_initialize env) initial_world in
  (activeLoads (loadingManager w) = ∅
   ∧ completion twice w = Normal tt
   ∧ activeLoads (loadingManager (exec twice w)) = ∅
   ∧ display <$> overlay (loadingManager (exec twice w)) = Some "none"
   ∧ state (exec twice w) !! "loading" = Some (VBool false))
  ∧ (completion thrown initial_world = Throw no_message_element
     ∧ activeLoads (loadingManager (exec thrown initial_world)) = {[ "a" ]}
     ∧ display <$> overlay (loadingManager (exec thrown initial_world)) = Some "flex"
     ∧ state (exec thrown initial_world) !! "loading" = Some (VBool false))
  ∧ (activeLoads (loadingManager built) = ∅
     ∧ display <$> overlay (loadingManager built) = Some ""
     ∧ "" ≠ "none").
Proof. vm_compute. done. Qed.





(** * The further properties on the demo page *)

(** X2 on the script as loaded: nobody listens to 'refresh'. *)
Lemma emit_without_listeners_witness :
  let env := demo_environment true accepting in
  let w := initial_world in
  completion (emit env "refresh" VUndefined) w = Normal tt
  ∧ exec (emit env "refresh" VUndefined) w
    = append (emit_debug_events (currentLevel w) "refresh" (default_parameter VNull VUndefined)) w
  ∧ List.filter is_call (added w (exec (emit env "refresh" VUndefined) w)) = []
  ∧ ((1 ≤ currentLevel w)%nat → exec (emit env "refresh" VUndefined) w = w).
Proof.
  intros env w. apply (emit_without_listeners env "refresh" VUndefined w). reflexivity.
Defined.

(** X4 on the script as loaded, which has no subscriber. *)
Lemma subscribe_is_a_set_witness :
  let w1 := exec (subscribe 1%nat) initial_world in
  let w2 := exec (unsubscribe 1%nat) w1 in
  NoDup (subscribers w1)
  ∧ 1%nat ∈ subscribers w1
  ∧ exec (subscribe 1%nat) w1 = w1
  ∧ NoDup (subscribers w2)
  ∧ (1%nat ∉ subscribers w2)
  ∧ (1%nat ∉ subscribers initial_world → subscribers w2 = subscribers initial_world).
Proof. apply (subscribe_is_a_set 1%nat initial_world). apply NoDup_nil_2. Defined.

(** X7 on the demo page after the bootstrap. *)
Lemma loads_are_not_counted_witness :
  let env := demo_environment true accepting in
  let w := booted env in
  let w' := exec (startLoading env "export" "Export..." true ;;;
                  startLoading env "export" "Export..." false ;;;
                  stopLoading env "export") w in
  activeLoads (loadingManager w') = activeLoads (loadingManager w) ∖ {[ "export" ]}
  ∧ (activeLoads (loadingManager w) ⊆ {[ "export" ]} →
     overlay_display "none" w' ∧ loading_flag false w').
Proof.
  intros env w.
  apply (loads_are_not_counted env "export" "Export..." "Export..." true false w).
  apply demo_message_element.
Defined.



(** X15 on the demo page, once the notification manager is initialized, with
    a type that names a member of Object.prototype. *)
Lemma show_registers_witness :
  let env := demo_environment true accepting in
  let w := exec (NotificationManager_initialize env) initial_world in
  let toast := new_toast env (ids w) "Bonjour" "toString" in
  let w' := exec (show env "Bonjour" "toString" 0) w in
  let evs := added w w' in
  completion (show env "Bonjour" "toString" 0) w = Normal (toastId toast)
  ∧ container (notificationManager w') = Some ([] ++ [toast])
  ∧ notifications (notificationManager w') !! toastId toast = Some toast
  ∧ (∀ other, other ≠ toastId toast →
       notifications (notificationManager w') !! other
       = notifications (notificationManager w) !! other)
  ∧ shown evs = [toast]
  ∧ timers evs
    = (AnimateToast (toastId toast), 10)
      :: (if 0 <? 0 then [(CloseToast (toastId toast), 0)] else [])
  ∧ List.filter is_call evs
    = map (call_of (notificationShown_data toast)) (registered "notificationShown" w)
  ∧ ("toString" ∈ Object_prototype → toastIcon toast = IconInherited "toString")
  ∧ ("toString" ∉ ["success"; "error"; "warning"] → "toString" ∉ Object_prototype →
     toastIcon toast = IconText "ℹ️").
Proof.
  intros env w. apply (show_registers env "Bonjour" "toString" 0 [] w). reflexivity.
Defined.

(** X18 on the demo page after the bootstrap. *)
Lemma startGeneration_keeps_loading_invariant_witness :
  let env := demo_environment true unreachable in
  let w := booted env in
  let w' := exec (startGeneration env) w in
  loading_invariant w'
  ∧ (activeLoads (loadingManager w) ⊆ {[ "main_generation" ]} →
     activeLoads (loadingManager w') = ∅
     ∧ overlay_display "none" w' ∧ loading_flag false w').
Proof.
  intros env w. apply (startGeneration_keeps_loading_invariant env w).
  apply initialize_invariant, demo_page.
Defined.

(** X21 with the class as it is: getFormData is not a function. *)
Lemma startGeneration_form_error_witness :
  let env := bare_environment in
  let error := Error "this.getFormData is not a function" in
  let w := booted env in
  let w' := exec (startGeneration env) w in
  let evs := added w w' in
  completion (startGeneration env) w = Normal tt
  ∧ (∃ toast, shown evs = [toast] ∧ toastType toast = "error"
              ∧ toastMessage toast = "Erreur: " +:+ message error)
  ∧ network evs = []
  ∧ fetches w' = fetches w
  ∧ activeLoads (loadingManager w') = activeLoads (loadingManager w) ∖ {[ "main_generation" ]}
  ∧ (getFormData env = None → message error = "this.getFormData is not a function").
Proof.
  intros env error w. apply (startGeneration_form_error env error w).
  - reflexivity.
  - apply booted_ready, demo_page.
Defined.

(** X22 on the page whose overlay has no .loading-message, once the
    notification manager is initialized: the form validates, and no request
    is sent. *)
Lemma startGeneration_always_reports_witness :
  let env := bare_overlay_environment in
  let w := exec (NotificationManager_initialize env ;;; LoadingManager_initialize env)
             initial_world in
  let evs := added w (exec (startGeneration env) w) in
  completion (startGeneration env) w = Normal tt
  ∧ (∃ toast, shown evs = [toast] ∧ (toastType toast = "success" ∨ toastType toast = "error"))
  ∧ (length (fetched evs) ≤ 3)%nat
  ∧ match form_verdict env with
    | inr (formData, true) =>
        (message_element w →
         ∃ retries,
           fetched evs = (generation_url, generation_options env formData) :: retries
           ∧ Forall (λ r, r = (generation_url, generation_options env formData)) retries
           ∧ generation_options env formData !! "body"
             = Some (JSON_stringify env (default_parameter (VObj ∅) formData)))
        ∧ (∀ o, overlay (loadingManager w) = Some o → loadingMessage o = None →
           fetched evs = []
           ∧ ∃ toast, shown evs = [toast] ∧ toastType toast = "error"
                      ∧ toastMessage toast
                        = "Erreur: Cannot set properties of null (setting 'textContent')")
    | _ => fetched evs = []
    end.
Proof.
  intros env w. apply (startGeneration_always_reports env w). by eexists.
Defined.

(** X23 on the script as loaded, before DOMContentLoaded. *)
Lemma startGeneration_before_initialize_witness :
  let env := demo_environment true accepting in
  let w := initial_world in
  let w' := exec (startGeneration env) w in
  completion (startGeneration env) w = Throw null_container_error
  ∧ shown (added w w') = []
  ∧ notificationManager w' = notificationManager w
  ∧ "main_generation" ∉ activeLoads (loadingManager w').
Proof.
  intros env w. apply (startGeneration_before_initialize env w). reflexivity.
Defined.

(** X26 on the demo page: F5 after the bootstrap. *)
Lemma handleGlobalKeyboard_prevents_witness :
  let env := demo_environment true accepting in
  let event := {| ctrlKey := false; metaKey := false; key := "F5" |} in
  let d := {| debugEnabled := false; debugClass := false |} in
  let w := booted env in
  let r := handleGlobalKeyboard env event d w in
  let blocked := reload_shortcut event && is_loading w in
  keyboard_completion r = Normal tt
  ∧ defaultPrevented r = debug_shortcut event || blocked
  ∧ keyboard_debug r
    = (if debug_shortcut event
       then {| debugEnabled := negb (debugEnabled d); debugClass := negb (debugEnabled d) |}
       else d)
  ∧ shown (added w (keyboard_world r))
    = (if debug_shortcut event then [debug_toast env (ids w) (negb (debugEnabled d))]
       else if blocked
            then [new_toast env (ids w) "Génération en cours - rechargement bloqué" "warning"]
            else [])
  ∧ (debug_shortcut event = false → currentLevel (keyboard_world r) = currentLevel w)
  ∧ state (keyboard_world r) = state w
  ∧ (ctrlKey event = false → key event = "r" → defaultPrevented r = false)
  ∧ (loading_invariant w → reload_shortcut event = true →
     defaultPrevented r = bool_decide (activeLoads (loadingManager w) ≠ ∅)).
Proof.
  intros env event d w. apply (handleGlobalKeyboard_prevents env event d w).
  apply demo_ready.
Defined.

(** X27 on the demo page as the browser loads it. *)
Lemma initialize_attaches_handlers_witness :
  let env := demo_environment true accepting in
  let w := initial_world in
  domListeners (exec (initialize env) w) = domListeners w ++ page_handlers env
  ∧ (∀ buttonId,
       (buttonId, "click", HButtonClick buttonId) ∈ page_handlers env
       ↔ buttonId ∈ ["generateBtn"; "previewBtn"; "sampleBtn"; "resetBtn"]
         ∧ buttonId ∈ doc_buttons (document env))
  ∧ (doc_generationForm (document env) = None →
     page_handlers env = global_handlers ++ button_handlers env ++ tooltip_handlers env
                         ++ responsive_handlers).
Proof.
  intros env w. apply (initialize_attaches_handlers env w). apply demo_page.
Defined.

(** X28 on the demo page as the browser loads it, for the first module of
    the list. *)
Lemma getModule_after_bootstrap_witness :
  let env := demo_environment true accepting in
  let name := "formValidator" in
  let w := initial_world in
  let w' := exec (initialize env) w in
  completion isInitialized w' = Normal true
  ∧ (∀ path,
       (name, path) ∈ modulesToLoad →
       completion (getModule name) w'
       = match script_outcome env path with
         | ScriptLoaded registered =>
             if to_boolean registered then Normal registered
             else completion (getModule name) w
         | ScriptError => completion (getModule name) w
         end)
  ∧ (name ∉ modulesToLoad.*1 → completion (getModule name) w' = completion (getModule name) w)
  ∧ (modules (app w) = ∅ →
     (∀ path, (name, path) ∈ modulesToLoad → script_outcome env path = ScriptError →
              completion (getModule name) w' = Normal VUndefined)
     ∧ (name ∉ modulesToLoad.*1 → completion (getModule name) w' = Normal VUndefined)).
Proof.
  intros env name w. apply (getModule_after_bootstrap env name w). apply demo_page.
Defined.

(** The shortcuts on the demo page: F5 is let through when nothing loads and
    blocked, with a warning, during a load; Cmd+R is let through even then. *)
Example reload_during_a_load :
  let env := demo_environment true accepting in
  let d := {| debugEnabled := false; debugClass := false |} in
  let f5 := {| ctrlKey := false; metaKey := false; key := "F5" |} in
  let cmd_r := {| ctrlKey := false; metaKey := true; key := "r" |} in
  let idle := booted env in
  let busy := exec (startLoading env "main_generation" "Génération en cours..." true) idle in
  defaultPrevented (handleGlobalKeyboard env f5 d idle) = false
  ∧ defaultPrevented (handleGlobalKeyboard env f5 d busy) = true
  ∧ toastMessage <$> shown (added busy (keyboard_world (handleGlobalKeyboard env f5 d busy)))
    = ["Génération en cours - rechargement bloqué"]
  ∧ defaultPrevented (handleGlobalKeyboard env cmd_r d busy) = false.
Proof. vm_compute. done. Qed.
